(** * LZSS (blacktop/lzss): a shallow embedding of [lzss.go] and its properties

    The Go package implements Okumura's LZSS with a 4096-byte ring buffer, a
    forest of 256 binary search trees kept in three index arrays, and a
    bit-packed token stream.  This file embeds [initState], [insertNode],
    [deleteNode], [Compress] and [Decompress] as executable Rocq functions
    and proves properties of them.

    Conventions of the embedding:
    - Go [int]/[uint] values are [Z]; every value the code computes stays far
      below 2^63, so no wrap-around is involved except for the [byte]
      variable [mask] and the [byte(...)] conversions, which are written out.
    - Go [byte]s are [Byte.byte]; [b2z] is the conversion [int(b)] and [z2b]
      the truncating conversion [byte(x)].
    - A fixed-size Go array [[len]T] is a map [Z -> T] together with its
      static length; every indexing goes through [aget]/[aset], which yield
      [Panic] outside [0, len) exactly where Go raises an index-out-of-range
      panic.
    - Go's unbounded [for] loops are fixpoints over a fuel counter; running
      out of fuel is the distinguished outcome [OutOfFuel].  The theorems
      show that neither [Panic] nor [OutOfFuel] ever occurs. *)

From Stdlib Require Import ZArith List Lia Bool Sorted Permutation.
From Stdlib.Strings Require Import Byte.
Import ListNotations.
Local Open Scope Z_scope.

(** ** Outcomes of a run *)

Inductive result (A : Type) : Type :=
| Ok (a : A)
| Panic
| OutOfFuel.

Arguments Ok {A} a.
Arguments Panic {A}.
Arguments OutOfFuel {A}.

Definition bind {A B : Type} (m : result A) (k : A -> result B) : result B :=
  match m with
  | Ok a => k a
  | Panic => Panic
  | OutOfFuel => OutOfFuel
  end.

Notation "x <- m ;; k" := (bind m (fun x => k))
  (at level 61, m at next level, right associativity).
Notation "' pat <- m ;; k" := (bind m (fun x => match x with pat => k end))
  (at level 61, pat pattern, m at next level, right associativity).

(** ** Bytes *)

Definition b2z (b : byte) : Z := Z.of_N (Byte.to_N b).

Definition z2b (z : Z) : byte :=
  match Byte.of_N (Z.to_N (z mod 256)) with
  | Some b => b
  | None => x00
  end.

(** ** Fixed-size arrays *)

Definition array (A : Type) : Type := Z -> A.

Definition inb (len i : Z) : bool := (0 <=? i) && (i <? len).

Definition upd {A : Type} (a : array A) (i : Z) (v : A) : array A :=
  fun j => if j =? i then v else a j.

Definition aget {A : Type} (len : Z) (a : array A) (i : Z) : result A :=
  if inb len i then Ok (a i) else Panic.

Definition aset {A : Type} (len : Z) (a : array A) (i : Z) (v : A)
  : result (array A) :=
  if inb len i then Ok (upd a i v) else Panic.

(** ** Constants of [lzss.go] *)

(** [n]: size of the ring buffer. *)
Definition n : Z := 4096.
(** [f]: upper limit for the match length. *)
Definition f : Z := 18.
Definition threshold : Z := 2.
(** The Go constant [nil = n], the absent-link sentinel. *)
Definition NIL : Z := n.

(** ** [encodeState] *)

Record encodeState : Type := mkState {
  lchild : array Z;          (* [n + 1]int *)
  rchild : array Z;          (* [n + 257]int *)
  parent : array Z;          (* [n + 1]int *)
  textBuf : array byte;      (* [n + f - 1]byte *)
  matchPosition : Z;
  matchLength : Z
}.

Definition getL (sp : encodeState) (i : Z) : result Z := aget (n + 1) (lchild sp) i.
Definition getR (sp : encodeState) (i : Z) : result Z := aget (n + 257) (rchild sp) i.
Definition getP (sp : encodeState) (i : Z) : result Z := aget (n + 1) (parent sp) i.
Definition getT (sp : encodeState) (i : Z) : result byte := aget (n + f - 1) (textBuf sp) i.

Definition setL (sp : encodeState) (i v : Z) : result encodeState :=
  a <- aset (n + 1) (lchild sp) i v ;;
  Ok (mkState a (rchild sp) (parent sp) (textBuf sp) (matchPosition sp) (matchLength sp)).
Definition setR (sp : encodeState) (i v : Z) : result encodeState :=
  a <- aset (n + 257) (rchild sp) i v ;;
  Ok (mkState (lchild sp) a (parent sp) (textBuf sp) (matchPosition sp) (matchLength sp)).
Definition setP (sp : encodeState) (i v : Z) : result encodeState :=
  a <- aset (n + 1) (parent sp) i v ;;
  Ok (mkState (lchild sp) (rchild sp) a (textBuf sp) (matchPosition sp) (matchLength sp)).
Definition setT (sp : encodeState) (i : Z) (v : byte) : result encodeState :=
  a <- aset (n + f - 1) (textBuf sp) i v ;;
  Ok (mkState (lchild sp) (rchild sp) (parent sp) a (matchPosition sp) (matchLength sp)).
Definition setMatch (sp : encodeState) (mp ml : Z) : encodeState :=
  mkState (lchild sp) (rchild sp) (parent sp) (textBuf sp) mp ml.

(** [initState]: the loops over whole arrays are written by their effect.
    Everything is cleared, [textBuf[0 .. n-f)] is filled with spaces,
    [rchild[n+1 .. n+256]] and [parent[0 .. n)] are set to [NIL]. *)
Definition initState : encodeState :=
  mkState (fun _ => 0)
          (fun i => if (n + 1 <=? i) && (i <=? n + 256) then NIL else 0)
          (fun i => if (0 <=? i) && (i <? n) then NIL else 0)
          (fun i => if (0 <=? i) && (i <? n - f) then " "%byte else x00)
          0 0.

(** ** [insertNode] *)

(** [key := sp.textBuf[r:]] followed by [key[i]]. *)
Definition getKey (sp : encodeState) (r i : Z) : result byte :=
  if inb (n + f - 1 - r) i then Ok (textBuf sp (r + i)) else Panic.

(** The comparison loop [for i = 1; i < f; i++ { if cmp = ...; cmp != 0 { break } }],
    entered with the current [i] and [cmp]; yields the final [(i, cmp)]. *)
Fixpoint cmpLoop (fuel : nat) (sp : encodeState) (r p i cmp : Z) : result (Z * Z) :=
  match fuel with
  | O => OutOfFuel
  | S fuel' =>
      if i <? f then
        a <- getKey sp r i ;;
        b <- getT sp (p + i) ;;
        let cmp := b2z a - b2z b in
        if negb (cmp =? 0) then Ok (i, cmp)
        else cmpLoop fuel' sp r p (i + 1) cmp
      else Ok (i, cmp)
  end.

(** How the descent of [insertNode] ends: by [return] inside the loop, or by
    [break] at a node [p] whose key agrees on all [f] bytes. *)
Inductive descent : Type :=
| Returned (sp : encodeState)
| Broke (sp : encodeState) (p : Z).

Fixpoint insertLoop (fuel : nat) (sp : encodeState) (r p cmp : Z) : result descent :=
  match fuel with
  | O => OutOfFuel
  | S fuel' =>
      c <- (if cmp >=? 0 then getR sp p else getL sp p) ;;
      if negb (c =? NIL) then
        let p := c in
        '(i, cmp) <- cmpLoop (Z.to_nat f) sp r p 1 cmp ;;
        if i >? matchLength sp then
          let sp := setMatch sp p i in
          if matchLength sp >=? f then Ok (Broke sp p)
          else insertLoop fuel' sp r p cmp
        else insertLoop fuel' sp r p cmp
      else
        sp <- (if cmp >=? 0 then setR sp p r else setL sp p r) ;;
        sp <- setP sp r p ;;
        Ok (Returned sp)
  end.

(** Bound on the number of descent steps: a tree never holds more than
    [n] positions. *)
Definition treeFuel : nat := Z.to_nat (n + 1).

(** Lines 134-144 of [insertNode]: after the [break], [r] takes the place
    of the fully matching node [p], which leaves the tree. *)
Definition replaceNode (sp : encodeState) (r p : Z) : result encodeState :=
  pp <- getP sp p ;; sp <- setP sp r pp ;;
  lp <- getL sp p ;; sp <- setL sp r lp ;;
  rp <- getR sp p ;; sp <- setR sp r rp ;;
  lp <- getL sp p ;; sp <- setP sp lp r ;;
  rp <- getR sp p ;; sp <- setP sp rp r ;;
  pp <- getP sp p ;;
  rpp <- getR sp pp ;;
  sp <- (if rpp =? p then setR sp pp r else setL sp pp r) ;;
  setP sp p NIL.

Definition insertNode (sp : encodeState) (r : Z) : result encodeState :=
  if negb ((0 <=? r) && (r <=? n + f - 1)) then Panic else
  k0 <- getKey sp r 0 ;;
  let p := n + 1 + b2z k0 in
  sp <- setR sp r NIL ;;
  sp <- setL sp r NIL ;;
  let sp := setMatch sp (matchPosition sp) 0 in
  d <- insertLoop treeFuel sp r p 1 ;;
  match d with
  | Returned sp => Ok sp
  | Broke sp p => replaceNode sp r p
  end.

(** ** [deleteNode] *)

(** [for sp.rchild[q] != nil { q = sp.rchild[q] }] *)
Fixpoint rightmost (fuel : nat) (sp : encodeState) (q : Z) : result Z :=
  match fuel with
  | O => OutOfFuel
  | S fuel' =>
      rq <- getR sp q ;;
      if negb (rq =? NIL) then rightmost fuel' sp rq else Ok q
  end.

(** Lines 159-170 of [deleteNode]: [p] has two children.  The in-order
    predecessor [q] of [p] is unlinked from the left subtree and adopts the
    children of [p]. *)
Definition unlinkPredecessor (sp : encodeState) (p : Z) : result (encodeState * Z) :=
  q <- getL sp p ;;
  rq <- getR sp q ;;
  '(sp, q) <-
    (if negb (rq =? NIL) then
       q <- rightmost treeFuel sp q ;;
       pq <- getP sp q ;; lq <- getL sp q ;; sp <- setR sp pq lq ;;
       lq <- getL sp q ;; pq <- getP sp q ;; sp <- setP sp lq pq ;;
       lp <- getL sp p ;; sp <- setL sp q lp ;;
       lp <- getL sp p ;; sp <- setP sp lp q ;;
       Ok (sp, q)
     else Ok (sp, q)) ;;
  rp <- getR sp p ;; sp <- setR sp q rp ;;
  rp <- getR sp p ;; sp <- setP sp rp q ;;
  Ok (sp, q).

(** Lines 172-178 of [deleteNode]: [q] takes the place of [p] under the
    parent of [p]. *)
Definition relink (sp : encodeState) (p q : Z) : result encodeState :=
  pp <- getP sp p ;; sp <- setP sp q pp ;;
  pp <- getP sp p ;;
  rpp <- getR sp pp ;;
  sp <- (if rpp =? p then setR sp pp q else setL sp pp q) ;;
  setP sp p NIL.

Definition deleteNode (sp : encodeState) (p : Z) : result encodeState :=
  pp <- getP sp p ;;
  if pp =? NIL then Ok sp else
  rp <- getR sp p ;;
  '(sp, q) <-
    (if rp =? NIL then
       q <- getL sp p ;; Ok (sp, q)
     else
       lp <- getL sp p ;;
       if lp =? NIL then
         q <- getR sp p ;; Ok (sp, q)
       else unlinkPredecessor sp p) ;;
  relink sp p q.

(** ** [Compress] *)

(** [src[i]] for a Go slice [src]. *)
Definition getSrc (src : list byte) (i : Z) : result byte :=
  if inb (Z.of_nat (length src)) i then
    match nth_error src (Z.to_nat i) with
    | Some b => Ok b
    | None => Panic
    end
  else Panic.

(** The local variables of [Compress] that live across loop iterations. *)
Record compState : Type := mkComp {
  c_sp : encodeState;
  c_dst : list byte;         (* bytes.Buffer *)
  c_codeBuf : array byte;    (* [17]byte *)
  c_codeBufPtr : Z;
  c_mask : Z;                (* byte *)
  c_r : Z;
  c_s : Z;
  c_dataLen : Z;
  c_srcPos : Z
}.

(** [for dataLen = 0; dataLen < f && srcPos < len(src); dataLen++
      { sp.textBuf[r+dataLen] = src[srcPos]; srcPos++ }] *)
Fixpoint readAhead (fuel : nat) (src : list byte) (sp : encodeState)
    (r dataLen srcPos : Z) : result (encodeState * Z * Z) :=
  match fuel with
  | O => OutOfFuel
  | S fuel' =>
      if (dataLen <? f) && (srcPos <? Z.of_nat (length src)) then
        b <- getSrc src srcPos ;;
        sp <- setT sp (r + dataLen) b ;;
        readAhead fuel' src sp r (dataLen + 1) (srcPos + 1)
      else Ok (sp, dataLen, srcPos)
  end.

(** [for i = 1; i <= f; i++ { sp.insertNode(r - i) }] *)
Fixpoint insertSpaces (fuel : nat) (sp : encodeState) (r i : Z) : result encodeState :=
  match fuel with
  | O => OutOfFuel
  | S fuel' =>
      if i <=? f then
        sp <- insertNode sp (r - i) ;;
        insertSpaces fuel' sp r (i + 1)
      else Ok sp
  end.

(** [for i = 0; i < codeBufPtr; i++ { dst.WriteByte(codeBuf[i]) }] *)
Fixpoint flush (fuel : nat) (codeBuf : array byte) (codeBufPtr i : Z)
    (dst : list byte) : result (list byte) :=
  match fuel with
  | O => OutOfFuel
  | S fuel' =>
      if i <? codeBufPtr then
        b <- aget 17 codeBuf i ;;
        flush fuel' codeBuf codeBufPtr (i + 1) (dst ++ [b])
      else Ok dst
  end.

(** Lines 225-248: clamp the match, emit one token into [codeBuf], shift
    [mask] and flush the group when it is full. *)
Definition emitToken (st : compState) : result compState :=
  let sp := c_sp st in
  let sp := if matchLength sp >? c_dataLen st
            then setMatch sp (matchPosition sp) (c_dataLen st) else sp in
  '(sp, codeBuf, codeBufPtr) <-
    (if matchLength sp <=? threshold then
       let sp := setMatch sp (matchPosition sp) 1 in
       c0 <- aget 17 (c_codeBuf st) 0 ;;
       codeBuf <- aset 17 (c_codeBuf st) 0 (z2b (Z.lor (b2z c0) (c_mask st))) ;;
       b <- getT sp (c_r st) ;;
       codeBuf <- aset 17 codeBuf (c_codeBufPtr st) b ;;
       Ok (sp, codeBuf, c_codeBufPtr st + 1)
     else
       codeBuf <- aset 17 (c_codeBuf st) (c_codeBufPtr st) (z2b (matchPosition sp)) ;;
       let codeBufPtr := c_codeBufPtr st + 1 in
       codeBuf <- aset 17 codeBuf codeBufPtr
         (z2b (Z.lor (Z.land (Z.shiftr (matchPosition sp) 4) 240)
                     (matchLength sp - (threshold + 1)))) ;;
       Ok (sp, codeBuf, codeBufPtr + 1)) ;;
  let mask := (Z.shiftl (c_mask st) 1) mod 256 in
  if mask =? 0 then
    dst <- flush 18 codeBuf codeBufPtr 0 (c_dst st) ;;
    codeBuf <- aset 17 codeBuf 0 x00 ;;
    Ok (mkComp sp dst codeBuf 1 1 (c_r st) (c_s st) (c_dataLen st) (c_srcPos st))
  else
    Ok (mkComp sp (c_dst st) codeBuf codeBufPtr mask (c_r st) (c_s st)
               (c_dataLen st) (c_srcPos st)).

(** Lines 250-268: [for i = 0; i < lastMatchLength && srcPos < len(src); i++];
    yields the final state and the final [i]. *)
Fixpoint advanceRead (fuel : nat) (src : list byte) (lastMatchLength i : Z)
    (st : compState) : result (compState * Z) :=
  match fuel with
  | O => OutOfFuel
  | S fuel' =>
      if (i <? lastMatchLength) && (c_srcPos st <? Z.of_nat (length src)) then
        sp <- deleteNode (c_sp st) (c_s st) ;;
        b <- getSrc src (c_srcPos st) ;;
        let c := b2z b in
        let srcPos := c_srcPos st + 1 in
        sp <- setT sp (c_s st) (z2b c) ;;
        sp <- (if c_s st <? f - 1 then setT sp (c_s st + n) (z2b c) else Ok sp) ;;
        let s := Z.land (c_s st + 1) (n - 1) in
        let r := Z.land (c_r st + 1) (n - 1) in
        sp <- insertNode sp r ;;
        advanceRead fuel' src lastMatchLength (i + 1)
          (mkComp sp (c_dst st) (c_codeBuf st) (c_codeBufPtr st) (c_mask st)
                  r s (c_dataLen st) srcPos)
      else Ok (st, i)
  end.

(** Lines 269-281: [for i < lastMatchLength { ... i++ }]. *)
Fixpoint advanceDrain (fuel : nat) (lastMatchLength i : Z) (st : compState)
    : result compState :=
  match fuel with
  | O => OutOfFuel
  | S fuel' =>
      if i <? lastMatchLength then
        sp <- deleteNode (c_sp st) (c_s st) ;;
        let s := Z.land (c_s st + 1) (n - 1) in
        let r := Z.land (c_r st + 1) (n - 1) in
        let dataLen := c_dataLen st - 1 in
        sp <- (if dataLen >? 0 then insertNode sp r else Ok sp) ;;
        advanceDrain fuel' lastMatchLength (i + 1)
          (mkComp sp (c_dst st) (c_codeBuf st) (c_codeBufPtr st) (c_mask st)
                  r s dataLen (c_srcPos st))
      else Ok st
  end.

(** Lines 250-281: the two advancing loops one after the other; [i] is
    shared, so that together they make [lastMatchLength] steps. *)
Definition advance (src : list byte) (lastMatchLength : Z) (st : compState)
    : result compState :=
  '(st, i) <- advanceRead (Z.to_nat (f + 1)) src lastMatchLength 0 st ;;
  advanceDrain (Z.to_nat (f + 1)) lastMatchLength i st.

(** One iteration of the main [for] loop up to its exit test. *)
Definition encodeStep (src : list byte) (st : compState) : result compState :=
  st <- emitToken st ;;
  let lastMatchLength := matchLength (c_sp st) in
  advance src lastMatchLength st.

(** The main loop: [for { ...; if dataLen <= 0 { break } }]. *)
Fixpoint encodeLoop (fuel : nat) (src : list byte) (st : compState) : result compState :=
  match fuel with
  | O => OutOfFuel
  | S fuel' =>
      st <- encodeStep src st ;;
      if c_dataLen st <=? 0 then Ok st else encodeLoop fuel' src st
  end.

(** The state at the head of the main loop (lines 187-221); [None] stands
    for the early [return []byte{}] when nothing could be read. *)
Definition compressInit (src : list byte) : result (option compState) :=
  let sp := initState in
  let codeBuf : array byte := upd (fun _ => x00) 0 x00 in
  let s := 0 in
  let r := n - f in
  '(sp, dataLen, srcPos) <- readAhead (Z.to_nat (f + 1)) src sp r 0 0 ;;
  if dataLen =? 0 then Ok None else
  sp <- insertSpaces (Z.to_nat (f + 1)) sp r 1 ;;
  sp <- insertNode sp r ;;
  Ok (Some (mkComp sp [] codeBuf 1 1 r s dataLen srcPos)).

Definition Compress (src : list byte) : result (list byte) :=
  if Z.of_nat (length src) =? 0 then Ok [] else
  init <- compressInit src ;;
  match init with
  | None => Ok []
  | Some st =>
      st <- encodeLoop (length src) src st ;;
      if c_codeBufPtr st >? 1
      then flush 18 (c_codeBuf st) (c_codeBufPtr st) 0 (c_dst st)
      else Ok (c_dst st)
  end.

(** ** [Decompress] *)

Record decState : Type := mkDec {
  d_textBuf : array byte;    (* make([]byte, n+f-1) *)
  d_dst : list byte;
  d_r : Z;
  d_srcPos : Z;
  d_flags : Z                (* uint *)
}.

(** [for k = 0; k <= j; k++ { c = textBuf[(i+k)&(n-1)]; dst.WriteByte(c);
     textBuf[r] = c; r++; r &= n-1 }] *)
Fixpoint copyLoop (fuel : nat) (i j k : Z) (st : decState) : result decState :=
  match fuel with
  | O => OutOfFuel
  | S fuel' =>
      if k <=? j then
        b <- aget (n + f - 1) (d_textBuf st) (Z.land (i + k) (n - 1)) ;;
        let c := b2z b in
        tb <- aset (n + f - 1) (d_textBuf st) (d_r st) (z2b c) ;;
        copyLoop fuel' i j (k + 1)
          (mkDec tb (d_dst st ++ [z2b c]) (Z.land (d_r st + 1) (n - 1))
                 (d_srcPos st) (d_flags st))
      else Ok st
  end.

(** The second half of an iteration of the decoding loop, which decodes
    one token under the current [flags]: the next state, or at a [break]
    the output accumulated so far. *)
Definition decodeToken (src : list byte) (st : decState) (flags srcPos : Z)
    : result (decState + list byte) :=
  let len := Z.of_nat (length src) in
  if Z.land flags 1 =? 1 then
    if srcPos >=? len then Ok (inr (d_dst st)) else
    b <- getSrc src srcPos ;;
    let c := b2z b in
    tb <- aset (n + f - 1) (d_textBuf st) (d_r st) (z2b c) ;;
    Ok (inl (mkDec tb (d_dst st ++ [z2b c]) (Z.land (d_r st + 1) (n - 1))
                   (srcPos + 1) flags))
  else
    if srcPos >=? len then Ok (inr (d_dst st)) else
    bi <- getSrc src srcPos ;;
    let i := b2z bi in
    let srcPos := srcPos + 1 in
    if srcPos >=? len then Ok (inr (d_dst st)) else
    bj <- getSrc src srcPos ;;
    let j := b2z bj in
    let srcPos := srcPos + 1 in
    let i := Z.lor i (Z.shiftl (Z.land j 240) 4) in
    let j := Z.land j 15 + threshold in
    st <- copyLoop (Z.to_nat (f + 1)) i j 0
            (mkDec (d_textBuf st) (d_dst st) (d_r st) srcPos flags) ;;
    Ok (inl st).

(** One iteration of the decoding loop: [flags] is shifted, reloaded from
    the input when its counting bits are used up, and a token decoded. *)
Definition decodeStep (src : list byte) (st : decState)
    : result (decState + list byte) :=
  let len := Z.of_nat (length src) in
  let flags := Z.shiftr (d_flags st) 1 in
  let srcPos := d_srcPos st in
  if (Z.land flags 256 =? 0) && (srcPos >=? len) then Ok (inr (d_dst st)) else
  '(flags, srcPos) <-
    (if Z.land flags 256 =? 0 then
       b <- getSrc src srcPos ;;
       Ok (Z.lor (b2z b) 65280, srcPos + 1)
     else Ok (flags, srcPos)) ;;
  decodeToken src st flags srcPos.

(** The decoding loop [for { ... }]. *)
Fixpoint decodeLoop (fuel : nat) (src : list byte) (st : decState) : result (list byte) :=
  match fuel with
  | O => OutOfFuel
  | S fuel' =>
      r <- decodeStep src st ;;
      match r with
      | inl st' => decodeLoop fuel' src st'
      | inr out => Ok out
      end
  end.

Definition decodeInit : decState :=
  mkDec (fun i => if (0 <=? i) && (i <? n - f) then " "%byte else x00)
        [] (n - f) 0 0.

Definition Decompress (src : list byte) : result (list byte) :=
  decodeLoop (S (length src)) src decodeInit.

(** * Specification-level notions *)

(** ** The Match Index as a forest of abstract trees *)

(** A binary tree of buffer positions. *)
Inductive tree : Type :=
| Leaf
| Node (l : tree) (x : Z) (r : tree).

(** In-order listing of the positions of a tree. *)
Fixpoint elems (t : tree) : list Z :=
  match t with
  | Leaf => []
  | Node l x r => elems l ++ x :: elems r
  end.

Fixpoint height (t : tree) : nat :=
  match t with
  | Leaf => O
  | Node l _ r => S (Nat.max (height l) (height r))
  end.

(** The index that points to a tree: its root position, or [NIL]. *)
Definition root_of (t : tree) : Z :=
  match t with
  | Leaf => NIL
  | Node _ x _ => x
  end.

(** A link cell: the left or right child field of a node or root. *)
Inductive side : Type := SL | SR.
Definition slot : Type := (Z * side)%type.

(** A tree with a hole, as the list of the nodes above the hole, innermost
    first: [FL x r] has the hole in the left subtree of [x], [FR l x] in
    the right subtree. *)
Inductive frame : Type :=
| FL (x : Z) (r : tree)
| FR (l : tree) (x : Z).
Definition ctx : Type := list frame.

Fixpoint plug (C : ctx) (t : tree) : tree :=
  match C with
  | [] => t
  | FL x r :: C' => plug C' (Node t x r)
  | FR l x :: C' => plug C' (Node l x t)
  end.

(** The link cell of the hole; [s0] is the cell the whole tree hangs from. *)
Definition hole (C : ctx) (s0 : slot) : slot :=
  match C with
  | [] => s0
  | FL x _ :: _ => (x, SL)
  | FR _ x :: _ => (x, SR)
  end.

(** Positions of a context in order: those before and those after the hole. *)
Fixpoint cleft (C : ctx) : list Z :=
  match C with
  | [] => []
  | FL _ _ :: C' => cleft C'
  | FR l x :: C' => cleft C' ++ elems l ++ [x]
  end.

Fixpoint cright (C : ctx) : list Z :=
  match C with
  | [] => []
  | FL x r :: C' => x :: elems r ++ cright C'
  | FR _ _ :: C' => cright C'
  end.

Definition cnodes (C : ctx) : list Z := cleft C ++ cright C.

Section Shape.

Variables L R P : array Z.

Definition ptr (s : slot) : Z :=
  match snd s with
  | SL => L (fst s)
  | SR => R (fst s)
  end.

(** The arrays realise [t] as a subtree whose root has parent [par]. *)
Fixpoint shape (t : tree) (par : Z) : Prop :=
  match t with
  | Leaf => True
  | Node l x r =>
      0 <= x < n /\ P x = par /\ L x = root_of l /\ R x = root_of r /\
      shape l x /\ shape r x
  end.

(** [t] hangs from the link cell [s]. *)
Definition hangs (t : tree) (s : slot) : Prop :=
  ptr s = root_of t /\ shape t (fst s).

(** The arrays realise the context [C] hanging from [s0], the content of
    the hole's link cell left open. *)
Fixpoint cshape (C : ctx) (s0 : slot) : Prop :=
  match C with
  | [] => True
  | FL x r :: C' =>
      0 <= x < n /\ P x = fst (hole C' s0) /\ ptr (hole C' s0) = x /\
      R x = root_of r /\ shape r x /\ cshape C' s0
  | FR l x :: C' =>
      0 <= x < n /\ P x = fst (hole C' s0) /\ ptr (hole C' s0) = x /\
      L x = root_of l /\ shape l x /\ cshape C' s0
  end.

End Shape.

(** ** Keys and their order *)

(** Lexicographic order of the [f]-byte strings at positions [x] and [y]. *)
Definition key_lt (T : array byte) (x y : Z) : Prop :=
  exists i, 0 <= i < f /\
    (forall j, 0 <= j < i -> T (x + j) = T (y + j)) /\
    b2z (T (x + i)) < b2z (T (y + i)).

Definition key_eq (T : array byte) (x y : Z) : Prop :=
  forall j, 0 <= j < f -> T (x + j) = T (y + j).

(** Lists of positions in strictly increasing key order. *)
Definition sorted (T : array byte) (l : list Z) : Prop := StronglySorted (key_lt T) l.

(** Binary search tree, strictly ordered by key. *)
Fixpoint bst (T : array byte) (t : tree) : Prop :=
  match t with
  | Leaf => True
  | Node l x r =>
      bst T l /\ bst T r /\
      (forall y, In y (elems l) -> key_lt T y x) /\
      (forall y, In y (elems r) -> key_lt T x y)
  end.

(** The tree of leading byte [c]: it hangs from the right link of the root
    sentinel [n + 1 + c], is a search tree, and holds only positions whose
    text starts with [c]. *)
Definition tree_ok (sp : encodeState) (c : Z) (t : tree) : Prop :=
  hangs (lchild sp) (rchild sp) (parent sp) t (n + 1 + c, SR) /\
  bst (textBuf sp) t /\
  (forall x, In x (elems t) -> b2z (textBuf sp x) = c).

(** The Match Index invariant: [fo c] is the tree of leading byte [c], and
    a position has a parent exactly when some tree holds it. *)
Definition forest_ok (sp : encodeState) (fo : Z -> tree) : Prop :=
  (forall c, 0 <= c < 256 -> tree_ok sp c (fo c)) /\
  (forall p, 0 <= p < n -> parent sp p <> NIL ->
     In p (elems (fo (b2z (textBuf sp p))))).

(** Positions held by the forest. *)
Definition held (fo : Z -> tree) (p : Z) : Prop :=
  exists c, 0 <= c < 256 /\ In p (elems (fo c)).

(** The link followed by [insertNode] for a comparison result [cmp]. *)
Definition side_of_cmp (cmp : Z) : side := if cmp >=? 0 then SR else SL.

(** What [insertNode sp r] leaves in the match fields: a length in
    [0, f], and for a positive length a position among [nodes] whose text
    agrees with the text at [r] on that many bytes. *)
Definition match_ok (T : array byte) (r : Z) (nodes : Z -> Prop) (sp : encodeState) : Prop :=
  0 <= matchLength sp <= f /\
  (0 < matchLength sp ->
     nodes (matchPosition sp) /\
     forall j, 0 <= j < matchLength sp -> T (matchPosition sp + j) = T (r + j)).

(** The four arrays of a state. *)
Definition arrays_are (sp : encodeState) (L R P : array Z) (T : array byte) : Prop :=
  lchild sp = L /\ rchild sp = R /\ parent sp = P /\ textBuf sp = T.

(** A context that descends by right links only. *)
Definition rspine (C : ctx) : Prop :=
  Forall (fun fr => match fr with FR _ _ => True | FL _ _ => False end) C.

(** The forest [fo] with the tree of leading byte [c] replaced by [t]. *)
Definition fupd (fo : Z -> tree) (c : Z) (t : tree) : Z -> tree :=
  fun c' => if c' =? c then t else fo c'.

(** ** The text and the ring buffer *)

Definition srcLen (src : list byte) : Z := Z.of_nat (length src).

(** The ring position that holds the byte of source index [t]: the
    coder starts at [n - f] and advances by one, modulo [n], per byte. *)
Definition rpos (t : Z) : Z := (n - f + t) mod n.

(** The source extended to the left by what the ring buffer holds before
    any byte is processed: [n - f] spaces, preceded by zero bytes. *)
Definition txt (src : list byte) (i : Z) : byte :=
  if i <? - (n - f) then x00
  else if i <? 0 then " "%byte
  else nth (Z.to_nat i) src x00.

(** The ring buffer once the source bytes of index below [m] are in it:
    position [x] holds the byte of the largest index below [m] that is
    mapped to [x]. *)
Definition ring (src : list byte) (m : Z) : array byte :=
  fun x => txt src (m - 1 - (rpos m - 1 - x) mod n).

(** ** Tokens and their packing *)

Inductive token : Type :=
| Lit (b : byte)
| Ref (pos len : Z).

(** Number of source bytes a token stands for. *)
Definition tok_len (k : token) : Z :=
  match k with
  | Lit _ => 1
  | Ref _ l => l
  end.

Definition is_lit (k : token) : bool :=
  match k with
  | Lit _ => true
  | Ref _ _ => false
  end.

(** The bytes of a token, as [Compress] stores them into [codeBuf]. *)
Definition tok_bytes (k : token) : list byte :=
  match k with
  | Lit b => [b]
  | Ref p l =>
      [z2b p; z2b (Z.lor (Z.land (Z.shiftr p 4) 240) (l - (threshold + 1)))]
  end.

(** The control byte of a group: bit [i], counted from the least
    significant one, is set when token [i] is a literal. *)
Fixpoint ctrl (g : list token) : Z :=
  match g with
  | [] => 0
  | k :: g' => (if is_lit k then 1 else 0) + 2 * ctrl g'
  end.

Definition group_bytes (g : list token) : list byte :=
  z2b (ctrl g) :: flat_map tok_bytes g.

(** The token list cut into groups of eight, the last one possibly shorter. *)
Fixpoint groups (fuel : nat) (toks : list token) : list (list token) :=
  match fuel with
  | O => []
  | S fuel' =>
      match toks with
      | [] => []
      | _ => firstn 8 toks :: groups fuel' (skipn 8 toks)
      end
  end.

Definition pack (toks : list token) : list byte :=
  flat_map group_bytes (groups (length toks) toks).

Definition span (toks : list token) : Z :=
  fold_right (fun k a => tok_len k + a) 0 toks.

(** ** Tokens that describe a source *)

(** A reference at source index [t]: its length lies in
    [threshold + 1, f], it ends within the source, and it points [d]
    positions back, [1 <= d <= n - f], to text that repeats at [t]. *)
Definition ref_ok (src : list byte) (t p l : Z) : Prop :=
  threshold < l <= f /\ t + l <= srcLen src /\
  exists d, 1 <= d <= n - f /\ d <= t + f /\ p = rpos (t - d) /\
    forall k, 0 <= k < l -> txt src (t - d + k) = txt src (t + k).

Definition tok_ok (src : list byte) (t : Z) (k : token) : Prop :=
  match k with
  | Lit b => t < srcLen src /\ b = txt src t
  | Ref p l => ref_ok src t p l
  end.

Fixpoint toks_ok (src : list byte) (t : Z) (toks : list token) : Prop :=
  match toks with
  | [] => True
  | k :: toks' => tok_ok src t k /\ toks_ok src (t + tok_len k) toks'
  end.

(** ** The layout of the output *)

(** All groups but the last hold eight tokens. *)
Fixpoint full_but_last (gs : list (list token)) : Prop :=
  match gs with
  | [] => True
  | g :: gs' =>
      match gs' with
      | [] => True
      | _ => length g = 8%nat
      end /\ full_but_last gs'
  end.

(** The two bytes of a reference token [Ref p l], read both ways: as
    [Compress] lays them out, and as [Decompress] takes them apart. *)
Definition ref_format (k : token) : Prop :=
  match k with
  | Lit _ => True
  | Ref p l =>
      0 <= p < n /\ 3 <= l <= 18 /\
      exists b0 b1,
        tok_bytes k = [b0; b1] /\
        b2z b0 = p mod 256 /\
        b2z b1 / 16 = p / 256 /\
        b2z b1 mod 16 = l - 3 /\
        Z.lor (b2z b0) (Z.shiftl (Z.land (b2z b1) 240) 4) = p /\
        Z.land (b2z b1) 15 + threshold + 1 = l
  end.

(** ** Established positions *)

(** A ring position is established when [t] bytes are decoded if it
    belongs to the initial run of spaces or was written by one of these
    [t] bytes. *)
Definition established (t x : Z) : Prop :=
  0 <= x < n - f \/ exists i, 0 <= i < t /\ x = rpos i.

(** Every position a reference reads is established when it is read: its
    byte [j] is read from [(p + j) mod n] after [j] bytes of the copy are
    written. [t] is the number of bytes decoded before the first token. *)
Fixpoint refs_established (t : Z) (toks : list token) : Prop :=
  match toks with
  | [] => True
  | k :: toks' =>
      match k with
      | Lit _ => True
      | Ref p l => forall j, 0 <= j < l -> established (t + j) ((p + j) mod n)
      end /\ refs_established (t + tok_len k) toks'
  end.

(** ** The token-level decoder *)

(** [copy fuel rg r p out]: copy [fuel] bytes from ring position [p] on to
    ring position [r] on, one by one, appending them to the output. *)
Fixpoint copy (fuel : nat) (rg : array byte) (r p : Z) (out : list byte)
    : array byte * Z * list byte :=
  match fuel with
  | O => (rg, r, out)
  | S fuel' =>
      let c := rg (p mod n) in
      copy fuel' (upd rg r c) ((r + 1) mod n) (p + 1) (out ++ [c])
  end.

Definition dec_tok (st : array byte * Z * list byte) (k : token)
    : array byte * Z * list byte :=
  let '(rg, r, out) := st in
  match k with
  | Lit b => (upd rg r b, (r + 1) mod n, out ++ [b])
  | Ref p l => copy (Z.to_nat l) rg r p out
  end.

Definition dec_toks (toks : list token) (st : array byte * Z * list byte)
    : array byte * Z * list byte :=
  fold_left dec_tok toks st.

(** The decoder before the first token. *)
Definition dec_start : array byte * Z * list byte :=
  (d_textBuf decodeInit, d_r decodeInit, d_dst decodeInit).

(** The output of the token-level decoder. *)
Definition dec_out (toks : list token) : list byte :=
  snd (dec_toks toks dec_start).

(** The token-level decoder when [t] bytes of [src] are decoded. *)
Definition dinv (src : list byte) (t : Z) (s : array byte * Z * list byte) : Prop :=
  let '(rg, r, out) := s in
  0 <= t <= srcLen src /\
  (forall x, 0 <= x < n -> rg x = ring src t x) /\
  r = rpos t /\
  out = firstn (Z.to_nat t) src.

(** What [d_flags] holds while the tokens [gr] of the current group and
    then the tokens [rest] are still to be decoded: either the group is
    used up and the counting bits are shifted out, or [j] tokens of the
    group are decoded and the control bits of [gr] sit below the counting
    bits. *)
Definition flags_ok (F : Z) (gr rest : list token) : Prop :=
  (gr = [] /\ Z.land (Z.shiftr F 1) 256 = 0) \/
  (exists j, 1 <= j <= 7 /\ Z.of_nat (length gr) <= 8 - j /\
     Z.shiftr F 1 = ctrl gr + 255 * 2 ^ (8 - j) /\
     (Z.of_nat (length gr) < 8 - j -> rest = [])).

(** A check of all numbers in [0, m). *)
Definition zrange_all (P : Z -> bool) (m : nat) : bool :=
  forallb (fun k => P (Z.of_nat k)) (seq 0 m).

(** The two bytes of a reference decode to its position and length. *)
Definition ref_roundtrip (p l : Z) : bool :=
  let b0 := b2z (z2b p) in
  let b1 := b2z (z2b (Z.lor (Z.land (Z.shiftr p 4) 240) (l - (threshold + 1)))) in
  (Z.lor b0 (Z.shiftl (Z.land b1 240) 4) =? p) &&
  (Z.land b1 15 + threshold =? l - 1) &&
  (b0 =? p mod 256) && (b1 / 16 =? p / 256) && (b1 mod 16 =? l - 3).

(** Well-formed tokens: a 12-bit position and a length in [3, 18]. *)
Definition tok_wf (k : token) : Prop :=
  match k with
  | Lit _ => True
  | Ref p l => 0 <= p < n /\ threshold < l <= f
  end.

(** ** The invariant of the coding loop *)

(** All positions held by the forest lie at most [hi] behind the coding
    position of source index [t], and not before the initial strings. *)
Definition window (fo : Z -> tree) (t hi : Z) : Prop :=
  forall x, held fo x ->
    exists d, 0 <= d <= hi /\ d <= t + f /\ x = rpos (t - d).

(** The text buffer holds the ring of the first [m] source bytes, and its
    last [f - 1] cells repeat the first ones as far as these were read. *)
Definition text_ok (src : list byte) (m : Z) (T : array byte) : Prop :=
  (forall x, 0 <= x < n -> T x = ring src m x) /\
  (forall j, 0 <= j < f - 1 -> f + j < m -> T (n + j) = T j).

(** The state of [Compress] when [t] source bytes are coded, match fields
    apart. *)
Definition enc_core (src : list byte) (t : Z) (st : compState) : Prop :=
  0 <= t <= srcLen src /\
  c_r st = rpos t /\
  c_s st = rpos (t + f) /\
  c_dataLen st = Z.min f (srcLen src - t) /\
  c_srcPos st = t + c_dataLen st /\
  (exists fo, forest_ok (c_sp st) fo /\ window fo t (n - f)) /\
  text_ok src (c_srcPos st) (textBuf (c_sp st)).

(** Positions a match may point to when [t] source bytes are coded. *)
Definition behind (t : Z) (y : Z) : Prop :=
  exists d, 1 <= d <= n - f /\ d <= t + f /\ y = rpos (t - d).

Definition match_part (t : Z) (st : compState) : Prop :=
  0 < c_dataLen st ->
  match_ok (textBuf (c_sp st)) (c_r st) (behind t) (c_sp st).

(** The array [cb] starts with the bytes [l]. *)
Definition holds (cb : array byte) (l : list byte) : Prop :=
  forall i, (i < length l)%nat -> cb (Z.of_nat i) = nth i l x00.

(** The output side of [Compress] after the tokens [toks]: complete
    groups are in [dst], the current group is in [codeBuf]. *)
Definition out_inv (toks : list token) (st : compState) : Prop :=
  exists full cur,
    toks = full ++ cur /\
    (exists q, length full = (8 * q)%nat) /\
    (length cur < 8)%nat /\
    c_dst st = pack full /\
    c_mask st = 2 ^ Z.of_nat (length cur) /\
    c_codeBufPtr st = Z.of_nat (length (group_bytes cur)) /\
    holds (c_codeBuf st) (group_bytes cur).

(** The token [emitToken] writes in state [st]: the match, clamped to the
    bytes at hand, when it is longer than [threshold], else one byte. *)
Definition emitted (st : compState) : token :=
  let sp := c_sp st in
  let l := Z.min (matchLength sp) (c_dataLen st) in
  if l <=? threshold then Lit (textBuf sp (c_r st)) else Ref (matchPosition sp) l.

(** The advancing loops leave the output side alone. *)
Definition out_same (st st' : compState) : Prop :=
  c_dst st' = c_dst st /\ c_codeBuf st' = c_codeBuf st /\
  c_codeBufPtr st' = c_codeBufPtr st /\ c_mask st' = c_mask st.

(** The state at the head of the main loop when the tokens [toks] are
    written. *)
Definition head_inv (src : list byte) (toks : list token) (st : compState) : Prop :=
  enc_core src (span toks) st /\ match_part (span toks) st /\
  out_inv toks st /\ toks_ok src 0 toks /\ 0 < c_dataLen st.

(** The state at the head of the main loop after [k] iterations, while the
    loop is running. *)
Fixpoint headState (k : nat) (src : list byte) (st : compState)
    : result (option compState) :=
  match k with
  | O => Ok (Some st)
  | S k' =>
      st' <- encodeStep src st ;;
      if c_dataLen st' <=? 0 then Ok None else headState k' src st'
  end.

(** ** Further notions *)

(** [a] is an initial segment of [b]. *)
Definition is_prefix (a b : list byte) : Prop := exists c, b = a ++ c.

(** The bytes a decoder can produce from the stream [s]: the two bytes the
    ring buffer holds initially, and the bytes of [s]. *)
Definition known (s : list byte) (b : byte) : Prop :=
  b = " "%byte \/ b = x00 \/ In b s.

(** [x] and [y] agree on the [m] bytes of text from them on. *)
Definition agree (T : array byte) (x y m : Z) : Prop :=
  forall j, 0 <= j < m -> T (x + j) = T (y + j).

(** No position among [nodes] agrees with [r] on more than [ml] of the
    first [f] bytes. *)
Definition best (T : array byte) (r : Z) (nodes : Z -> Prop) (ml : Z) : Prop :=
  forall y m, nodes y -> 0 <= m <= f -> agree T y r m -> m <= ml.

(** The three bytes at source index [t] also stand [d] places before it,
    within the reach of a reference; the text before the source is the
    initial content of the ring buffer. *)
Definition repeat_at (src : list byte) (t d : Z) : Prop :=
  0 <= t /\ t + (threshold + 1) <= srcLen src /\
  1 <= d <= n - f /\ d <= t + f /\
  forall k, 0 <= k < threshold + 1 -> txt src (t - d + k) = txt src (t + k).

(** The tokens that the control word [F] of [Decompress] still announces
    before the next control byte is read: the number of set counting bits
    from bit 9 on, up to the first clear one. *)
Fixpoint ones_from (fuel : nat) (F k : Z) : Z :=
  match fuel with
  | O => 0
  | S fuel' => if Z.testbit F k then 1 + ones_from fuel' F (k + 1) else 0
  end.

Definition pending (F : Z) : Z := ones_from 7 F 9.

(** The facts on [pending] used below, as a check of one control word. *)
Definition pending_step (F : Z) : bool :=
  let F' := Z.shiftr F 1 in
  (0 <=? F') && (F' <? 65536) &&
  (if Z.land F' 256 =? 0 then pending F =? 0
   else (pending F' =? pending F - 1) && (1 <=? pending F)).

(** * Basic facts *)

(** ** Constants *)

Lemma n_val : n = 4096.
Proof. reflexivity. Qed.

Lemma f_val : f = 18.
Proof. reflexivity. Qed.

Lemma NIL_val : NIL = 4096.
Proof. reflexivity. Qed.

Lemma threshold_val : threshold = 2.
Proof. reflexivity. Qed.

Ltac consts := rewrite ?NIL_val, ?n_val, ?f_val, ?threshold_val in *.
Ltac clia := consts; lia.

Lemma land_mask (x : Z) : Z.land x (n - 1) = x mod n.
Proof.
  change (n - 1) with (Z.ones 12). rewrite Z.land_ones by lia. reflexivity.
Qed.

(** ** Bytes *)

Lemma b2z_range (b : byte) : 0 <= b2z b < 256.
Proof.
  unfold b2z. pose proof (Byte.to_N_bounded b). lia.
Qed.

Lemma z2b_b2z (b : byte) : z2b (b2z b) = b.
Proof.
  unfold z2b. pose proof (b2z_range b) as H.
  rewrite Z.mod_small by lia. unfold b2z.
  rewrite N2Z.id, Byte.of_to_N. reflexivity.
Qed.

Lemma b2z_z2b (z : Z) : b2z (z2b z) = z mod 256.
Proof.
  unfold z2b, b2z.
  pose proof (Z.mod_pos_bound z 256 ltac:(lia)) as H.
  destruct (Byte.of_N (Z.to_N (z mod 256))) eqn:E.
  - apply Byte.to_of_N in E. rewrite E. lia.
  - apply Byte.of_N_None_iff in E. lia.
Qed.

Lemma b2z_inj (a b : byte) : b2z a = b2z b -> a = b.
Proof.
  intros H. rewrite <- (z2b_b2z a), <- (z2b_b2z b), H. reflexivity.
Qed.

Lemma b2z_z2b_small (z : Z) : 0 <= z < 256 -> b2z (z2b z) = z.
Proof. intros H. rewrite b2z_z2b. apply Z.mod_small. lia. Qed.

(** ** Arrays *)

Lemma upd_eq {A : Type} (a : array A) (i : Z) (v : A) : upd a i v i = v.
Proof. unfold upd. rewrite Z.eqb_refl. reflexivity. Qed.

Lemma upd_neq {A : Type} (a : array A) (i j : Z) (v : A) :
  j <> i -> upd a i v j = a j.
Proof. intros H. unfold upd. destruct (Z.eqb_spec j i); [contradiction | reflexivity]. Qed.

Lemma inb_true (len i : Z) : 0 <= i < len -> inb len i = true.
Proof. intros H. unfold inb. apply andb_true_intro. split; [apply Z.leb_le | apply Z.ltb_lt]; lia. Qed.

Lemma aget_ok {A : Type} (len : Z) (a : array A) (i : Z) :
  0 <= i < len -> aget len a i = Ok (a i).
Proof. intros H. unfold aget. rewrite inb_true by assumption. reflexivity. Qed.

Lemma aset_ok {A : Type} (len : Z) (a : array A) (i : Z) (v : A) :
  0 <= i < len -> aset len a i v = Ok (upd a i v).
Proof. intros H. unfold aset. rewrite inb_true by assumption. reflexivity. Qed.

Lemma getL_ok sp i : 0 <= i <= n -> getL sp i = Ok (lchild sp i).
Proof. intros H. apply aget_ok. lia. Qed.

Lemma getR_ok sp i : 0 <= i <= n + 256 -> getR sp i = Ok (rchild sp i).
Proof. intros H. apply aget_ok. lia. Qed.

Lemma getP_ok sp i : 0 <= i <= n -> getP sp i = Ok (parent sp i).
Proof. intros H. apply aget_ok. lia. Qed.

Lemma getT_ok sp i : 0 <= i < n + f - 1 -> getT sp i = Ok (textBuf sp i).
Proof. intros H. apply aget_ok. lia. Qed.

Lemma getKey_ok sp r i : 0 <= i -> r + i < n + f - 1 -> getKey sp r i = Ok (textBuf sp (r + i)).
Proof. intros H1 H2. unfold getKey. rewrite inb_true by lia. reflexivity. Qed.

Lemma setL_ok sp i v : 0 <= i <= n ->
  setL sp i v = Ok (mkState (upd (lchild sp) i v) (rchild sp) (parent sp)
                            (textBuf sp) (matchPosition sp) (matchLength sp)).
Proof. intros H. unfold setL. rewrite aset_ok by lia. reflexivity. Qed.

Lemma setR_ok sp i v : 0 <= i <= n + 256 ->
  setR sp i v = Ok (mkState (lchild sp) (upd (rchild sp) i v) (parent sp)
                            (textBuf sp) (matchPosition sp) (matchLength sp)).
Proof. intros H. unfold setR. rewrite aset_ok by lia. reflexivity. Qed.

Lemma setP_ok sp i v : 0 <= i <= n ->
  setP sp i v = Ok (mkState (lchild sp) (rchild sp) (upd (parent sp) i v)
                            (textBuf sp) (matchPosition sp) (matchLength sp)).
Proof. intros H. unfold setP. rewrite aset_ok by lia. reflexivity. Qed.

Lemma setT_ok sp i v : 0 <= i < n + f - 1 ->
  setT sp i v = Ok (mkState (lchild sp) (rchild sp) (parent sp)
                            (upd (textBuf sp) i v) (matchPosition sp) (matchLength sp)).
Proof. intros H. unfold setT. rewrite aset_ok by lia. reflexivity. Qed.

(** ** The key order *)

Lemma key_lt_irrefl T x : ~ key_lt T x x.
Proof. intros (i & _ & _ & H). lia. Qed.

Lemma key_lt_trans T x y z : key_lt T x y -> key_lt T y z -> key_lt T x z.
Proof.
  intros (i1 & Hi1 & E1 & L1) (i2 & Hi2 & E2 & L2).
  destruct (Z.lt_trichotomy i1 i2) as [H | [H | H]].
  - exists i1. split; [lia |]. split.
    + intros j Hj. rewrite E1 by lia. apply E2. lia.
    + rewrite <- E2 by lia. exact L1.
  - subst i2. exists i1. split; [lia |]. split.
    + intros j Hj. rewrite E1 by lia. apply E2. lia.
    + lia.
  - exists i2. split; [lia |]. split.
    + intros j Hj. rewrite E1 by lia. apply E2. lia.
    + rewrite E1 by lia. exact L2.
Qed.

Lemma key_eq_lt_l T x y z : key_eq T x y -> key_lt T y z -> key_lt T x z.
Proof.
  intros E (i & Hi & Ei & Li). exists i. split; [lia |]. split.
  - intros j Hj. rewrite E by lia. apply Ei. lia.
  - rewrite E by lia. exact Li.
Qed.

Lemma key_eq_lt_r T x y z : key_eq T y z -> key_lt T x y -> key_lt T x z.
Proof.
  intros E (i & Hi & Ei & Li). exists i. split; [lia |]. split.
  - intros j Hj. rewrite <- E by lia. apply Ei. lia.
  - rewrite <- E by lia. exact Li.
Qed.

(** Keys that read the same bytes are ordered the same way. *)
Lemma key_lt_ext T T' x y :
  (forall j, 0 <= j < f -> T' (x + j) = T (x + j)) ->
  (forall j, 0 <= j < f -> T' (y + j) = T (y + j)) ->
  key_lt T x y -> key_lt T' x y.
Proof.
  intros Hx Hy (i & Hi & Ei & Li). exists i. split; [lia |]. split.
  - intros j Hj. rewrite Hx, Hy by lia. apply Ei. lia.
  - rewrite Hx, Hy by lia. exact Li.
Qed.

(** ** Trees and in-order lists *)

Lemma sorted_app T l1 l2 :
  sorted T (l1 ++ l2) <->
  sorted T l1 /\ sorted T l2 /\ (forall a b, In a l1 -> In b l2 -> key_lt T a b).
Proof.
  unfold sorted. induction l1 as [| a l1 IH]; simpl.
  - split.
    + intros H. repeat split; [constructor | assumption | intros ? ? []].
    + intros (_ & H & _). exact H.
  - split.
    + intros H. inversion H as [| ? ? Hs Hf]; subst.
      apply IH in Hs. destruct Hs as (S1 & S2 & S12).
      rewrite Forall_app in Hf. destruct Hf as [F1 F2].
      repeat split.
      * constructor; assumption.
      * assumption.
      * intros x b [-> | Hx] Hb.
        -- rewrite Forall_forall in F2. apply F2. exact Hb.
        -- apply S12; assumption.
    + intros (S1 & S2 & S12). inversion S1 as [| ? ? Hs Hf]; subst.
      constructor.
      * apply IH. repeat split; try assumption.
        intros x b Hx Hb. apply S12; [right |]; assumption.
      * rewrite Forall_app. split; [assumption |].
        rewrite Forall_forall. intros b Hb. apply S12; [left; reflexivity | assumption].
Qed.

Lemma sorted_cons T a l :
  sorted T (a :: l) <-> sorted T l /\ (forall b, In b l -> key_lt T a b).
Proof.
  unfold sorted. split.
  - intros H. inversion H; subst. split; [assumption |].
    rewrite <- Forall_forall. assumption.
  - intros [H1 H2]. constructor; [assumption |]. rewrite Forall_forall. assumption.
Qed.

Lemma sorted_nil T : sorted T [].
Proof. constructor. Qed.

Lemma bst_sorted T t : bst T t <-> sorted T (elems t).
Proof.
  induction t as [| l IHl x r IHr]; simpl.
  - split; [intros _; apply sorted_nil | trivial].
  - rewrite sorted_app, sorted_cons, IHl, IHr. split.
    + intros (Hl & Hr & Hlx & Hxr). repeat split; try assumption.
      intros a b Ha [-> | Hb]; [apply Hlx; assumption |].
      eapply key_lt_trans; [apply Hlx | apply Hxr]; assumption.
    + intros (Hl & (Hr & Hxr) & Hall). repeat split; try assumption.
      intros y Hy. apply Hall; [assumption | left; reflexivity].
Qed.

Lemma sorted_NoDup T l : sorted T l -> NoDup l.
Proof.
  induction l as [| a l IH]; intros H.
  - constructor.
  - apply sorted_cons in H. destruct H as [Hs Ha]. constructor.
    + intros Hin. apply (key_lt_irrefl T a). apply Ha. exact Hin.
    + apply IH. exact Hs.
Qed.

Lemma sorted_ext T T' l :
  (forall x j, In x l -> 0 <= j < f -> T' (x + j) = T (x + j)) ->
  sorted T l -> sorted T' l.
Proof.
  induction l as [| a l IH]; intros Hext H.
  - apply sorted_nil.
  - apply sorted_cons in H. destruct H as [Hs Ha]. apply sorted_cons. split.
    + apply IH; [| assumption]. intros x j Hx Hj. apply Hext; [right |]; assumption.
    + intros b Hb. apply (key_lt_ext T).
      * intros j Hj. apply Hext; [left; reflexivity | assumption].
      * intros j Hj. apply Hext; [right |]; assumption.
      * apply Ha. exact Hb.
Qed.

Lemma elems_plug C : forall t, elems (plug C t) = cleft C ++ elems t ++ cright C.
Proof.
  induction C as [| [x r | l x] C IH]; intros t; simpl.
  - rewrite app_nil_r. reflexivity.
  - rewrite IH. simpl. rewrite <- !app_assoc. reflexivity.
  - rewrite IH. simpl. rewrite <- !app_assoc. simpl. reflexivity.
Qed.

Lemma in_elems_plug C t x :
  In x (elems (plug C t)) <-> In x (elems t) \/ In x (cnodes C).
Proof.
  rewrite elems_plug. unfold cnodes. rewrite !in_app_iff. tauto.
Qed.

Lemma plug_app C1 C2 : forall t, plug (C1 ++ C2) t = plug C2 (plug C1 t).
Proof.
  induction C1 as [| [z a | a z] C1 IH]; intros t; simpl; auto.
Qed.

(** Every position of a tree is the root of a subtree in some context. *)
Lemma in_elems_split t x :
  In x (elems t) -> exists C l r, t = plug C (Node l x r).
Proof.
  induction t as [| l IHl y r IHr]; simpl; intros H.
  - contradiction.
  - apply in_app_iff in H. destruct H as [H | [H | H]].
    + destruct (IHl H) as (C & l' & r' & E).
      exists (C ++ [FL y r]), l', r'. rewrite plug_app, <- E. reflexivity.
    + subst y. exists [], l, r. reflexivity.
    + destruct (IHr H) as (C & l' & r' & E).
      exists (C ++ [FR l y]), l', r'. rewrite plug_app, <- E. reflexivity.
Qed.

(** * Pointer shapes *)

Section ShapeFacts.

Variables L R P : array Z.

Lemma hangs_plug C s0 : forall t,
  hangs L R P (plug C t) s0 <-> cshape L R P C s0 /\ hangs L R P t (hole C s0).
Proof.
  unfold hangs. induction C as [| [x r | l x] C IH]; intros t; simpl.
  - tauto.
  - rewrite IH. simpl. unfold ptr at 2. simpl. tauto.
  - rewrite IH. simpl. unfold ptr at 2. simpl. tauto.
Qed.

Lemma shape_range t par x : shape L R P t par -> In x (elems t) -> 0 <= x < n.
Proof.
  revert par. induction t as [| l IHl y r IHr]; simpl; intros par H Hin.
  - contradiction.
  - destruct H as (Hy & _ & _ & _ & Hl & Hr).
    apply in_app_iff in Hin. destruct Hin as [Hin | [-> | Hin]]; eauto.
Qed.

Lemma cshape_range C s0 x : cshape L R P C s0 -> In x (cnodes C) -> 0 <= x < n.
Proof.
  unfold cnodes. induction C as [| [y r | l y] C IH]; simpl; intros H Hin.
  - contradiction.
  - destruct H as (Hy & _ & _ & _ & Hr & HC).
    rewrite !in_app_iff in Hin. simpl in Hin. rewrite in_app_iff in Hin.
    destruct Hin as [Hin | [-> | [Hin | Hin]]]; auto.
    + apply IH; [assumption | apply in_app_iff; auto].
    + eapply shape_range; eassumption.
    + apply IH; [assumption | apply in_app_iff; auto].
  - destruct H as (Hy & _ & _ & _ & Hl & HC).
    rewrite !in_app_iff in Hin. simpl in Hin.
    destruct Hin as [[Hin | [Hin | [-> | []]]] | Hin]; auto.
    + apply IH; [assumption | apply in_app_iff; auto].
    + eapply shape_range; eassumption.
    + apply IH; [assumption | apply in_app_iff; auto].
Qed.

(** The parent of a position of a tree is the tree's own parent or a
    position of the tree. *)
Lemma shape_parent t par x :
  shape L R P t par -> In x (elems t) -> P x = par \/ In (P x) (elems t).
Proof.
  revert par. induction t as [| l IHl y r IHr]; simpl; intros par H Hin.
  - contradiction.
  - destruct H as (Hy & HP & _ & _ & Hl & Hr).
    apply in_app_iff in Hin. destruct Hin as [Hin | [-> | Hin]].
    + destruct (IHl _ Hl Hin) as [E | E].
      * right. rewrite E. apply in_app_iff. right. left. reflexivity.
      * right. apply in_app_iff. left. exact E.
    + left. exact HP.
    + destruct (IHr _ Hr Hin) as [E | E].
      * right. rewrite E. apply in_app_iff. right. left. reflexivity.
      * right. apply in_app_iff. right. right. exact E.
Qed.

Lemma shape_parent_not_NIL t par x :
  par <> NIL -> shape L R P t par -> In x (elems t) -> P x <> NIL.
Proof.
  intros Hpar H Hin. destruct (shape_parent _ _ _ H Hin) as [E | E].
  - rewrite E. exact Hpar.
  - pose proof (shape_range _ _ _ H E). unfold NIL. lia.
Qed.

End ShapeFacts.

Lemma cnodes_FL_perm y r C :
  Permutation (cnodes (FL y r :: C)) (y :: elems r ++ cnodes C).
Proof.
  unfold cnodes. simpl. rewrite <- Permutation_middle. constructor.
  rewrite !app_assoc. apply Permutation_app_tail. apply Permutation_app_comm.
Qed.

Lemma cnodes_FR_perm l y C :
  Permutation (cnodes (FR l y :: C)) (y :: elems l ++ cnodes C).
Proof.
  unfold cnodes. simpl. rewrite <- !app_assoc. simpl.
  rewrite (Permutation_app_comm (cleft C)). rewrite <- !app_assoc. simpl.
  rewrite <- Permutation_middle. constructor. apply Permutation_app_head.
  apply Permutation_app_comm.
Qed.

Lemma cnodes_cons_perm fr C :
  Permutation (cnodes (fr :: C))
    (match fr with FL y r => y :: elems r ++ cnodes C | FR l y => y :: elems l ++ cnodes C end).
Proof. destruct fr; [apply cnodes_FL_perm | apply cnodes_FR_perm]. Qed.

Lemma hole_in_cnodes fr C s0 : In (fst (hole (fr :: C) s0)) (cnodes (fr :: C)).
Proof.
  unfold cnodes. destruct fr as [y r | l y]; simpl.
  - apply in_app_iff. right. left. reflexivity.
  - rewrite !in_app_iff. left. right. right. left. reflexivity.
Qed.

Section Frame.

Variables L R P L' R' P' : array Z.

(** A shape only reads the cells of its own positions. *)
Lemma shape_frame t : forall par,
  (forall x, In x (elems t) -> L' x = L x /\ R' x = R x /\ P' x = P x) ->
  shape L R P t par -> shape L' R' P' t par.
Proof.
  induction t as [| l IHl y r IHr]; simpl; intros par Hag H.
  - exact I.
  - destruct H as (Hy & HP & HL & HR & Hl & Hr).
    destruct (Hag y) as (EL & ER & EP); [apply in_app_iff; right; left; reflexivity |].
    repeat split; try lia; try congruence.
    + apply IHl; [| assumption]. intros x Hx. apply Hag. apply in_app_iff. auto.
    + apply IHr; [| assumption]. intros x Hx. apply Hag. apply in_app_iff. right. right. exact Hx.
Qed.

(** The same subtree under a new parent: only the root's parent cell differs. *)
Lemma shape_reparent t par par' :
  (forall x, In x (elems t) -> L' x = L x /\ R' x = R x) ->
  (forall x, In x (elems t) -> x <> root_of t -> P' x = P x) ->
  (t <> Leaf -> P' (root_of t) = par') ->
  NoDup (elems t) ->
  shape L R P t par -> shape L' R' P' t par'.
Proof.
  destruct t as [| l y r]; simpl; intros Hag HagP Hroot ND H.
  - exact I.
  - destruct H as (Hy & HP & HL & HR & Hl & Hr).
    destruct (Hag y) as (EL & ER); [apply in_app_iff; right; left; reflexivity |].
    apply NoDup_remove_2 in ND.
    repeat split; try lia; try congruence.
    + apply Hroot. discriminate.
    + apply shape_frame with (2 := Hl). intros x Hx.
      assert (In x (elems l ++ y :: elems r)) as Hin by (apply in_app_iff; auto).
      destruct (Hag x Hin) as (E1 & E2). repeat split; try assumption.
      apply HagP; [assumption |]. intros ->. apply ND. apply in_app_iff. auto.
    + apply shape_frame with (2 := Hr). intros x Hx.
      assert (In x (elems l ++ y :: elems r)) as Hin by (apply in_app_iff; right; right; exact Hx).
      destruct (Hag x Hin) as (E1 & E2). repeat split; try assumption.
      apply HagP; [assumption |]. intros ->. apply ND. apply in_app_iff. auto.
Qed.

(** A context only reads the cells of its own positions, the hole's link
    cell excepted, and the cell it hangs from. *)
Lemma cshape_frame C s0 :
  NoDup (cnodes C) ->
  (forall x, In x (cnodes C) -> P' x = P x) ->
  (forall x, In x (cnodes C) -> (x, SL) <> hole C s0 -> L' x = L x) ->
  (forall x, In x (cnodes C) -> (x, SR) <> hole C s0 -> R' x = R x) ->
  (C <> [] -> ptr L' R' s0 = ptr L R s0) ->
  cshape L R P C s0 -> cshape L' R' P' C s0.
Proof.
  induction C as [| fr C IH]; intros ND HP HL HR H0 H.
  - exact I.
  - pose proof (cnodes_cons_perm fr C) as Perm.
    assert (forall x, In x (cnodes (fr :: C)) <->
              match fr with FL y r => x = y \/ In x (elems r) \/ In x (cnodes C)
                          | FR l y => x = y \/ In x (elems l) \/ In x (cnodes C) end) as Hin.
    { intros x. split; intros Hx.
      - apply (Permutation_in _ Perm) in Hx. destruct fr; simpl in Hx;
          rewrite in_app_iff in Hx; intuition auto.
      - apply (Permutation_in _ (Permutation_sym Perm)). destruct fr; simpl;
          rewrite in_app_iff; intuition auto. }
    apply (Permutation_NoDup Perm) in ND.
    assert (ptr L' R' (hole C s0) = ptr L R (hole C s0)) as Hptr.
    { destruct C as [| fr2 C2]; [apply H0; discriminate |].
      destruct fr as [y r | l y]; inversion ND as [| ? ? Hny ND']; subst;
        rewrite in_app_iff in Hny.
      - destruct fr2 as [z a | a z]; simpl; unfold ptr; simpl.
        + apply HL; [apply Hin; right; right; unfold cnodes; simpl;
                     apply in_app_iff; right; left; reflexivity |].
          intros E; inversion E; subst. apply Hny. right. unfold cnodes. simpl.
          apply in_app_iff. right. left. reflexivity.
        + apply HR; [apply Hin; right; right; unfold cnodes; simpl;
                     rewrite !in_app_iff; left; right; right; left; reflexivity |].
          simpl. discriminate.
      - destruct fr2 as [z a | a z]; simpl; unfold ptr; simpl.
        + apply HL; [apply Hin; right; right; unfold cnodes; simpl;
                     apply in_app_iff; right; left; reflexivity |].
          simpl. discriminate.
        + apply HR; [apply Hin; right; right; unfold cnodes; simpl;
                     rewrite !in_app_iff; left; right; right; left; reflexivity |].
          intros E; inversion E; subst. apply Hny. right. unfold cnodes. simpl.
          rewrite !in_app_iff. left. right. right. left. reflexivity. }
    assert (cshape L' R' P' C s0) as HC'.
    { apply IH.
      - destruct fr; inversion ND; subst; eapply NoDup_app_remove_l; eassumption.
      - intros x Hx. apply HP. apply Hin. destruct fr; auto.
      - intros x Hx _. apply HL; [apply Hin; destruct fr; auto |].
        destruct fr as [y r | l y]; simpl; [| discriminate].
        intros E; inversion E; subst. inversion ND as [| ? ? Hny ND']; subst.
        apply Hny. apply in_app_iff. auto.
      - intros x Hx _. apply HR; [apply Hin; destruct fr; auto |].
        destruct fr as [y r | l y]; simpl; [discriminate |].
        intros E; inversion E; subst. inversion ND as [| ? ? Hny ND']; subst.
        apply Hny. apply in_app_iff. auto.
      - intros _. apply H0. discriminate.
      - destruct fr; simpl in H; tauto. }
    destruct fr as [y r | l y]; cbn [cshape] in H |- *;
      destruct H as (Hy & HPy & Hp & Hc & Hsh & _);
      apply NoDup_cons_iff in ND; destruct ND as [Hny ND']; rewrite in_app_iff in Hny.
    + repeat split; try lia; try assumption.
      * rewrite HP; [assumption | apply Hin; auto].
      * rewrite HR; [assumption | apply Hin; auto | discriminate].
      * apply shape_frame; [| assumption]. intros x Hx.
        assert (x <> y) by (intros ->; tauto).
        repeat split.
        -- apply HL; [apply Hin; auto | intros E; inversion E; contradiction].
        -- apply HR; [apply Hin; auto | discriminate].
        -- apply HP. apply Hin. auto.
    + repeat split; try lia; try assumption.
      * rewrite HP; [assumption | apply Hin; auto].
      * rewrite HL; [assumption | apply Hin; auto | discriminate].
      * apply shape_frame; [| assumption]. intros x Hx.
        assert (x <> y) by (intros ->; tauto).
        repeat split.
        -- apply HL; [apply Hin; auto | discriminate].
        -- apply HR; [apply Hin; auto | intros E; inversion E; contradiction].
        -- apply HP. apply Hin. auto.
Qed.

(** The same context hanging from another cell [s0']: the parent cell of
    its outermost position is the only parent cell that differs. *)
Lemma cshape_rebase C s0 s0' :
  NoDup (cnodes C) -> ~ In (fst s0) (cnodes C) ->
  (forall x, In x (cnodes C) -> P x <> fst s0 -> P' x = P x) ->
  (forall x, In x (cnodes C) -> P x = fst s0 -> P' x = fst s0') ->
  (forall x, In x (cnodes C) -> (x, SL) <> hole C s0 -> L' x = L x) ->
  (forall x, In x (cnodes C) -> (x, SR) <> hole C s0 -> R' x = R x) ->
  (C <> [] -> ptr L' R' s0' = ptr L R s0) ->
  cshape L R P C s0 -> cshape L' R' P' C s0'.
Proof.
  induction C as [| fr C IH]; intros ND Hs0 HP HP0 HL HR H0 H.
  - exact I.
  - pose proof (cnodes_cons_perm fr C) as Perm.
    assert (forall x, In x (cnodes (fr :: C)) <->
              match fr with FL y r => x = y \/ In x (elems r) \/ In x (cnodes C)
                          | FR l y => x = y \/ In x (elems l) \/ In x (cnodes C) end) as Hin.
    { intros x. split; intros Hx.
      - apply (Permutation_in _ Perm) in Hx. destruct fr; simpl in Hx;
          rewrite in_app_iff in Hx; intuition auto.
      - apply (Permutation_in _ (Permutation_sym Perm)). destruct fr; simpl;
          rewrite in_app_iff; intuition auto. }
    apply (Permutation_NoDup Perm) in ND.
    assert (cshape L R P C s0) as HCold by (destruct fr; simpl in H; tauto).
    assert (forall x, In x (cnodes C) -> In x (cnodes (fr :: C))) as Hsub
      by (intros x Hx; apply Hin; destruct fr; auto).
    assert (ptr L' R' (hole C s0') = ptr L R (hole C s0) /\
            (C <> [] -> hole C s0' = hole C s0)) as [Hptr Hhole].
    { destruct C as [| fr2 C2]; [split; [apply H0; discriminate | congruence] |].
      split; [| reflexivity].
      destruct fr as [y r | l y]; apply NoDup_cons_iff in ND; destruct ND as [Hny ND'];
        rewrite in_app_iff in Hny.
      - destruct fr2 as [z a | a z]; simpl; unfold ptr; simpl.
        + apply HL; [apply Hin; right; right; unfold cnodes; simpl;
                     apply in_app_iff; right; left; reflexivity |].
          intros E; inversion E; subst. apply Hny. right. unfold cnodes. simpl.
          apply in_app_iff. right. left. reflexivity.
        + apply HR; [apply Hin; right; right; unfold cnodes; simpl;
                     rewrite !in_app_iff; left; right; right; left; reflexivity |].
          simpl. discriminate.
      - destruct fr2 as [z a | a z]; simpl; unfold ptr; simpl.
        + apply HL; [apply Hin; right; right; unfold cnodes; simpl;
                     apply in_app_iff; right; left; reflexivity |].
          simpl. discriminate.
        + apply HR; [apply Hin; right; right; unfold cnodes; simpl;
                     rewrite !in_app_iff; left; right; right; left; reflexivity |].
          intros E; inversion E; subst. apply Hny. right. unfold cnodes. simpl.
          rewrite !in_app_iff. left. right. right. left. reflexivity. }
    assert (cshape L' R' P' C s0') as HC'.
    { apply IH; try assumption.
      - destruct fr; apply NoDup_cons_iff in ND; destruct ND as [_ ND];
          eapply NoDup_app_remove_l; eassumption.
      - intros Hx. apply Hs0. auto.
      - intros x Hx. apply HP. auto.
      - intros x Hx. apply HP0. auto.
      - intros x Hx _. apply HL; [auto |].
        destruct fr as [y r | l y]; simpl; [| discriminate].
        intros E; inversion E; subst. apply NoDup_cons_iff in ND. destruct ND as [Hny _].
        apply Hny. apply in_app_iff. auto.
      - intros x Hx _. apply HR; [auto |].
        destruct fr as [y r | l y]; simpl; [discriminate |].
        intros E; inversion E; subst. apply NoDup_cons_iff in ND. destruct ND as [Hny _].
        apply Hny. apply in_app_iff. auto.
      - intros _. apply H0. discriminate. }
    (* the parent cell of the frame's own position *)
    assert (forall y, In y (cnodes (fr :: C)) -> P y = fst (hole C s0) ->
              P' y = fst (hole C s0')) as HPy.
    { intros y Hy Ey. destruct C as [| fr2 C2].
      - simpl in *. apply HP0; assumption.
      - rewrite Hhole by discriminate. rewrite <- Ey. apply HP; [assumption |].
        rewrite Ey. intros E. apply Hs0. rewrite <- E. apply Hsub.
        apply hole_in_cnodes. }
    (* the cells of a sibling subtree *)
    assert (forall t y, shape L R P t y -> In y (cnodes (fr :: C)) ->
              (forall z, In z (elems t) -> In z (cnodes (fr :: C))) ->
              forall z, In z (elems t) -> P' z = P z) as HPsib.
    { intros t y Hsh Hy Ht z Hz. apply HP; [auto |].
      destruct (shape_parent L R P _ _ _ Hsh Hz) as [E | E].
      - rewrite E. intros E'. apply Hs0. rewrite <- E'. exact Hy.
      - intros E'. apply Hs0. rewrite <- E'. apply Ht. exact E. }
    destruct fr as [y r | l y]; cbn [cshape] in H |- *;
      destruct H as (Hy & HPy' & Hp & Hc & Hsh & _);
      apply NoDup_cons_iff in ND; destruct ND as [Hny ND']; rewrite in_app_iff in Hny.
    + split; [lia |]. split; [apply HPy; [apply Hin; auto | assumption] |].
      split; [rewrite Hptr; assumption |].
      split; [rewrite HR; [assumption | apply Hin; auto | discriminate] |].
      split; [| assumption].
      apply shape_frame; [| assumption]. intros x Hx.
      assert (x <> y) by (intros ->; tauto).
      repeat split.
      * apply HL; [apply Hin; auto | intros E; inversion E; contradiction].
      * apply HR; [apply Hin; auto | discriminate].
      * apply (HPsib r y); try assumption; [apply Hin; auto |].
        intros z Hz. apply Hin. auto.
    + split; [lia |]. split; [apply HPy; [apply Hin; auto | assumption] |].
      split; [rewrite Hptr; assumption |].
      split; [rewrite HL; [assumption | apply Hin; auto | discriminate] |].
      split; [| assumption].
      apply shape_frame; [| assumption]. intros x Hx.
      assert (x <> y) by (intros ->; tauto).
      repeat split.
      * apply HL; [apply Hin; auto | discriminate].
      * apply HR; [apply Hin; auto | intros E; inversion E; contradiction].
      * apply (HPsib l y); try assumption; [apply Hin; auto |].
        intros z Hz. apply Hin. auto.
Qed.

End Frame.

(** * The descent of [insertNode] *)

(** ** Lists without repetition, sorted lists *)

Lemma NoDup_app_iff {A : Type} (l1 l2 : list A) :
  NoDup (l1 ++ l2) <-> NoDup l1 /\ NoDup l2 /\ (forall a, In a l1 -> ~ In a l2).
Proof.
  split.
  - intros H. split; [eapply NoDup_app_remove_r; eassumption |].
    split; [eapply NoDup_app_remove_l; eassumption |].
    induction l1 as [| b l1 IH]; simpl; intros a Ha; [contradiction |].
    simpl in H. apply NoDup_cons_iff in H. destruct H as [Hb H].
    destruct Ha as [-> | Ha].
    + intros Hin. apply Hb. apply in_app_iff. auto.
    + apply IH; assumption.
  - intros (H1 & H2 & H3). apply NoDup_app; assumption.
Qed.

Lemma sorted_replace T r x l1 l2 :
  key_eq T r x -> sorted T (l1 ++ x :: l2) -> sorted T (l1 ++ r :: l2).
Proof.
  intros E H. apply sorted_app in H. destruct H as (H1 & H2 & H12).
  apply sorted_cons in H2. destruct H2 as (H2 & Hx).
  apply sorted_app. split; [assumption |]. split.
  - apply sorted_cons. split; [assumption |].
    intros b Hb. eapply key_eq_lt_l; [exact E | apply Hx; assumption].
  - intros a b Ha [<- | Hb].
    + eapply key_eq_lt_r; [| apply H12; [exact Ha | left; reflexivity]].
      intros j Hj. symmetry. apply E. exact Hj.
    + apply H12; [assumption | right; assumption].
Qed.

Lemma sorted_insert T r l1 l2 :
  (forall y, In y l1 -> key_lt T y r) -> (forall y, In y l2 -> key_lt T r y) ->
  sorted T (l1 ++ l2) -> sorted T (l1 ++ r :: l2).
Proof.
  intros Hl Hr H. apply sorted_app in H. destruct H as (H1 & H2 & H12).
  apply sorted_app. split; [assumption |]. split.
  - apply sorted_cons. split; assumption.
  - intros a b Ha [<- | Hb]; [apply Hl | apply H12]; assumption.
Qed.

Lemma sorted_remove T x l1 l2 :
  sorted T (l1 ++ x :: l2) -> sorted T (l1 ++ l2).
Proof.
  intros H. apply sorted_app in H. destruct H as (H1 & H2 & H12).
  apply sorted_cons in H2. destruct H2 as (H2 & Hx).
  apply sorted_app. split; [assumption |]. split; [assumption |].
  intros a b Ha Hb. apply H12; [assumption | right; assumption].
Qed.

Lemma root_of_cases t : t = Leaf /\ root_of t = NIL \/ In (root_of t) (elems t).
Proof.
  destruct t as [| l x r]; simpl; [left; split; reflexivity |].
  right. apply in_app_iff. right. left. reflexivity.
Qed.

Lemma ptr_side L R p cmp :
  ptr L R (p, side_of_cmp cmp) = if cmp >=? 0 then R p else L p.
Proof. unfold ptr, side_of_cmp. simpl. destruct (cmp >=? 0); reflexivity. Qed.

Lemma hole_range L R P C s0 :
  n < fst s0 <= n + 256 -> snd s0 = SR -> cshape L R P C s0 ->
  0 <= fst (hole C s0) <= n + 256 /\ fst (hole C s0) <> NIL /\
  (snd (hole C s0) = SL -> fst (hole C s0) < n).
Proof.
  intros H1 H2 H. destruct C as [| [x r | l x] C]; simpl in *.
  - split; [clia |]. split; [clia |]. intros E. rewrite H2 in E. discriminate.
  - destruct H as (Hx & _). split; [clia |]. split; [clia |]. intros _. lia.
  - destruct H as (Hx & _). split; [clia |]. split; [clia |]. intros _. lia.
Qed.

(** ** The comparison loop *)

Lemma cmpLoop_spec sp r p : 0 <= r < n -> 0 <= p < n ->
  forall fuel i cmp,
  1 <= i <= f -> (Z.to_nat (f - i) < fuel)%nat ->
  (forall j, 1 <= j < i -> textBuf sp (r + j) = textBuf sp (p + j)) ->
  exists i' cmp', cmpLoop fuel sp r p i cmp = Ok (i', cmp') /\
    i <= i' <= f /\
    (forall j, 1 <= j < i' -> textBuf sp (r + j) = textBuf sp (p + j)) /\
    (i' < f -> cmp' = b2z (textBuf sp (r + i')) - b2z (textBuf sp (p + i')) /\ cmp' <> 0).
Proof.
  intros Hr Hp. induction fuel as [| fuel IH]; intros i cmp Hi Hfuel Heq.
  - lia.
  - simpl. destruct (Z.ltb_spec i f) as [Hlt | Hge].
    + rewrite getKey_ok by clia. rewrite getT_ok by clia. cbn [bind].
      destruct (Z.eqb_spec (b2z (textBuf sp (r + i)) - b2z (textBuf sp (p + i))) 0) as [E | E];
        cbn [negb].
      * destruct (IH (i + 1) (b2z (textBuf sp (r + i)) - b2z (textBuf sp (p + i))))
          as (i' & cmp' & Hrun & Hi' & Heq' & Hcmp').
        -- lia.
        -- lia.
        -- intros j Hj. destruct (Z.eq_dec j i) as [-> | Hne].
           ++ apply b2z_inj. lia.
           ++ apply Heq. lia.
        -- exists i', cmp'. repeat split; try assumption; lia.
      * exists i, (b2z (textBuf sp (r + i)) - b2z (textBuf sp (p + i))).
        repeat split; try assumption; lia.
    + exists i, cmp. repeat split; try assumption; lia.
Qed.

(** ** The descent loop *)

Lemma key_lt_of_cmp T r x i :
  0 <= i < f -> T x = T r ->
  (forall j, 1 <= j < i -> T (r + j) = T (x + j)) ->
  (b2z (T (r + i)) - b2z (T (x + i)) > 0 -> key_lt T x r) /\
  (b2z (T (r + i)) - b2z (T (x + i)) < 0 -> key_lt T r x).
Proof.
  intros Hi H0 Heq.
  assert (forall j, 0 <= j < i -> T (r + j) = T (x + j)) as Heq'.
  { intros j Hj. destruct (Z.eq_dec j 0) as [-> | Hne].
    - rewrite !Z.add_0_r. symmetry. exact H0.
    - apply Heq. lia. }
  split; intros Hc; exists i; (split; [lia |]); split; try lia.
  - intros j Hj. symmetry. apply Heq'. exact Hj.
  - exact Heq'.
Qed.

(** Positions whose text differs from that of [r] at byte [i], or that lie
    beyond such a position in the key order, agree with [r] on at most [i]
    bytes. *)
Lemma agree_mismatch T r x i m :
  0 <= i -> (forall j, 0 <= j < i -> T (r + j) = T (x + j)) ->
  T (r + i) <> T (x + i) -> agree T x r m -> m <= i.
Proof.
  intros Hi Heq Hne Ha. destruct (Z_le_gt_dec m i) as [H | H]; [exact H |].
  exfalso. apply Hne. symmetry. apply Ha. lia.
Qed.

Lemma agree_below T r x y i m :
  0 <= i -> (forall j, 0 <= j < i -> T (r + j) = T (x + j)) ->
  b2z (T (x + i)) < b2z (T (r + i)) -> key_lt T y x -> agree T y r m -> m <= i.
Proof.
  intros Hi Heq Hlt (i0 & Hi0 & E0 & L0) Ha.
  destruct (Z_le_gt_dec m i) as [H | H]; [exact H |]. exfalso.
  assert (Hy : forall j, 0 <= j <= i -> T (y + j) = T (r + j)) by (intros j Hj; apply Ha; lia).
  destruct (Z_lt_le_dec i0 i) as [H1 | H1].
  - rewrite Hy, Heq in L0 by lia. lia.
  - destruct (Z.eq_dec i0 i) as [-> | H2].
    + rewrite Hy in L0 by lia. lia.
    + rewrite <- E0, Hy in Hlt by lia. lia.
Qed.

Lemma agree_above T r x y i m :
  0 <= i -> (forall j, 0 <= j < i -> T (r + j) = T (x + j)) ->
  b2z (T (r + i)) < b2z (T (x + i)) -> key_lt T x y -> agree T y r m -> m <= i.
Proof.
  intros Hi Heq Hlt (i0 & Hi0 & E0 & L0) Ha.
  destruct (Z_le_gt_dec m i) as [H | H]; [exact H |]. exfalso.
  assert (Hy : forall j, 0 <= j <= i -> T (y + j) = T (r + j)) by (intros j Hj; apply Ha; lia).
  destruct (Z_lt_le_dec i0 i) as [H1 | H1].
  - rewrite Hy, Heq in L0 by lia. lia.
  - destruct (Z.eq_dec i0 i) as [-> | H2].
    + rewrite Hy in L0 by lia. lia.
    + rewrite E0, Hy in Hlt by lia. lia.
Qed.

Section InsertLoop.

Variables (L R P : array Z) (T : array byte) (r : Z) (w : tree) (s0 : slot).
Hypothesis Hr : 0 <= r < n.
Hypothesis Hs0 : n < fst s0 <= n + 256.
Hypothesis Hs0' : snd s0 = SR.
Hypothesis Hw : hangs L R P w s0.
Hypothesis Hsorted : sorted T (elems w).
Hypothesis Hfirst : forall x, In x (elems w) -> T x = T r.

Lemma insertLoop_spec : forall sub C fuel sp cmp,
  plug C sub = w ->
  arrays_are sp L R P T ->
  snd (hole C s0) = side_of_cmp cmp ->
  (forall y, In y (cleft C) -> key_lt T y r) ->
  (forall y, In y (cright C) -> key_lt T r y) ->
  match_ok T r (fun y => In y (elems w)) sp -> matchLength sp < f ->
  best T r (fun y => In y (cnodes C)) (matchLength sp) ->
  (height sub < fuel)%nat ->
  exists d, insertLoop fuel sp r (fst (hole C s0)) cmp = Ok d /\
    match d with
    | Returned sp' =>
        exists C', plug C' Leaf = w /\
          (forall y, In y (cleft C') -> key_lt T y r) /\
          (forall y, In y (cright C') -> key_lt T r y) /\
          arrays_are sp'
            (match snd (hole C' s0) with SL => upd L (fst (hole C' s0)) r | SR => L end)
            (match snd (hole C' s0) with SR => upd R (fst (hole C' s0)) r | SL => R end)
            (upd P r (fst (hole C' s0))) T /\
          match_ok T r (fun y => In y (elems w)) sp' /\ matchLength sp' < f /\
          best T r (fun y => In y (elems w)) (matchLength sp')
    | Broke sp' x =>
        exists C' l rt, plug C' (Node l x rt) = w /\ key_eq T r x /\
          arrays_are sp' L R P T /\ matchPosition sp' = x /\ matchLength sp' = f
    end.
Proof.
  induction sub as [| l IHl x rt IHrt];
    intros C fuel sp cmp Hplug Harr Hside Hcl Hcr Hm Hml Hb Hfuel.
  - (* the link is absent: splice r in *)
    destruct fuel as [| fuel]; [simpl in Hfuel; lia |].
    pose proof Hw as Hw'. rewrite <- Hplug in Hw'. apply hangs_plug in Hw'.
    destruct Hw' as (HC & Hptr & _). simpl in Hptr.
    destruct (hole_range _ _ _ _ _ Hs0 Hs0' HC) as (Hrange & Hnil & Hleft).
    destruct Harr as (EL & ER & EP & ET).
    destruct (hole C s0) as [hp sd] eqn:Eh. cbn [fst snd] in *. subst sd.
    rewrite ptr_side in Hptr. unfold side_of_cmp in *. cbn [insertLoop].
    destruct (cmp >=? 0) eqn:Ecmp.
    + rewrite getR_ok by clia. cbn [bind]. rewrite ER, Hptr, Z.eqb_refl. cbn [negb].
      rewrite setR_ok by clia. cbn [bind]. rewrite setP_ok by clia. cbn [bind].
      eexists. split; [reflexivity |]. exists C. rewrite Eh. cbn [fst snd].
      split; [assumption |]. split; [assumption |]. split; [assumption |].
      split; [| split; [exact Hm | split; [exact Hml |]]].
      * unfold arrays_are. cbn. rewrite ?EL, ?ER, ?EP, ?ET. auto.
      * intros y m Hy Hm0 Ha. refine (Hb y m _ Hm0 Ha).
        rewrite <- Hplug in Hy. apply in_elems_plug in Hy. destruct Hy as [[] | Hy]. exact Hy.
    + specialize (Hleft eq_refl).
      rewrite getL_ok by clia. cbn [bind]. rewrite EL, Hptr, Z.eqb_refl. cbn [negb].
      rewrite setL_ok by clia. cbn [bind]. rewrite setP_ok by clia. cbn [bind].
      eexists. split; [reflexivity |]. exists C. rewrite Eh. cbn [fst snd].
      split; [assumption |]. split; [assumption |]. split; [assumption |].
      split; [| split; [exact Hm | split; [exact Hml |]]].
      * unfold arrays_are. cbn. rewrite ?EL, ?ER, ?EP, ?ET. auto.
      * intros y m Hy Hm0 Ha. refine (Hb y m _ Hm0 Ha).
        rewrite <- Hplug in Hy. apply in_elems_plug in Hy. destruct Hy as [[] | Hy]. exact Hy.
  - (* a node x: compare and go on, or stop on a full match *)
    destruct fuel as [| fuel]; [simpl in Hfuel; lia |].
    pose proof Hw as Hw'. rewrite <- Hplug in Hw'. apply hangs_plug in Hw'.
    destruct Hw' as (HC & Hptr & Hsh). simpl in Hptr.
    destruct Hsh as (Hx & HPx & HLx & HRx & Hshl & Hshr).
    destruct (hole_range _ _ _ _ _ Hs0 Hs0' HC) as (Hrange & Hnil & Hleft).
    pose proof Harr as (EL & ER & EP & ET).
    assert (In x (elems w)) as Hxw.
    { rewrite <- Hplug. apply in_elems_plug. left. simpl. apply in_app_iff. right. left. reflexivity. }
    pose proof (Hfirst _ Hxw) as Hx0.
    pose proof Hsorted as Hs. rewrite <- Hplug, elems_plug in Hs. simpl in Hs.
    apply sorted_app in Hs. destruct Hs as (_ & Hs & _).
    apply sorted_app in Hs. destruct Hs as (Hs & _ & _).
    apply sorted_app in Hs. destruct Hs as (_ & Hs & Hlx).
    apply sorted_cons in Hs. destruct Hs as (_ & Hxr).
    assert (exists c, (if cmp >=? 0 then getR sp (fst (hole C s0)) else getL sp (fst (hole C s0))) = Ok c /\ c = x)
      as (c & Hc & ->).
    { destruct (hole C s0) as [hp sd] eqn:Eh. cbn [fst snd] in *. subst sd.
      rewrite ptr_side in Hptr. unfold side_of_cmp in *.
      destruct (cmp >=? 0) eqn:Ecmp.
      - rewrite getR_ok by clia. eexists. split; [reflexivity | congruence].
      - specialize (Hleft eq_refl). rewrite getL_ok by clia.
        eexists. split; [reflexivity | congruence]. }
    cbn [insertLoop]. rewrite Hc. cbn [bind].
    destruct (Z.eqb_spec x NIL) as [E | _]; [clia |]. cbn [negb].
    destruct (cmpLoop_spec sp r x Hr Hx (Z.to_nat f) 1 cmp) as (i & cmp' & Hrun & Hi & Heq & Hcmp).
    { clia. } { clia. } { intros j Hj. lia. }
    rewrite Hrun. cbn [bind]. rewrite ET in Heq, Hcmp.
    (* a full match breaks out *)
    destruct (Z.eq_dec i f) as [Hif | Hif].
    { subst i. destruct (Z.gtb_spec f (matchLength sp)) as [_ | H]; [| lia].
      cbn [setMatch matchLength]. destruct (Z.geb_spec f f) as [_ | H]; [| lia].
      eexists. split; [reflexivity |]. exists C, l, rt. split; [assumption |]. split.
      - intros j Hj. destruct (Z.eq_dec j 0) as [-> | Hne].
        + rewrite !Z.add_0_r. symmetry. exact Hx0.
        + apply Heq. lia.
      - unfold arrays_are. cbn. repeat split; assumption. }
    destruct Hcmp as (Hcmp & Hcmp0); [lia |].
    destruct (key_lt_of_cmp T r x i ltac:(lia) Hx0 Heq) as (Hgt & Hlt).
    rewrite <- Hcmp in Hgt, Hlt.
    (* the state handed to the next iteration *)
    assert (exists sp2, (if i >? matchLength sp
                         then (if matchLength (setMatch sp x i) >=? f
                               then Ok (Broke (setMatch sp x i) x)
                               else insertLoop fuel (setMatch sp x i) r x cmp')
                         else insertLoop fuel sp r x cmp') = insertLoop fuel sp2 r x cmp' /\
             arrays_are sp2 L R P T /\ match_ok T r (fun y => In y (elems w)) sp2 /\ matchLength sp2 < f /\
             matchLength sp <= matchLength sp2 /\ i <= matchLength sp2)
      as (sp2 & -> & Harr2 & Hm2 & Hml2 & Hmono & Hi2).
    { destruct (Z.gtb_spec i (matchLength sp)) as [Hgtm | Hlem].
      - cbn [setMatch matchLength]. destruct (Z.geb_spec i f) as [H | _]; [lia |].
        exists (setMatch sp x i). split; [reflexivity |]. split; [exact Harr |].
        split; [| cbn; lia]. split; [cbn; lia |]. cbn. intros _. split; [assumption |].
        intros j Hj. destruct (Z.eq_dec j 0) as [-> | Hne].
        + rewrite !Z.add_0_r. exact Hx0.
        + symmetry. apply Heq. lia.
      - exists sp. split; [reflexivity |]. split; [exact Harr |]. split; [exact Hm |].
        split; [exact Hml | lia]. }
    assert (Heq0 : forall j, 0 <= j < i -> T (r + j) = T (x + j)).
    { intros j Hj. destruct (Z.eq_dec j 0) as [-> | Hne].
      - rewrite !Z.add_0_r. symmetry. exact Hx0.
      - apply Heq. lia. }
    destruct (Z.geb_spec cmp' 0) as [Hpos | Hneg].
    + (* right *)
      apply (IHrt (FR l x :: C) fuel sp2 cmp'); try assumption.
      * unfold side_of_cmp. simpl. destruct (Z.geb_spec cmp' 0); [reflexivity | lia].
      * simpl. intros y Hy. rewrite !in_app_iff in Hy. simpl in Hy.
        destruct Hy as [Hy | [Hy | [<- | []]]].
        -- apply Hcl. exact Hy.
        -- eapply key_lt_trans; [apply Hlx; [exact Hy | left; reflexivity] |]. apply Hgt. lia.
        -- apply Hgt. lia.
      * intros y m Hy Hm0 Ha. unfold cnodes in Hy. cbn [cleft cright] in Hy.
        rewrite !in_app_iff in Hy. cbn [In] in Hy.
        destruct Hy as [[Hy | [Hy | [<- | []]]] | Hy].
        -- specialize (Hb y m ltac:(unfold cnodes; apply in_app_iff; auto) Hm0 Ha). lia.
        -- assert (m <= i); [| lia].
           apply (agree_below T r x y i m); try assumption; try lia.
           apply Hlx; [exact Hy | left; reflexivity].
        -- assert (m <= i); [| lia].
           apply (agree_mismatch T r x i m); try assumption; try lia.
           intros E. rewrite E in Hcmp. lia.
        -- specialize (Hb y m ltac:(unfold cnodes; apply in_app_iff; auto) Hm0 Ha). lia.
      * simpl in Hfuel. lia.
    + (* left *)
      apply (IHl (FL x rt :: C) fuel sp2 cmp'); try assumption.
      * unfold side_of_cmp. simpl. destruct (Z.geb_spec cmp' 0); [lia | reflexivity].
      * simpl. intros y [<- | Hy].
        -- apply Hlt. lia.
        -- apply in_app_iff in Hy. destruct Hy as [Hy | Hy].
           ++ eapply key_lt_trans; [apply Hlt; lia | apply Hxr; exact Hy].
           ++ apply Hcr. exact Hy.
      * intros y m Hy Hm0 Ha. unfold cnodes in Hy. cbn [cleft cright] in Hy.
        rewrite !in_app_iff in Hy. cbn [In] in Hy. rewrite in_app_iff in Hy.
        destruct Hy as [Hy | [<- | [Hy | Hy]]].
        -- specialize (Hb y m ltac:(unfold cnodes; apply in_app_iff; auto) Hm0 Ha). lia.
        -- assert (m <= i); [| lia].
           apply (agree_mismatch T r x i m); try assumption; try lia.
           intros E. rewrite E in Hcmp. lia.
        -- assert (m <= i); [| lia].
           apply (agree_above T r x y i m); try assumption; try lia.
           apply Hxr. exact Hy.
        -- specialize (Hb y m ltac:(unfold cnodes; apply in_app_iff; auto) Hm0 Ha). lia.
      * simpl in Hfuel. lia.
Qed.

End InsertLoop.

(** * The forest invariant under [insertNode] *)

(** ** Facts about a forest *)

Lemma tree_ok_NoDup sp c t : tree_ok sp c t -> NoDup (elems t).
Proof.
  intros (_ & Hb & _). apply bst_sorted in Hb. eapply sorted_NoDup. exact Hb.
Qed.

Lemma held_facts sp fo c x :
  forest_ok sp fo -> 0 <= c < 256 -> In x (elems (fo c)) ->
  0 <= x < n /\ b2z (textBuf sp x) = c /\ parent sp x <> NIL.
Proof.
  intros [Ht _] Hc Hx. destruct (Ht c Hc) as ((_ & Hsh) & _ & Hfirst). cbn [fst] in Hsh.
  split; [eapply shape_range; eassumption |]. split; [apply Hfirst; assumption |].
  eapply shape_parent_not_NIL; [| eassumption | assumption]. clia.
Qed.

Lemma not_live_not_held sp fo c x :
  forest_ok sp fo -> 0 <= c < 256 -> parent sp x = NIL -> ~ In x (elems (fo c)).
Proof.
  intros H Hc Hp Hx. destruct (held_facts _ _ _ _ H Hc Hx) as (_ & _ & Hne). contradiction.
Qed.

Lemma live_held sp fo p :
  forest_ok sp fo -> 0 <= p < n -> parent sp p <> NIL -> held fo p.
Proof.
  intros [_ Hl] Hp Hne. exists (b2z (textBuf sp p)). split; [apply b2z_range | auto].
Qed.

(** Replacing one tree of the forest. *)
Lemma forest_update sp sp' fo c t' :
  forest_ok sp fo -> 0 <= c < 256 ->
  textBuf sp' = textBuf sp ->
  tree_ok sp' c t' ->
  (forall x, 0 <= x < n -> ~ In x (elems (fo c)) -> parent sp x <> NIL ->
     lchild sp' x = lchild sp x /\ rchild sp' x = rchild sp x /\ parent sp' x = parent sp x) ->
  (forall c', 0 <= c' < 256 -> c' <> c -> rchild sp' (n + 1 + c') = rchild sp (n + 1 + c')) ->
  (forall p, 0 <= p < n -> parent sp' p <> NIL ->
     In p (elems t') \/ (parent sp p <> NIL /\ ~ In p (elems (fo c)))) ->
  forest_ok sp' (fupd fo c t').
Proof.
  intros Hf Hc HT Ht' Hframe Hroots Hlive. split.
  - intros c' Hc'. unfold fupd. destruct (Z.eqb_spec c' c) as [-> | Hne]; [exact Ht' |].
    destruct Hf as [Htrees _]. destruct (Htrees c' Hc') as ((Hptr & Hsh) & Hb & Hfirst).
    cbn [fst] in Hsh. unfold ptr in Hptr. cbn [fst snd] in Hptr.
    split; [| split].
    + split.
      * unfold ptr. cbn [fst snd]. rewrite Hroots by assumption. exact Hptr.
      * cbn [fst]. apply (shape_frame (lchild sp) (rchild sp) (parent sp)); [| exact Hsh].
        intros x Hx. apply Hframe.
        -- eapply shape_range; eassumption.
        -- intros Hxc. destruct (Htrees c Hc) as (_ & _ & Hfc).
           apply Hfc in Hxc. apply Hfirst in Hx. congruence.
        -- eapply shape_parent_not_NIL; [| eassumption | assumption]. clia.
    + rewrite HT. exact Hb.
    + rewrite HT. exact Hfirst.
  - intros p Hp Hne. unfold fupd. destruct (Hlive p Hp Hne) as [Hin | [Hold Hnin]].
    + destruct Ht' as (_ & _ & Hfirst). rewrite (Hfirst p Hin), Z.eqb_refl. exact Hin.
    + rewrite HT. destruct Hf as [_ Hl]. pose proof (Hl p Hp Hold) as Hheld.
      destruct (Z.eqb_spec (b2z (textBuf sp p)) c) as [E | E]; [| exact Hheld].
      rewrite E in Hheld. contradiction.
Qed.

(** What the absence of repetitions says about a node in a context. *)
Lemma nodup_plug_node C l x r :
  NoDup (elems (plug C (Node l x r))) ->
  NoDup (cnodes C) /\ NoDup (elems l) /\ NoDup (elems r) /\
  ~ In x (cnodes C) /\ ~ In x (elems l) /\ ~ In x (elems r) /\
  (forall z, In z (elems l) -> ~ In z (elems r)) /\
  (forall z, In z (elems l) -> ~ In z (cnodes C)) /\
  (forall z, In z (elems r) -> ~ In z (cnodes C)).
Proof.
  rewrite elems_plug. simpl. unfold cnodes. intros H.
  apply NoDup_app_iff in H. destruct H as (H1 & H2 & H12).
  apply NoDup_app_iff in H2. destruct H2 as (H2 & H3 & H23).
  apply NoDup_app_iff in H2. destruct H2 as (H4 & H5 & H45).
  apply NoDup_cons_iff in H5. destruct H5 as (H5 & H6).
  split; [| split; [assumption | split; [assumption |]]].
  - apply NoDup_app; try assumption. intros a Ha Hb. apply (H12 a Ha).
    rewrite !in_app_iff. auto.
  - repeat split.
    + rewrite in_app_iff. intros [Hx | Hx].
      * apply (H12 x Hx). rewrite !in_app_iff. simpl. auto.
      * apply (H23 x); [| assumption]. rewrite in_app_iff. simpl. auto.
    + intros Hx. apply (H45 x Hx). left. reflexivity.
    + assumption.
    + intros z Hz Hz'. apply (H45 z Hz). right. assumption.
    + intros z Hz. rewrite in_app_iff. intros [Hx | Hx].
      * apply (H12 z Hx). rewrite !in_app_iff. auto.
      * apply (H23 z); [| assumption]. rewrite in_app_iff. auto.
    + intros z Hz. rewrite in_app_iff. intros [Hx | Hx].
      * apply (H12 z Hx). rewrite !in_app_iff. simpl. auto.
      * apply (H23 z); [| assumption]. rewrite in_app_iff. simpl. auto.
Qed.

Lemma nodup_plug_leaf C : NoDup (elems (plug C Leaf)) -> NoDup (cnodes C).
Proof. rewrite elems_plug. simpl. auto. Qed.

Lemma hole_node_in_cnodes C s0 :
  C <> [] -> In (fst (hole C s0)) (cnodes C).
Proof.
  unfold cnodes. destruct C as [| [x r | l x] C]; simpl; intros H.
  - contradiction.
  - apply in_app_iff. right. left. reflexivity.
  - rewrite !in_app_iff. left. right. right. left. reflexivity.
Qed.

(** The hole cell is the cell the tree hangs from, or a cell of the context. *)
Lemma hole_cases C s0 :
  C = [] /\ hole C s0 = s0 \/ C <> [] /\ In (fst (hole C s0)) (cnodes C).
Proof.
  destruct C as [| fr C]; [left; auto | right]. split; [discriminate |].
  apply hole_node_in_cnodes. discriminate.
Qed.

Lemma root_of_neq t z : 0 <= z < n -> ~ In z (elems t) -> z <> root_of t.
Proof.
  intros Hz Hnin E. destruct (root_of_cases t) as [[_ H] | H].
  - rewrite H in E. clia.
  - rewrite <- E in H. contradiction.
Qed.

Lemma root_of_node_neq t z : 0 <= z < n -> ~ In z (elems t) -> root_of t <> z.
Proof. intros Hz Hnin E. symmetry in E. revert E. apply root_of_neq; assumption. Qed.

Ltac neq :=
  first [ assumption
        | apply not_eq_sym; assumption
        | clia
        | apply root_of_neq; [clia | solve [eauto]]
        | apply root_of_node_neq; [clia | solve [eauto]]
        | intros ->; solve [eauto | contradiction]
        | intros <-; solve [eauto | contradiction] ].

Ltac upds := repeat first [rewrite upd_eq | rewrite upd_neq by neq].

(** Disjointness goals: a non-membership or a disequality that follows
    from the hypotheses by one step. *)
Ltac dj :=
  solve [ clia
        | unfold not in *; intros; eauto
        | unfold not in *; intros;
          match goal with
          | E : ?a = ?b |- False =>
              first [ rewrite E in *; solve [eauto] | rewrite <- E in *; solve [eauto] ]
          end ].

(** ** Splicing a new leaf into an absent link *)

Lemma leaf_insert_hangs L R P C s0 r :
  n < fst s0 <= n + 256 -> snd s0 = SR ->
  hangs L R P (plug C Leaf) s0 -> NoDup (cnodes C) ->
  0 <= r < n -> ~ In r (cnodes C) -> L r = NIL -> R r = NIL ->
  hangs (match snd (hole C s0) with SL => upd L (fst (hole C s0)) r | SR => L end)
        (match snd (hole C s0) with SR => upd R (fst (hole C s0)) r | SL => R end)
        (upd P r (fst (hole C s0))) (plug C (Node Leaf r Leaf)) s0.
Proof.
  intros Hs0 Hs0' H ND Hr Hnin HL HR.
  apply hangs_plug in H. destruct H as (HC & Hptr & _).
  destruct (hole_range _ _ _ _ _ Hs0 Hs0' HC) as (Hrange & Hnil & Hleft).
  assert (fst (hole C s0) <> r) as Hhp.
  { destruct (hole_cases C s0) as [[-> E] | [Hne Hin]]; [simpl; clia |].
    intros E. rewrite E in Hin. contradiction. }
  assert (C <> [] -> fst s0 <> fst (hole C s0)) as Hroot.
  { intros Hne. pose proof (cshape_range _ _ _ _ _ _ HC (hole_node_in_cnodes C s0 Hne)). clia. }
  apply hangs_plug. split.
  - apply (cshape_frame L R P); try assumption.
    + intros x Hx. upds. reflexivity.
    + intros x Hx Hne. destruct (hole C s0) as [hp sd]. cbn [fst snd] in *.
      destruct sd; [| reflexivity]. apply upd_neq. congruence.
    + intros x Hx Hne. destruct (hole C s0) as [hp sd]. cbn [fst snd] in *.
      destruct sd; [reflexivity |]. apply upd_neq. congruence.
    + intros Hne. specialize (Hroot Hne). unfold ptr. rewrite Hs0'.
      destruct (snd (hole C s0)); [reflexivity |]. apply upd_neq. assumption.
  - destruct (hole C s0) as [hp sd]. cbn [fst snd] in *. split.
    + unfold ptr. cbn [fst snd]. destruct sd; apply upd_eq.
    + cbn [fst shape]. repeat split; try lia.
      * apply upd_eq.
      * destruct sd; [rewrite upd_neq by neq |]; exact HL.
      * destruct sd; [| rewrite upd_neq by neq]; exact HR.
Qed.

(** ** Putting [r] in the place of a node [x] with the same key *)

Lemma replace_hangs L R P C s0 l x rt r :
  n < fst s0 <= n + 256 -> snd s0 = SR ->
  hangs L R P (plug C (Node l x rt)) s0 ->
  NoDup (elems (plug C (Node l x rt))) ->
  0 <= r < n -> ~ In r (elems (plug C (Node l x rt))) ->
  let P1 := upd P r (P x) in
  let L1 := upd L r (L x) in
  let R1 := upd R r (R x) in
  let P2 := upd P1 (L1 x) r in
  let P3 := upd P2 (R1 x) r in
  let L2 := if R1 (P3 x) =? x then L1 else upd L1 (P3 x) r in
  let R2 := if R1 (P3 x) =? x then upd R1 (P3 x) r else R1 in
  let P4 := upd P3 x NIL in
  hangs L2 R2 P4 (plug C (Node l r rt)) s0 /\
  (forall z, 0 <= z < n -> ~ In z (elems (plug C (Node l x rt))) -> z <> r ->
     L2 z = L z /\ R2 z = R z /\ P4 z = P z) /\
  (forall z, n < z -> z <> fst s0 -> R2 z = R z) /\
  (C <> [] -> R2 (fst s0) = R (fst s0)) /\
  P4 x = NIL /\
  (forall z, 0 <= z < n -> z <> x -> z <> r -> P4 z <> NIL -> P z <> NIL) /\
  (0 <= P x <= n + 256 /\ 0 <= L1 x <= n /\ 0 <= R1 x <= n /\ 0 <= P3 x <= n + 256 /\
   (R1 (P3 x) <> x -> P3 x <= n)).
Proof.
  intros Hs0 Hs0' H ND Hr Hnin P1 L1 R1 P2 P3 L2 R2 P4.
  apply hangs_plug in H. destruct H as (HC & Hptr & Hsh).
  destruct Hsh as (Hx & HPx & HLx & HRx & Hshl & Hshr).
  destruct (hole_range _ _ _ _ _ Hs0 Hs0' HC) as (Hrange & Hnil & Hleft).
  destruct (nodup_plug_node _ _ _ _ ND) as (NDC & NDl & NDr & HxC & Hxl & Hxr & Hlr & HlC & HrC).
  rewrite in_elems_plug in Hnin. simpl in Hnin. rewrite in_app_iff in Hnin. simpl in Hnin.
  assert (~ In r (elems l)) as Hrl by (intros Hin; apply Hnin; left; left; exact Hin).
  assert (~ In r (elems rt)) as Hrr by (intros Hin; apply Hnin; left; right; right; exact Hin).
  assert (~ In r (cnodes C)) as HrC' by (intros Hin; apply Hnin; right; exact Hin).
  assert (r <> x) as Hrx by (intros E; apply Hnin; left; right; left; symmetry; exact E).
  assert (forall z, In z (elems l) -> 0 <= z < n) as Rl
    by (intros z Hz; exact (shape_range _ _ _ _ _ _ Hshl Hz)).
  assert (forall z, In z (elems rt) -> 0 <= z < n) as Rr
    by (intros z Hz; exact (shape_range _ _ _ _ _ _ Hshr Hz)).
  assert (forall z, In z (cnodes C) -> 0 <= z < n) as RC
    by (intros z Hz; exact (cshape_range _ _ _ _ _ _ HC Hz)).
  assert (fst (hole C s0) = fst s0 /\ C = [] \/
          In (fst (hole C s0)) (cnodes C) /\ C <> []) as Hhole.
  { destruct (hole_cases C s0) as [[-> E] | [Hne Hin]]; [left | right]; auto. }
  (* the right link of a node whose left link is the hole does not lead to x *)
  assert (snd (hole C s0) = SL -> R (fst (hole C s0)) <> x) as Hsib.
  { destruct C as [| [y a | a y] C']; simpl.
    - intros E. rewrite Hs0' in E. discriminate.
    - intros _. simpl in HC. destruct HC as (_ & _ & _ & HRy & _). rewrite HRy.
      apply root_of_node_neq; [assumption |].
      intros Hin. apply HxC. unfold cnodes. simpl. rewrite !in_app_iff. simpl.
      rewrite in_app_iff. auto.
    - discriminate. }
  destruct (hole C s0) as [hp sd] eqn:Eh. cbn [fst snd] in *.
  assert (hp <> r) as Hhp by (destruct Hhole as [[-> _] | [Hin _]]; [clia | dj]).
  assert (hp <> x) as Hhpx by (destruct Hhole as [[-> _] | [Hin _]]; [clia | dj]).
  assert (forall z, 0 <= z < n -> ~ In z (cnodes C) -> z <> hp) as Hnhp.
  { intros z Hz Hnz. destruct Hhole as [[-> _] | [Hin _]]; [clia | intros ->; contradiction]. }
  assert (L1 x = root_of l) as EL1 by (subst L1; upds; assumption).
  assert (R1 x = root_of rt) as ER1 by (subst R1; upds; assumption).
  assert (P3 x = hp) as EP3.
  { subst P3 P2 P1. rewrite EL1, ER1. upds. assumption. }
  assert (R1 hp = R hp) as ER1hp by (subst R1; upds; reflexivity).
  assert (L2 = (match sd with SL => upd L1 hp r | SR => L1 end) /\
          R2 = (match sd with SR => upd R1 hp r | SL => R1 end)) as [EL2 ER2].
  { subst L2 R2. rewrite EP3, ER1hp. unfold ptr in Hptr. cbn [fst snd] in Hptr.
    destruct sd.
    - destruct (Z.eqb_spec (R hp) x) as [E | _]; [| auto]. exfalso. apply Hsib; auto.
    - rewrite Hptr, Z.eqb_refl. auto. }
  clearbody L2 R2. subst L2 R2.
  assert (forall z, z <> root_of l -> z <> root_of rt -> z <> r -> z <> x ->
            P4 z = P z) as HP4.
  { intros z Hzl Hzr Hzr' Hzx. subst P4 P3 P2 P1. rewrite EL1, ER1. upds. reflexivity. }
  assert (forall z, z <> r -> z <> hp -> 
            (match sd with SL => upd L1 hp r | SR => L1 end) z = L z /\
            (match sd with SR => upd R1 hp r | SL => R1 end) z = R z) as HLR.
  { intros z Hz1 Hz2. subst L1 R1. destruct sd; upds; auto. }
  assert (forall z, z <> r -> 
            (match sd with SL => upd L1 hp r | SR => L1 end) z = L z \/ sd = SL /\ z = hp) as HLsd.
  { intros z Hz1. subst L1. destruct sd; [| left; upds; reflexivity].
    destruct (Z.eq_dec z hp); [right; auto | left; upds; reflexivity]. }
  assert (forall z, z <> r -> 
            (match sd with SR => upd R1 hp r | SL => R1 end) z = R z \/ sd = SR /\ z = hp) as HRsd.
  { intros z Hz1. subst R1. destruct sd; [left; upds; reflexivity |].
    destruct (Z.eq_dec z hp); [right; auto | left; upds; reflexivity]. }
  split; [| split; [| split; [| split; [| split; [| split]]]]].
  - apply hangs_plug. rewrite Eh. split.
    + apply (cshape_frame L R P); try assumption.
      * intros z Hz. apply HP4; [apply root_of_neq; dj | apply root_of_neq; dj | dj | dj].
      * intros z Hz Hne. rewrite Eh in Hne.
        destruct (HLsd z ltac:(dj)) as [E | [-> ->]]; [exact E | congruence].
      * intros z Hz Hne. rewrite Eh in Hne.
        destruct (HRsd z ltac:(dj)) as [E | [-> ->]]; [exact E | congruence].
      * intros Hne. destruct Hhole as [[_ ->] | [Hin _]]; [congruence |].
        unfold ptr. rewrite Hs0'. apply HLR; [clia |]. specialize (RC _ Hin). clia.
    + split.
      * unfold ptr. cbn [fst snd]. destruct sd; apply upd_eq.
      * cbn [fst shape]. split; [lia |]. split; [| split; [| split; [| split]]].
        -- subst P4 P3 P2 P1. rewrite EL1, ER1. upds. assumption.
        -- subst L1. destruct sd; upds; assumption.
        -- subst R1. destruct sd; upds; assumption.
        -- apply (shape_reparent L R P) with (par := x); try assumption.
           ++ intros z Hz. apply HLR; [dj | apply Hnhp; dj].
           ++ intros z Hz Hroot. apply HP4; [exact Hroot | apply root_of_neq; dj | dj | dj].
           ++ intros Hne. subst P4 P3 P2 P1. rewrite EL1, ER1.
              destruct (root_of_cases l) as [[-> _] | Hin]; [congruence |].
              rewrite upd_neq by dj.
              destruct (Z.eq_dec (root_of l) (root_of rt)) as [E | E].
              ** rewrite E. apply upd_eq.
              ** rewrite upd_neq by assumption. apply upd_eq.
        -- apply (shape_reparent L R P) with (par := x); try assumption.
           ++ intros z Hz. apply HLR; [dj | apply Hnhp; dj].
           ++ intros z Hz Hroot. apply HP4; [apply root_of_neq; dj | exact Hroot | dj | dj].
           ++ intros Hne. subst P4 P3 P2 P1. rewrite EL1, ER1.
              destruct (root_of_cases rt) as [[-> _] | Hin]; [congruence |].
              rewrite upd_neq by dj. apply upd_eq.
  - intros z Hz Hnz Hzr. rewrite in_elems_plug in Hnz. simpl in Hnz.
    rewrite in_app_iff in Hnz. simpl in Hnz.
    assert (~ In z (elems l)) as Z1 by (intros Hin; apply Hnz; left; left; exact Hin).
    assert (~ In z (elems rt)) as Z2 by (intros Hin; apply Hnz; left; right; right; exact Hin).
    assert (~ In z (cnodes C)) as Z3 by (intros Hin; apply Hnz; right; exact Hin).
    assert (z <> x) as Z4 by (intros E; apply Hnz; left; right; left; symmetry; exact E).
    destruct (HLR z Hzr (Hnhp z Hz Z3)) as [E1 E2]. split; [exact E1 |]. split; [exact E2 |].
    apply HP4; try assumption; apply root_of_neq; assumption.
  - intros z Hz Hzs. apply HLR; [clia |].
    destruct Hhole as [[-> _] | [Hin _]]; [assumption |]. specialize (RC _ Hin). clia.
  - intros Hne. destruct Hhole as [[_ ->] | [Hin _]]; [congruence |].
    apply HLR; [clia |]. specialize (RC _ Hin). clia.
  - subst P4. apply upd_eq.
  - intros z Hz Hzx Hzr HP. 
    destruct (in_dec Z.eq_dec z (elems l)) as [Hl | Hl].
    { eapply shape_parent_not_NIL; [| exact Hshl | exact Hl]. clia. }
    destruct (in_dec Z.eq_dec z (elems rt)) as [Hrt | Hrt].
    { eapply shape_parent_not_NIL; [| exact Hshr | exact Hrt]. clia. }
    rewrite <- HP4; try assumption; apply root_of_neq; assumption.
  - rewrite EL1, ER1, EP3, ER1hp, HPx.
    assert (forall t, (forall z, In z (elems t) -> 0 <= z < n) -> 0 <= root_of t <= n) as Hroot.
    { intros t Ht. destruct (root_of_cases t) as [[_ ->] | Hin]; [clia |].
      specialize (Ht _ Hin). lia. }
    split; [lia |]. split; [auto |]. split; [auto |]. split; [lia |].
    intros Hne. unfold ptr in Hptr. cbn [fst snd] in Hptr.
    destruct sd; [specialize (Hleft eq_refl); lia | contradiction].
Qed.

Lemma replaceNode_run sp r x :
  0 <= r < n -> 0 <= x < n ->
  let L := lchild sp in let R := rchild sp in let P := parent sp in
  let P1 := upd P r (P x) in
  let L1 := upd L r (L x) in
  let R1 := upd R r (R x) in
  let P2 := upd P1 (L1 x) r in
  let P3 := upd P2 (R1 x) r in
  let L2 := if R1 (P3 x) =? x then L1 else upd L1 (P3 x) r in
  let R2 := if R1 (P3 x) =? x then upd R1 (P3 x) r else R1 in
  let P4 := upd P3 x NIL in
  0 <= P x <= n + 256 -> 0 <= L1 x <= n -> 0 <= R1 x <= n -> 0 <= P3 x <= n + 256 ->
  (R1 (P3 x) <> x -> P3 x <= n) ->
  replaceNode sp r x =
    Ok (mkState L2 R2 P4 (textBuf sp) (matchPosition sp) (matchLength sp)).
Proof.
  intros Hr Hx L R P P1 L1 R1 P2 P3 L2 R2 P4 H0 H1 H2 H3 H4.
  subst P4 L2 R2 P3 P2 R1 L1 P1 P R L.
  unfold replaceNode.
  rewrite getP_ok by lia. cbn [bind]. rewrite setP_ok by lia. cbn [bind].
  rewrite getL_ok by lia. cbn [bind lchild]. rewrite setL_ok by lia. cbn [bind lchild rchild parent].
  rewrite getR_ok by lia. cbn [bind lchild rchild parent]. rewrite setR_ok by lia.
  cbn [bind lchild rchild parent textBuf matchPosition matchLength].
  rewrite getL_ok by lia. cbn [bind lchild rchild parent].
  rewrite setP_ok by (cbn [lchild]; exact H1).
  cbn [bind lchild rchild parent textBuf matchPosition matchLength].
  rewrite getR_ok by lia. cbn [bind lchild rchild parent].
  rewrite setP_ok by (cbn [rchild]; exact H2).
  cbn [bind lchild rchild parent textBuf matchPosition matchLength].
  rewrite getP_ok by lia. cbn [bind lchild rchild parent].
  rewrite getR_ok by (cbn [parent]; exact H3). cbn [bind lchild rchild parent].
  match goal with |- context [?a =? x] => destruct (Z.eqb_spec a x) as [E | E] end.
  - rewrite setR_ok by (cbn [parent]; exact H3).
    cbn [bind lchild rchild parent textBuf matchPosition matchLength].
    rewrite setP_ok by lia. reflexivity.
  - rewrite setL_ok by (cbn [parent]; specialize (H4 E); lia).
    cbn [bind lchild rchild parent textBuf matchPosition matchLength].
    rewrite setP_ok by lia. reflexivity.
Qed.

Lemma height_le_length t : (height t <= length (elems t))%nat.
Proof.
  induction t as [| l IHl x r IHr]; simpl; [lia |].
  rewrite length_app. simpl. lia.
Qed.

Lemma nodup_range_length (l : list Z) (m : Z) :
  NoDup l -> (forall x, In x l -> 0 <= x < m) -> (length l <= Z.to_nat m)%nat.
Proof.
  intros ND Hr.
  replace (Z.to_nat m) with (length (map Z.of_nat (seq 0 (Z.to_nat m))))
    by (rewrite length_map, length_seq; reflexivity).
  apply NoDup_incl_length; [assumption |].
  intros x Hx. specialize (Hr x Hx). apply in_map_iff.
  exists (Z.to_nat x). split; [lia |]. apply in_seq. lia.
Qed.

Lemma tree_height_fuel sp c t : 0 <= c < 256 -> tree_ok sp c t -> (height t < treeFuel)%nat.
Proof.
  intros Hc Ht. pose proof (tree_ok_NoDup _ _ _ Ht) as ND.
  destruct Ht as ((_ & Hsh) & _). cbn [fst] in Hsh.
  pose proof (nodup_range_length (elems t) n ND
                (fun x Hx => shape_range _ _ _ _ _ _ Hsh Hx)) as Hlen.
  pose proof (height_le_length t). unfold treeFuel. clia.
Qed.

(** ** [insertNode] keeps the forest *)

Lemma insertNode_full sp fo r :
  forest_ok sp fo -> 0 <= r < n -> parent sp r = NIL ->
  exists sp' t',
    insertNode sp r = Ok sp' /\
    forest_ok sp' (fupd fo (b2z (textBuf sp r)) t') /\
    textBuf sp' = textBuf sp /\
    In r (elems t') /\
    (forall x, In x (elems t') -> x = r \/ In x (elems (fo (b2z (textBuf sp r))))) /\
    match_ok (textBuf sp) r (fun y => In y (elems (fo (b2z (textBuf sp r))))) sp' /\
    best (textBuf sp) r (fun y => In y (elems (fo (b2z (textBuf sp r))))) (matchLength sp') /\
    (forall x, In x (elems (fo (b2z (textBuf sp r)))) ->
       In x (elems t') \/ (matchLength sp' = f /\ x = matchPosition sp')) /\
    (matchLength sp' = f -> ~ In (matchPosition sp') (elems t')).
Proof.
  intros Hf Hr Hpr.
  set (c := b2z (textBuf sp r)). pose proof (b2z_range (textBuf sp r)) as Hc. fold c in Hc.
  set (w := fo c).
  pose proof Hf as [Htrees Hlive]. pose proof (Htrees c Hc) as Hw. fold w in Hw.
  pose proof (tree_ok_NoDup _ _ _ Hw) as NDw.
  pose proof (tree_height_fuel _ _ _ Hc Hw) as Hfuel.
  destruct Hw as ((Hptr & Hsh) & Hbst & Hfirst). cbn [fst] in Hsh.
  unfold ptr in Hptr. cbn [fst snd] in Hptr.
  assert (~ In r (elems w)) as Hrw by (apply not_live_not_held with sp; assumption).
  assert (forall x, In x (elems w) -> 0 <= x < n) as Rw
    by (intros x Hx; exact (shape_range _ _ _ _ _ _ Hsh Hx)).
  set (L1 := upd (lchild sp) r NIL). set (R1 := upd (rchild sp) r NIL).
  assert (hangs L1 R1 (parent sp) w (n + 1 + c, SR)) as Hh1.
  { split.
    - unfold ptr. cbn [fst snd]. subst R1. rewrite upd_neq by clia. exact Hptr.
    - cbn [fst]. apply (shape_frame (lchild sp) (rchild sp) (parent sp)); [| exact Hsh].
      intros x Hx. subst L1 R1. rewrite !upd_neq by dj. auto. }
  assert (forall x, In x (elems w) -> textBuf sp x = textBuf sp r) as Hfirst'.
  { intros x Hx. apply b2z_inj. rewrite (Hfirst x Hx). reflexivity. }
  unfold insertNode.
  destruct ((0 <=? r) && (r <=? n + f - 1)) eqn:G.
  2:{ exfalso. apply andb_false_iff in G. destruct G as [G | G];
        [apply Z.leb_gt in G | apply Z.leb_gt in G]; clia. }
  cbn [negb]. rewrite getKey_ok by clia. rewrite Z.add_0_r. cbn [bind]. fold c.
  rewrite setR_ok by clia. cbn [bind]. rewrite setL_ok by clia.
  cbn [bind lchild rchild parent textBuf matchPosition matchLength setMatch].
  fold L1 R1.
  match goal with |- context [insertLoop treeFuel ?s r _ 1] => set (sp1 := s) end.
  destruct (insertLoop_spec L1 R1 (parent sp) (textBuf sp) r w (n + 1 + c, SR) Hr
              ltac:(cbn [fst]; clia) eq_refl Hh1 ltac:(apply bst_sorted; exact Hbst) Hfirst'
              w [] treeFuel sp1 1) as (d & Hrun & Hd).
  { reflexivity. }
  { subst sp1. unfold arrays_are. cbn. auto. }
  { reflexivity. }
  { intros y []. }
  { intros y []. }
  { subst sp1. split; cbn; [clia | lia]. }
  { subst sp1. cbn. clia. }
  { intros y m []. }
  { exact Hfuel. }
  cbn [hole fst] in Hrun. rewrite Hrun. cbn [bind].
  destruct d as [sp2 | sp2 x].
  - (* a new leaf *)
    destruct Hd as (C & Hplug & Hcl & Hcr & (EL & ER & EP & ET) & Hm & Hml & Hbest).
    exists sp2, (plug C (Node Leaf r Leaf)).
    assert (NoDup (cnodes C)) as NDC by (apply nodup_plug_leaf; rewrite Hplug; exact NDw).
    assert (forall x, In x (cnodes C) -> In x (elems w)) as HCw.
    { intros x Hx. rewrite <- Hplug. apply in_elems_plug. auto. }
    assert (forall x, In x (elems w) -> In x (cnodes C)) as HwC.
    { intros x Hx. rewrite <- Hplug in Hx. apply in_elems_plug in Hx. destruct Hx as [[] | Hx]. exact Hx. }
    assert (~ In r (cnodes C)) as HrC by (intros Hin; apply Hrw; auto).
    pose proof Hh1 as Hh1'. rewrite <- Hplug in Hh1'.
    pose proof (leaf_insert_hangs L1 R1 (parent sp) C (n + 1 + c, SR) r ltac:(cbn [fst]; clia) eq_refl
                  Hh1' NDC Hr HrC ltac:(subst L1; apply upd_eq) ltac:(subst R1; apply upd_eq)) as Hh2.
    rewrite <- EL, <- ER, <- EP in Hh2.
    apply hangs_plug in Hh1'. destruct Hh1' as (HC1 & _).
    assert (fst (hole C (n + 1 + c, SR)) = n + 1 + c \/ In (fst (hole C (n + 1 + c, SR))) (elems w))
      as Hhp.
    { destruct (hole_cases C (n + 1 + c, SR)) as [[_ ->] | [_ Hin]]; [left; reflexivity | right; auto]. }
    split; [reflexivity |].
    split; [| split; [exact ET | split; [| split; [| split; [| split; [| split]]]]]].
    + apply forest_update with (sp := sp); try assumption.
      * split; [exact Hh2 |]. split.
        -- apply bst_sorted. rewrite ET, elems_plug. cbn [elems app].
           apply sorted_insert; try assumption.
           apply bst_sorted in Hbst. rewrite <- Hplug, elems_plug in Hbst. exact Hbst.
        -- intros x Hx. rewrite ET. apply in_elems_plug in Hx. cbn [elems app] in Hx.
           destruct Hx as [[<- | []] | Hx]; [reflexivity | apply Hfirst; auto].
      * intros x Hx Hnx Hpx. fold w in Hnx. rewrite EL, ER, EP.
        assert (x <> r) by congruence.
        assert (x <> fst (hole C (n + 1 + c, SR))) by (destruct Hhp as [-> | Hin]; [clia | dj]).
        subst L1 R1. destruct (snd (hole C (n + 1 + c, SR))); upds; auto.
      * intros c' Hc' Hne. rewrite ER.
        assert (n + 1 + c' <> fst (hole C (n + 1 + c, SR))).
        { destruct Hhp as [-> | Hin]; [clia | specialize (Rw _ Hin); clia]. }
        subst R1. destruct (snd (hole C (n + 1 + c, SR))); upds; reflexivity.
      * intros p Hp Hne. fold w. rewrite EP in Hne.
        destruct (Z.eq_dec p r) as [-> | Hpr'].
        -- left. apply in_elems_plug. left. simpl. auto.
        -- rewrite upd_neq in Hne by assumption.
           destruct (in_dec Z.eq_dec p (elems w)) as [Hin | Hnin]; [left | right; auto].
           apply in_elems_plug. right. auto.
    + apply in_elems_plug. left. simpl. auto.
    + intros x Hx. apply in_elems_plug in Hx. cbn [elems app] in Hx.
      destruct Hx as [[<- | []] | Hx]; [left; reflexivity | right; auto].
    + exact Hm.
    + exact Hbest.
    + intros x Hx. left. apply in_elems_plug. right. apply HwC. exact Hx.
    + intros E. lia.
  - (* a full match: r replaces x *)
    destruct Hd as (C & l & rt & Hplug & Hkey & (EL & ER & EP & ET) & Hmp & Hmlf).
    pose proof Hh1 as Hh1'. rewrite <- Hplug in Hh1'.
    pose proof NDw as NDw'. rewrite <- Hplug in NDw'.
    pose proof Hrw as Hrw'. rewrite <- Hplug in Hrw'.
    assert (In x (elems w)) as Hxw.
    { rewrite <- Hplug. apply in_elems_plug. left. simpl. apply in_app_iff. simpl. auto. }
    pose proof (Rw _ Hxw) as Hx.
    pose proof (replace_hangs L1 R1 (parent sp) C (n + 1 + c, SR) l x rt r
                  ltac:(cbn [fst]; clia) eq_refl Hh1' NDw' Hr Hrw') as Hrep.
    cbv zeta in Hrep.
    destruct Hrep as (Hh2 & Hfr & Hroots & Hroot0 & HPx & HPlive & (G0 & G1 & G2 & G3 & G4)).
    rewrite (replaceNode_run sp2 r x Hr Hx); rewrite ?EL, ?ER, ?EP; try assumption.
    eexists. exists (plug C (Node l r rt)).
    split; [reflexivity |].
    split; [| split; [exact ET | split; [| split; [| split; [| split; [| split]]]]]].
    + apply forest_update with (sp := sp); try assumption.
      * split; [exact Hh2 |]. cbn [textBuf]. rewrite ET. split.
        -- apply bst_sorted. rewrite elems_plug. cbn [elems]. rewrite <- app_assoc. cbn [app].
           rewrite app_assoc. apply sorted_replace with (x := x); [exact Hkey |].
           apply bst_sorted in Hbst. rewrite <- Hplug, elems_plug in Hbst. cbn [elems] in Hbst.
           rewrite <- app_assoc in Hbst. cbn [app] in Hbst. rewrite app_assoc in Hbst. exact Hbst.
        -- intros z Hz. apply in_elems_plug in Hz. cbn [elems] in Hz.
           rewrite in_app_iff in Hz. cbn [In] in Hz.
           destruct Hz as [[Hz | [<- | Hz]] | Hz]; [| reflexivity | |]; apply Hfirst;
             rewrite <- Hplug; apply in_elems_plug; cbn [elems]; rewrite in_app_iff; cbn [In]; auto.
      * intros z Hz Hnz Hpz. fold w in Hnz. cbn [lchild rchild parent].
        rewrite <- Hplug in Hnz. destruct (Hfr z Hz Hnz ltac:(congruence)) as (E1 & E2 & E3).
        rewrite E1, E2, E3. subst L1 R1. upds. auto.
      * intros c' Hc' Hne. cbn [rchild]. rewrite Hroots by (cbn [fst]; clia).
        subst R1. upds. reflexivity.
      * intros p Hp Hne. fold w. cbn [parent] in Hne.
        destruct (Z.eq_dec p r) as [-> | Hpr'].
        { left. apply in_elems_plug. left. simpl. apply in_app_iff. simpl. auto. }
        destruct (Z.eq_dec p x) as [-> | Hpx]; [contradiction |].
        pose proof (HPlive p Hp Hpx Hpr' Hne) as Hold.
        destruct (in_dec Z.eq_dec p (elems w)) as [Hin | Hnin]; [left | right; auto].
        rewrite <- Hplug in Hin. apply in_elems_plug in Hin. apply in_elems_plug.
        cbn [elems] in *. rewrite in_app_iff in *. cbn [In] in *.
        destruct Hin as [[Hin | [Hin | Hin]] | Hin]; auto. congruence.
    + apply in_elems_plug. left. simpl. apply in_app_iff. simpl. auto.
    + intros z Hz. apply in_elems_plug in Hz. cbn [elems] in Hz.
      rewrite in_app_iff in Hz. cbn [In] in Hz.
      destruct Hz as [[Hz | [<- | Hz]] | Hz]; [right | left; reflexivity | right | right];
        fold w; rewrite <- Hplug; apply in_elems_plug; cbn [elems]; rewrite in_app_iff; cbn [In]; auto.
    + split; cbn [matchLength matchPosition]; rewrite ?Hmlf, ?Hmp; [clia |].
      intros _. split; [exact Hxw |]. intros j Hj. symmetry. apply Hkey. lia.
    + intros y m _ Hm0 _. cbn [matchLength]. rewrite Hmlf. lia.
    + intros z Hz. cbn [matchLength matchPosition]. rewrite Hmlf, Hmp.
      destruct (Z.eq_dec z x) as [-> | Hzx]; [right; auto | left].
      fold w in Hz. rewrite <- Hplug in Hz. apply in_elems_plug in Hz. apply in_elems_plug.
      cbn [elems] in *. rewrite in_app_iff in *. cbn [In] in *.
      destruct Hz as [[Hz | [Hz | Hz]] | Hz]; auto. congruence.
    + intros _. cbn [matchPosition]. rewrite Hmp. intros Hin.
      destruct (nodup_plug_node _ _ _ _ NDw') as (_ & _ & _ & N1 & N2 & N3 & _).
      apply in_elems_plug in Hin. cbn [elems] in Hin. rewrite in_app_iff in Hin. cbn [In] in Hin.
      destruct Hin as [[Hin | [Hin | Hin]] | Hin]; try contradiction.
      apply Hrw. rewrite Hin. exact Hxw.
Qed.

Lemma insertNode_spec sp fo r :
  forest_ok sp fo -> 0 <= r < n -> parent sp r = NIL ->
  exists sp' t',
    insertNode sp r = Ok sp' /\
    forest_ok sp' (fupd fo (b2z (textBuf sp r)) t') /\
    textBuf sp' = textBuf sp /\
    In r (elems t') /\
    (forall x, In x (elems t') -> x = r \/ In x (elems (fo (b2z (textBuf sp r))))) /\
    match_ok (textBuf sp) r (fun y => In y (elems (fo (b2z (textBuf sp r))))) sp'.
Proof.
  intros Hf Hr HN.
  destruct (insertNode_full sp fo r Hf Hr HN) as (sp' & t' & H1 & H2 & H3 & H4 & H5 & H6 & _).
  exists sp', t'. repeat (split; [assumption |]). exact H6.
Qed.

(** * The forest invariant under [deleteNode] *)

(** ** Right spines *)

Lemma rspine_cright C : rspine C -> cright C = [].
Proof.
  induction 1 as [| [x r | l x] C Hfr _ IH]; simpl; [reflexivity | contradiction | exact IH].
Qed.

Lemma rspine_hole C s0 : rspine C -> C <> [] -> snd (hole C s0) = SR.
Proof.
  intros H Hne. destruct H as [| [x r | l x] C Hfr _]; simpl; [congruence | contradiction | reflexivity].
Qed.

Lemma rspine_app C1 C2 : rspine C1 -> rspine C2 -> rspine (C1 ++ C2).
Proof. unfold rspine. intros. apply Forall_app. auto. Qed.

Lemma root_of_plug C : forall t t', C <> [] -> root_of (plug C t) = root_of (plug C t').
Proof.
  induction C as [| fr C IH]; intros t t' Hne; [congruence |].
  destruct C as [| fr2 C2].
  - destruct fr; reflexivity.
  - destruct fr; simpl; apply IH; discriminate.
Qed.

(** The only position of a tree whose parent lies outside is the root. *)
Lemma shape_root_unique L R P t par x :
  shape L R P t par -> ~ In par (elems t) -> In x (elems t) -> P x = par -> x = root_of t.
Proof.
  destruct t as [| a y b]; simpl; intros H Hpar Hx HP; [contradiction |].
  destruct H as (_ & _ & _ & _ & Ha & Hb).
  rewrite in_app_iff in Hx, Hpar. simpl in Hx, Hpar.
  destruct Hx as [Hx | [Hx | Hx]]; [| congruence |].
  - exfalso. destruct (shape_parent _ _ _ _ _ _ Ha Hx) as [E | E].
    + apply Hpar. right. left. congruence.
    + apply Hpar. left. congruence.
  - exfalso. destruct (shape_parent _ _ _ _ _ _ Hb Hx) as [E | E].
    + apply Hpar. right. left. congruence.
    + apply Hpar. right. right. congruence.
Qed.

(** ** The loop that walks to the rightmost position *)

Lemma rightmost_spec sp : forall b a x par fuel,
  shape (lchild sp) (rchild sp) (parent sp) (Node a x b) par ->
  (height b < fuel)%nat ->
  exists Cr lq q,
    Node a x b = plug Cr (Node lq q Leaf) /\ rspine Cr /\ (Cr <> [] -> b <> Leaf) /\
    rightmost fuel sp x = Ok q.
Proof.
  induction b as [| b1 _ y b2 IH]; intros a x par fuel Hsh Hfuel.
  - destruct fuel as [| fuel]; [simpl in Hfuel; lia |].
    exists [], a, x. split; [reflexivity |]. split; [constructor |]. split; [congruence |].
    destruct Hsh as (Hx & _ & _ & HR & _). cbn [rightmost].
    rewrite getR_ok by clia. cbn [bind]. rewrite HR. simpl root_of. rewrite Z.eqb_refl. reflexivity.
  - destruct fuel as [| fuel]; [simpl in Hfuel; lia |].
    pose proof Hsh as (Hx & _ & _ & HR & _ & Hb).
    pose proof Hb as (Hy & _).
    destruct (IH b1 y x fuel Hb) as (Cr & lq & q & Hplug & Hsp & _ & Hrun).
    { simpl in Hfuel. lia. }
    exists (Cr ++ [FR a x]), lq, q. split; [| split; [| split]].
    + rewrite plug_app, <- Hplug. reflexivity.
    + apply rspine_app; [assumption |]. constructor; [exact I | constructor].
    + intros _. discriminate.
    + cbn [rightmost]. rewrite getR_ok by clia. cbn [bind]. rewrite HR. simpl root_of.
      destruct (Z.eqb_spec y NIL) as [E | _]; [clia |]. exact Hrun.
Qed.

(** ** Unlinking the in-order predecessor *)

Lemma unlink_spec sp p l rt hp0 :
  shape (lchild sp) (rchild sp) (parent sp) (Node l p rt) hp0 ->
  NoDup (elems (Node l p rt)) -> l <> Leaf -> (height l < treeFuel)%nat ->
  exists sp' q l',
    unlinkPredecessor sp p = Ok (sp', q) /\
    elems l = elems l' ++ [q] /\
    shape (lchild sp') (rchild sp') (upd (parent sp') q hp0) (Node l' q rt) hp0 /\
    (forall z, 0 <= z < n -> ~ In z (elems l) -> ~ In z (elems rt) ->
       lchild sp' z = lchild sp z /\ rchild sp' z = rchild sp z /\ parent sp' z = parent sp z) /\
    (forall z, n < z -> rchild sp' z = rchild sp z) /\
    textBuf sp' = textBuf sp /\ matchPosition sp' = matchPosition sp /\
    matchLength sp' = matchLength sp.
Proof.
  intros Hsh ND Hl Hfuel.
  set (L := lchild sp) in *. set (R := rchild sp) in *. set (P := parent sp) in *.
  pose proof Hsh as (Hp & HPp & HLp & HRp & Hshl & Hshr).
  simpl in ND. apply NoDup_app_iff in ND. destruct ND as (NDl & ND & Hdl).
  apply NoDup_cons_iff in ND. destruct ND as (Hprt & NDr).
  assert (~ In p (elems l)) as Hpl by (intros Hin; apply (Hdl p Hin); left; reflexivity).
  assert (forall z, In z (elems l) -> ~ In z (elems rt)) as Hlr
    by (intros z Hz Hz'; apply (Hdl z Hz); right; exact Hz').
  assert (forall z, In z (elems l) -> 0 <= z < n) as Rl
    by (intros z Hz; exact (shape_range _ _ _ _ _ _ Hshl Hz)).
  assert (forall z, In z (elems rt) -> 0 <= z < n) as Rr
    by (intros z Hz; exact (shape_range _ _ _ _ _ _ Hshr Hz)).
  assert (0 <= root_of rt <= n) as Rrt.
  { destruct (root_of_cases rt) as [[_ ->] | Hin]; [clia | specialize (Rr _ Hin); lia]. }
  destruct l as [| a q0 b]; [congruence |]. clear Hl.
  destruct (rightmost_spec sp b a q0 p treeFuel Hshl) as (Cr & lq & q & Hplug & Hsp & Hne & Hrun).
  { simpl in Hfuel. lia. }
  pose proof Hshl as (Hq0 & HPq0 & HLq0 & HRq0 & Hsha & Hshb).
  simpl root_of in HLp.
  unfold unlinkPredecessor.
  rewrite getL_ok by lia. cbn [bind]. fold L. rewrite HLp.
  rewrite getR_ok by clia. cbn [bind]. fold R.
  destruct Cr as [| fr Cr'].
  - (* the left child itself is the predecessor *)
    simpl in Hplug. inversion Hplug; subst lq q b. clear Hplug.
    rewrite HRq0. simpl root_of. rewrite Z.eqb_refl. cbn [negb bind].
    rewrite getR_ok by lia. cbn [bind]. rewrite setR_ok by clia. cbn [bind rchild].
    rewrite getR_ok by lia. cbn [bind rchild]. fold R.
    assert (q0 <> p) as Hq0p by (intros ->; apply Hpl; simpl; apply in_app_iff; simpl; auto).
    rewrite (upd_neq R q0 p) by neq. rewrite HRp.
    rewrite setP_ok by (cbn; lia). 
    eexists. exists q0, a. split; [reflexivity |].
    cbn [lchild rchild parent textBuf matchPosition matchLength]. fold L P.
    assert (forall z, In z (elems a) -> In z (elems (Node a q0 Leaf))) as Ha
      by (intros z Hz; simpl; apply in_app_iff; auto).
    assert (In q0 (elems (Node a q0 Leaf))) as Hq0in by (simpl; apply in_app_iff; simpl; auto).
    assert (~ In q0 (elems a)) as Hq0a.
    { simpl in NDl. apply NoDup_remove_2 in NDl. rewrite app_nil_r in NDl. exact NDl. }
    split; [reflexivity |]. split; [| split; [| split; [| auto]]].
    + cbn [shape]. split; [lia |]. split; [apply upd_eq |].
      split; [exact HLq0 |]. split; [apply upd_eq |]. split.
      * apply (shape_frame L R P); [| exact Hsha]. intros z Hz.
        assert (z <> q0) by dj. 
        assert (z <> root_of rt) by (apply root_of_neq; [apply Rl; auto | apply Hlr; auto]).
        upds. auto.
      * apply (shape_reparent L R P) with (par := p); try assumption.
        -- intros z Hz. assert (z <> q0) by (intros ->; apply (Hlr q0); auto). upds. auto.
        -- intros z Hz Hroot. assert (z <> q0) by (intros ->; apply (Hlr q0); auto). upds. reflexivity.
        -- intros Hne'. destruct (root_of_cases rt) as [[-> _] | Hin]; [congruence |].
           assert (root_of rt <> q0) by (intros E; rewrite E in Hin; apply (Hlr q0); auto).
           upds. reflexivity.
    + intros z Hz Hzl Hzr.
      assert (z <> q0) by (intros ->; contradiction).
      assert (z <> root_of rt) by (apply root_of_neq; assumption).
      upds. auto.
    + intros z Hz. upds. reflexivity.
  - (* the predecessor lies deeper on the right spine of the left subtree *)
    remember (fr :: Cr') as Cr eqn:ECr.
    assert (Cr <> []) as HCne by (rewrite ECr; discriminate).
    specialize (Hne HCne).
    assert (R q0 <> NIL) as HRq0ne.
    { rewrite HRq0. destruct b as [| b1 y b2]; [congruence |]. simpl.
      destruct Hshb as (Hy & _). clia. }
    destruct (Z.eqb_spec (R q0) NIL) as [E | _]; [contradiction |]. cbn [negb].
    rewrite Hrun. cbn [bind].
    (* the local picture around q *)
    assert (hangs L R P (plug Cr (Node lq q Leaf)) (p, SL)) as Hh.
    { rewrite <- Hplug. split; [exact HLp | exact Hshl]. }
    apply hangs_plug in Hh. destruct Hh as (HCr & Hptrq & Hshq).
    pose proof (rspine_hole Cr (p, SL) Hsp HCne) as Hsd.
    pose proof (hole_node_in_cnodes Cr (p, SL) HCne) as Hpqin.
    destruct (hole Cr (p, SL)) as [pq sd] eqn:Eh. cbn [fst snd] in *. subst sd.
    unfold ptr in Hptrq. cbn [fst snd] in Hptrq. simpl root_of in Hptrq.
    destruct Hshq as (Hq & HPq & HLq & HRq & Hshlq & _). simpl root_of in HRq.
    rewrite Hplug in NDl.
    destruct (nodup_plug_node _ _ _ _ NDl) as (NDC & NDlq & _ & HqC & Hqlq & _ & _ & HlqC & _).
    assert (forall z, In z (elems (Node a q0 b)) <->
              In z (elems lq) \/ z = q \/ In z (cnodes Cr)) as Hinl.
    { intros z. rewrite Hplug, in_elems_plug. simpl. rewrite in_app_iff. simpl.
      intuition auto. }
    assert (forall z, In z (cnodes Cr) -> 0 <= z < n) as RC
      by (intros z Hz; exact (cshape_range _ _ _ _ _ _ HCr Hz)).
    assert (forall z, In z (elems lq) -> 0 <= z < n) as Rlq
      by (intros z Hz; exact (shape_range _ _ _ _ _ _ Hshlq Hz)).
    assert (0 <= root_of lq <= n) as Rrlq.
    { destruct (root_of_cases lq) as [[_ ->] | Hin]; [clia | specialize (Rlq _ Hin); lia]. }
    pose proof (RC _ Hpqin) as Hpq.
    assert (~ In p (cnodes Cr)) as HpC by (intros Hin; apply Hpl; apply Hinl; auto).
    assert (~ In p (elems lq)) as Hplq by (intros Hin; apply Hpl; apply Hinl; auto).
    assert (p <> q) as Hpq' by (intros ->; apply Hpl; apply Hinl; auto).
    assert (q <> pq) as Hqpq by (intros ->; contradiction).
    assert (p <> pq) as Hppq by (intros ->; contradiction).
    assert (In q0 (cnodes Cr)) as Hq0C.
    { assert (q0 = root_of (plug Cr (Node lq q Leaf))) as -> by (rewrite <- Hplug; reflexivity).
      clear - HCne. revert HCne. generalize (Node lq q Leaf).
      induction Cr as [| fr C IH]; intros t Hne; [congruence |].
      destruct C as [| fr2 C2].
      - destruct fr; unfold cnodes; simpl; rewrite ?app_nil_r, ?in_app_iff; simpl; auto.
      - assert (In (root_of (plug (fr2 :: C2) (match fr with FL x r => Node t x r
                                                 | FR l x => Node l x t end)))
                   (cnodes (fr2 :: C2))) as Hin by (apply IH; discriminate).
        destruct fr; simpl plug.
        + apply (Permutation_in _ (Permutation_sym (cnodes_FL_perm _ _ _))).
          right. apply in_app_iff. right. exact Hin.
        + apply (Permutation_in _ (Permutation_sym (cnodes_FR_perm _ _ _))).
          right. apply in_app_iff. right. exact Hin. }
    assert (q0 <> q) as Hq0q by (intros ->; contradiction).
    assert (forall z, In z (elems rt) -> ~ In z (cnodes Cr)) as HrtC
      by (intros z Hz Hz'; apply (Hlr z); [apply Hinl; auto | exact Hz]).
    assert (forall z, In z (elems rt) -> ~ In z (elems lq)) as Hrtlq
      by (intros z Hz Hz'; apply (Hlr z); [apply Hinl; auto | exact Hz]).
    assert (~ In q (elems rt)) as Hqrt by (apply Hlr; apply Hinl; auto).
    (* run the code *)
    rewrite getP_ok by lia. cbn [bind]. fold P. rewrite HPq.
    rewrite getL_ok by lia. cbn [bind]. fold L. rewrite HLq.
    rewrite setR_ok by lia. cbn [bind lchild rchild parent]. fold L P R.
    rewrite getL_ok by lia. cbn [bind lchild rchild parent]. rewrite HLq.
    rewrite getP_ok by lia. cbn [bind lchild rchild parent]. rewrite HPq.
    rewrite setP_ok by lia. cbn [bind lchild rchild parent].
    rewrite getL_ok by lia. cbn [bind lchild rchild parent]. rewrite HLp.
    rewrite setL_ok by lia. cbn [bind lchild rchild parent].
    rewrite getL_ok by lia. cbn [bind lchild rchild parent].
    rewrite (upd_neq L q p) by neq. rewrite HLp.
    rewrite setP_ok by lia. cbn [bind lchild rchild parent].
    rewrite getR_ok by lia. cbn [bind lchild rchild parent].
    rewrite (upd_neq R pq p) by neq. rewrite HRp.
    rewrite setR_ok by lia. cbn [bind lchild rchild parent].
    rewrite getR_ok by lia. cbn [bind lchild rchild parent].
    rewrite (upd_neq _ q p) by neq. rewrite (upd_neq R pq p) by neq. rewrite HRp.
    rewrite setP_ok by (cbn; lia).
    eexists. exists q, (plug Cr lq). split; [reflexivity |].
    cbn [lchild rchild parent textBuf matchPosition matchLength].
    set (L' := upd L q q0).
    set (R' := upd (upd R pq (root_of lq)) q (root_of rt)).
    set (P' := upd (upd (upd P (root_of lq) pq) q0 q) (root_of rt) q).
    split; [| split; [| split; [| split; [| auto]]]].
    + rewrite Hplug, !elems_plug, (rspine_cright _ Hsp). simpl.
      rewrite !app_nil_r, <- app_assoc. reflexivity.
    + (* parent cells away from the four written ones *)
      assert (forall z, z <> q -> z <> root_of rt -> z <> q0 -> z <> root_of lq ->
                upd P' q hp0 z = P z) as HP'.
      { intros z Z1 Z2 Z3 Z4. subst P'. upds. reflexivity. }
      cbn [shape]. split; [lia |]. split; [apply upd_eq |].
      split; [| split; [| split]].
      * subst L'. upds. rewrite (root_of_plug Cr lq (Node lq q Leaf) HCne), <- Hplug. reflexivity.
      * subst R'. upds. reflexivity.
      * assert (hangs L' R' (upd P' q hp0) (plug Cr lq) (q, SL)) as Hh'; [| apply Hh'].
        apply hangs_plug. split.
        -- apply (cshape_rebase L R P) with (s0 := (p, SL)); try assumption.
           ++ intros z Hz HPz. apply HP'; first [dj | apply root_of_neq; [solve [auto] | dj]].
           ++ intros z Hz HPz. cbn [fst] in *.
              assert (z = q0) as ->.
              { apply (shape_root_unique L R P (Node a q0 b) p z Hshl Hpl); [| exact HPz].
                apply Hinl. auto. }
              subst P'. rewrite (upd_neq _ q q0) by neq.
              destruct (Z.eq_dec q0 (root_of rt)) as [E | E].
              ** rewrite E. apply upd_eq.
              ** rewrite (upd_neq _ (root_of rt) q0) by assumption. apply upd_eq.
           ++ intros z Hz _. subst L'. upds. reflexivity.
           ++ intros z Hz Hne'. rewrite Eh in Hne'. subst R'.
              assert (z <> pq) by congruence. upds. reflexivity.
           ++ intros _. unfold ptr. cbn [fst snd]. subst L'. upds. symmetry. exact HLp.
        -- assert (hole Cr (q, SL) = (pq, SR)) as ->.
           { destruct Cr as [| [y t | t y] C]; [congruence | discriminate Eh |].
             simpl in *. congruence. }
           split.
           ++ unfold ptr. cbn [fst snd]. subst R'. upds. reflexivity.
           ++ cbn [fst]. apply (shape_reparent L R P) with (par := q); try assumption.
              ** intros z Hz. subst L' R'. 
                 assert (z <> q) by dj. assert (z <> pq) by dj. upds. auto.
              ** intros z Hz Hroot. apply HP'; first [dj | apply root_of_neq; [solve [auto] | dj]].
              ** intros Hne'. destruct (root_of_cases lq) as [[-> _] | Hin]; [congruence |].
                 subst P'. 
                 assert (root_of lq <> q) by dj.
                 assert (root_of lq <> root_of rt) by (apply root_of_neq; [auto | dj]).
                 assert (root_of lq <> q0) by dj.
                 upds. reflexivity.
      * apply (shape_reparent L R P) with (par := p); try assumption.
        -- intros z Hz. subst L' R'.
           assert (z <> q) by dj. assert (z <> pq) by dj. upds. auto.
        -- intros z Hz Hroot. apply HP'; first [dj | apply root_of_neq; [solve [auto] | dj]].
        -- intros Hne'. destruct (root_of_cases rt) as [[-> _] | Hin]; [congruence |].
           subst P'. assert (root_of rt <> q) by dj. upds. reflexivity.
    + intros z Hz Hzl Hzr.
      assert (z <> q) by (intros ->; apply Hzl; apply Hinl; auto).
      assert (z <> pq) by (intros ->; apply Hzl; apply Hinl; auto).
      assert (z <> q0) by (intros ->; apply Hzl; apply Hinl; auto).
      assert (z <> root_of rt) by (apply root_of_neq; assumption).
      assert (z <> root_of lq).
      { apply root_of_neq; [assumption |]. intros Hin. apply Hzl. apply Hinl. auto. }
      subst L' R' P'. upds. auto.
    + intros z Hz. subst R'. upds. reflexivity.
Qed.

(** ** Relinking under the parent of the deleted position *)

Lemma relink_spec sp C s0 p sub' :
  n < fst s0 <= n + 256 -> snd s0 = SR ->
  cshape (lchild sp) (rchild sp) (parent sp) C s0 -> NoDup (cnodes C) ->
  0 <= p < n -> ~ In p (cnodes C) -> ~ In p (elems sub') ->
  (forall z, In z (elems sub') -> ~ In z (cnodes C)) ->
  ptr (lchild sp) (rchild sp) (hole C s0) = p -> parent sp p = fst (hole C s0) ->
  shape (lchild sp) (rchild sp) (upd (parent sp) (root_of sub') (fst (hole C s0))) sub'
        (fst (hole C s0)) ->
  exists sp',
    relink sp p (root_of sub') = Ok sp' /\
    hangs (lchild sp') (rchild sp') (parent sp') (plug C sub') s0 /\
    (forall z, 0 <= z < n -> z <> p -> ~ In z (cnodes C) -> ~ In z (elems sub') ->
       lchild sp' z = lchild sp z /\ rchild sp' z = rchild sp z /\ parent sp' z = parent sp z) /\
    (forall z, n < z -> z <> fst s0 -> rchild sp' z = rchild sp z) /\
    parent sp' p = NIL /\
    textBuf sp' = textBuf sp /\ matchPosition sp' = matchPosition sp /\
    matchLength sp' = matchLength sp.
Proof.
  intros Hs0 Hs0' HC NDC Hp HpC Hps HsC Hptr HPp Hsh.
  set (L := lchild sp) in *. set (R := rchild sp) in *. set (P := parent sp) in *.
  destruct (hole_range _ _ _ _ _ Hs0 Hs0' HC) as (Hrange & Hnil & Hleft).
  assert (forall z, In z (elems sub') -> 0 <= z < n) as Rs
    by (intros z Hz; exact (shape_range _ _ _ _ _ _ Hsh Hz)).
  assert (forall z, In z (cnodes C) -> 0 <= z < n) as RC
    by (intros z Hz; exact (cshape_range _ _ _ _ _ _ HC Hz)).
  assert (0 <= root_of sub' <= n) as Rq.
  { destruct (root_of_cases sub') as [[_ ->] | Hin]; [clia | specialize (Rs _ Hin); lia]. }
  assert (p <> root_of sub') as Hpq by (apply root_of_neq; assumption).
  assert (fst (hole C s0) = fst s0 /\ C = [] \/
          In (fst (hole C s0)) (cnodes C) /\ C <> []) as Hhole.
  { destruct (hole_cases C s0) as [[-> E] | [Hne Hin]]; [left | right]; auto. }
  assert (snd (hole C s0) = SL -> R (fst (hole C s0)) <> p) as Hsib.
  { destruct C as [| [y a | a y] C']; simpl.
    - intros E. rewrite Hs0' in E. discriminate.
    - intros _. simpl in HC. destruct HC as (_ & _ & _ & HRy & _). rewrite HRy.
      apply root_of_node_neq; [assumption |].
      intros Hin. apply HpC. unfold cnodes. simpl. rewrite !in_app_iff. simpl.
      rewrite in_app_iff. auto.
    - discriminate. }
  destruct (hole C s0) as [hp sd] eqn:Eh. cbn [fst snd] in *.
  unfold ptr in Hptr. cbn [fst snd] in Hptr.
  assert (hp <> p) as Hhpp by (destruct Hhole as [[-> _] | [Hin _]]; [clia | dj]).
  assert (forall z, 0 <= z < n -> ~ In z (cnodes C) -> z <> hp) as Hnhp.
  { intros z Hz Hnz. destruct Hhole as [[-> _] | [Hin _]]; [clia | intros ->; contradiction]. }
  set (q := root_of sub') in *.
  set (L2 := match sd with SL => upd L hp q | SR => L end).
  set (R2 := match sd with SR => upd R hp q | SL => R end).
  set (P3 := upd (upd P q hp) p NIL).
  assert (relink sp p q =
          Ok (mkState L2 R2 P3 (textBuf sp) (matchPosition sp) (matchLength sp))) as Hrun.
  { unfold relink. rewrite getP_ok by lia. cbn [bind]. fold P. rewrite HPp.
    rewrite setP_ok by lia. cbn [bind parent]. rewrite getP_ok by lia. cbn [bind parent]. fold P.
    rewrite (upd_neq P q p) by neq. rewrite HPp.
    rewrite getR_ok by exact Hrange. cbn [bind rchild]. fold R.
    subst L2 R2 P3. destruct sd.
    - destruct (Z.eqb_spec (R hp) p) as [E | _]; [exfalso; apply Hsib; auto |].
      rewrite setL_ok by (specialize (Hleft eq_refl); lia).
      cbn [bind lchild rchild parent textBuf matchPosition matchLength].
      rewrite setP_ok by lia. reflexivity.
    - rewrite Hptr, Z.eqb_refl. rewrite setR_ok by lia.
      cbn [bind lchild rchild parent textBuf matchPosition matchLength].
      rewrite setP_ok by lia. reflexivity. }
  eexists. split; [exact Hrun |].
  cbn [lchild rchild parent textBuf matchPosition matchLength].
  assert (forall z, z <> hp -> L2 z = L z /\ R2 z = R z) as HLR.
  { intros z Hz. subst L2 R2. destruct sd; upds; auto. }
  split; [| split; [| split; [| split; [| auto]]]].
  - apply hangs_plug. rewrite Eh. split.
    + apply (cshape_frame L R P); try assumption.
      * intros z Hz. subst P3. 
        assert (z <> q) by (apply root_of_neq; [auto | dj]).
        assert (z <> p) by dj. upds. reflexivity.
      * intros z Hz Hne. rewrite Eh in Hne. subst L2. destruct sd; [| reflexivity].
        assert (z <> hp) by congruence. upds. reflexivity.
      * intros z Hz Hne. rewrite Eh in Hne. subst R2. destruct sd; [reflexivity |].
        assert (z <> hp) by congruence. upds. reflexivity.
      * intros Hne. destruct Hhole as [[_ ->] | [Hin _]]; [congruence |].
        unfold ptr. rewrite Hs0'. apply HLR. specialize (RC _ Hin). clia.
    + split.
      * unfold ptr. cbn [fst snd]. subst L2 R2. destruct sd; apply upd_eq.
      * cbn [fst]. apply (shape_frame L R (upd P q hp)); [| exact Hsh].
        intros z Hz. destruct (HLR z) as [E1 E2]; [apply Hnhp; [auto | dj] |].
        split; [exact E1 |]. split; [exact E2 |]. subst P3.
        assert (z <> p) by dj. upds. reflexivity.
  - intros z Hz Hzp HzC Hzs. destruct (HLR z (Hnhp z Hz HzC)) as [E1 E2].
    split; [exact E1 |]. split; [exact E2 |]. subst P3.
    assert (z <> q) by (apply root_of_neq; assumption). upds. reflexivity.
  - intros z Hz Hzs. apply HLR.
    destruct Hhole as [[-> _] | [Hin _]]; [assumption |]. specialize (RC _ Hin). clia.
  - subst P3. apply upd_eq.
Qed.

(** ** [deleteNode] keeps the forest *)

Lemma deleteNode_full sp fo p :
  forest_ok sp fo -> 0 <= p < n ->
  exists sp' fo',
    deleteNode sp p = Ok sp' /\
    forest_ok sp' fo' /\
    textBuf sp' = textBuf sp /\ matchPosition sp' = matchPosition sp /\
    matchLength sp' = matchLength sp /\
    parent sp' p = NIL /\
    (forall x, held fo' x -> held fo x /\ x <> p) /\
    (forall x, held fo x -> x <> p -> held fo' x).
Proof.
  intros Hf Hp. unfold deleteNode. rewrite getP_ok by lia. cbn [bind].
  destruct (Z.eqb_spec (parent sp p) NIL) as [Hnil | Hlive].
  { exists sp, fo. split; [reflexivity |]. split; [assumption |].
    split; [reflexivity |]. split; [reflexivity |]. split; [reflexivity |].
    split; [assumption |]. split; [| intros x Hx _; exact Hx].
    intros x Hx. split; [assumption |].
    intros ->. destruct Hx as (c & Hc & Hin).
    destruct (held_facts _ _ _ _ Hf Hc Hin) as (_ & _ & Hne). contradiction. }
  set (c := b2z (textBuf sp p)). pose proof (b2z_range (textBuf sp p)) as Hc. fold c in Hc.
  set (w := fo c).
  pose proof Hf as [Htrees Hlv]. pose proof (Hlv p Hp Hlive) as Hpw. fold c w in Hpw.
  pose proof (Htrees c Hc) as Hw. fold w in Hw.
  pose proof (tree_ok_NoDup _ _ _ Hw) as NDw.
  pose proof (tree_height_fuel _ _ _ Hc Hw) as Hfuel.
  destruct Hw as (Hh & Hbst & Hfirst).
  destruct (in_elems_split _ _ Hpw) as (C & l & rt & Hplug).
  set (L := lchild sp) in *. set (R := rchild sp) in *. set (P := parent sp) in *.
  set (s0 := (n + 1 + c, SR)) in *.
  assert (n < fst s0 <= n + 256) as Hs0 by (subst s0; cbn [fst]; clia).
  pose proof Hh as Hh'. rewrite Hplug in Hh'. apply hangs_plug in Hh'.
  destruct Hh' as (HC & Hptr & Hsh).
  pose proof Hsh as (_ & HPp & HLp & HRp & Hshl & Hshr).
  pose proof NDw as NDw'. rewrite Hplug in NDw'.
  destruct (nodup_plug_node _ _ _ _ NDw') as (NDC & NDl & NDr & HpC & Hpl & Hpr & Hlr & HlC & HrC).
  assert (forall z, In z (elems w) <->
            In z (elems l) \/ z = p \/ In z (elems rt) \/ In z (cnodes C)) as Hinw.
  { intros z. rewrite Hplug, in_elems_plug. simpl. rewrite in_app_iff. simpl. intuition auto. }
  assert (forall z, In z (elems l) -> 0 <= z < n) as Rl
    by (intros z Hz; exact (shape_range _ _ _ _ _ _ Hshl Hz)).
  assert (forall z, In z (elems rt) -> 0 <= z < n) as Rr
    by (intros z Hz; exact (shape_range _ _ _ _ _ _ Hshr Hz)).
  assert (0 <= root_of l <= n) as Rrl.
  { destruct (root_of_cases l) as [[_ ->] | Hin]; [clia | specialize (Rl _ Hin); lia]. }
  assert (0 <= root_of rt <= n) as Rrrt.
  { destruct (root_of_cases rt) as [[_ ->] | Hin]; [clia | specialize (Rr _ Hin); lia]. }
  set (hp := fst (hole C s0)) in *.
  (* the part before the relinking *)
  assert (exists sp1 sub',
            (rp <- getR sp p ;;
             ' (sp0, q) <-
               (if rp =? NIL then q <- getL sp p ;; Ok (sp, q)
                else lp <- getL sp p ;;
                     if lp =? NIL then q <- getR sp p ;; Ok (sp, q)
                     else unlinkPredecessor sp p) ;;
             relink sp0 p q) = relink sp1 p (root_of sub') /\
            elems sub' = elems l ++ elems rt /\
            shape (lchild sp1) (rchild sp1) (upd (parent sp1) (root_of sub') hp) sub' hp /\
            (forall z, 0 <= z < n -> ~ In z (elems l) -> ~ In z (elems rt) ->
               lchild sp1 z = L z /\ rchild sp1 z = R z /\ parent sp1 z = P z) /\
            (forall z, n < z -> rchild sp1 z = R z) /\
            textBuf sp1 = textBuf sp /\ matchPosition sp1 = matchPosition sp /\
            matchLength sp1 = matchLength sp) as (sp1 & sub' & -> & Hel & Hsh1 & Hfr1 & Hroots1 & HT1 & Hmp1 & Hml1).
  { rewrite getR_ok by lia. cbn [bind]. fold R. rewrite HRp.
    destruct rt as [| ra ry rb].
    - (* no right child *)
      simpl root_of. rewrite Z.eqb_refl. rewrite getL_ok by lia. cbn [bind]. fold L. rewrite HLp.
      exists sp, l. split; [reflexivity |]. split; [simpl; rewrite app_nil_r; reflexivity |].
      split; [| auto 10].
      apply (shape_reparent L R P) with (par := p); try assumption; try (intros; auto).
      apply upd_neq. assumption. apply upd_eq.
    - simpl root_of. pose proof Hshr as (Hry & _).
      destruct (Z.eqb_spec ry NIL) as [E | _]; [clia |].
      rewrite getL_ok by lia. cbn [bind]. fold L. rewrite HLp.
      destruct l as [| la ly lb].
      + (* no left child *)
        simpl root_of. rewrite Z.eqb_refl. cbn [bind].
        exists sp, (Node ra ry rb). split; [reflexivity |].
        split; [reflexivity |]. split; [| auto 10].
        apply (shape_reparent L R P) with (par := p); try assumption; try (intros; auto).
        apply upd_neq. assumption. apply upd_eq.
      + (* two children *)
        simpl root_of. pose proof Hshl as (Hly & _).
        destruct (Z.eqb_spec ly NIL) as [E | _]; [clia |].
        destruct (unlink_spec sp p (Node la ly lb) (Node ra ry rb) hp Hsh) as
          (sp1 & q & l' & Hrun & Hel & Hsh1 & Hfr1 & Hroots1 & HT1 & Hmp1 & Hml1).
        { apply NoDup_app_iff. split; [assumption |]. split.
          - constructor; assumption.
          - intros z Hz [<- | Hz']; [contradiction | apply (Hlr z); assumption]. }
        { discriminate. }
        { pose proof Hfuel as Hfuel'. rewrite Hplug in Hfuel'.
          clear - Hfuel'. revert Hfuel'. generalize (Node la ly lb). intros t.
          assert (forall C t0, (height t0 <= height (plug C t0))%nat) as Hmono.
          { induction C0 as [| [x r | l x] C0 IH]; intros t0; simpl; [lia | |].
            - etransitivity; [| apply IH]. simpl. lia.
            - etransitivity; [| apply IH]. simpl. lia. }
          intros H. pose proof (Hmono C (Node t p (Node ra ry rb))) as Hle. simpl in Hle. lia. }
        rewrite Hrun. cbn [bind]. exists sp1, (Node l' q (Node ra ry rb)).
        split; [reflexivity |]. split.
        { rewrite Hel. cbn [elems]. rewrite <- app_assoc. reflexivity. }
        auto 10. }
  (* relinking *)
  assert (forall z, In z (elems sub') <-> In z (elems l) \/ In z (elems rt)) as Hinsub
    by (intros z; rewrite Hel, in_app_iff; reflexivity).
  assert (forall z, In z (cnodes C) ->
            lchild sp1 z = L z /\ rchild sp1 z = R z /\ parent sp1 z = P z) as Hfr1C.
  { intros z Hz. apply Hfr1; [exact (cshape_range _ _ _ _ _ _ HC Hz) | dj | dj]. }
  assert (cshape (lchild sp1) (rchild sp1) (parent sp1) C s0) as HC1.
  { apply (cshape_frame L R P); try assumption.
    - intros z Hz. apply Hfr1C. exact Hz.
    - intros z Hz _. apply Hfr1C. exact Hz.
    - intros z Hz _. apply Hfr1C. exact Hz.
    - intros _. unfold ptr. subst s0. cbn [fst snd]. apply Hroots1. clia. }
  assert (ptr (lchild sp1) (rchild sp1) (hole C s0) = p /\ parent sp1 p = hp) as [Hptr1 HPp1].
  { destruct (Hfr1 p Hp Hpl Hpr) as (_ & _ & E3). split; [| rewrite E3; exact HPp].
    simpl root_of in Hptr. rewrite <- Hptr.
    destruct (hole_cases C s0) as [[-> E] | [Hne Hin]].
    - simpl. unfold ptr. subst s0. cbn [fst snd]. apply Hroots1. clia.
    - destruct (Hfr1C _ Hin) as (E1 & E2 & _). unfold ptr.
      destruct (snd (hole C s0)); assumption. }
  destruct (relink_spec sp1 C s0 p sub' Hs0 eq_refl HC1 NDC Hp HpC) as
    (sp' & Hrun & Hh2 & Hfr2 & Hroots2 & HPp2 & HT2 & Hmp2 & Hml2); try assumption.
  { intros Hin. apply Hinsub in Hin. tauto. }
  { intros z Hz. apply Hinsub in Hz. destruct Hz; auto. }
  exists sp', (fupd fo c (plug C sub')). split; [exact Hrun |].
  split; [| split; [congruence | split; [congruence | split; [congruence | split; [exact HPp2 | split]]]]].
  - apply forest_update with (sp := sp); try assumption.
    + congruence.
    + split; [exact Hh2 |]. rewrite HT2, HT1. split.
      * apply bst_sorted. rewrite elems_plug, Hel.
        apply bst_sorted in Hbst. fold w in Hbst. rewrite Hplug, elems_plug in Hbst.
        simpl in Hbst. rewrite <- !app_assoc in *. simpl in Hbst.
        rewrite (app_assoc (cleft C)) in Hbst. rewrite (app_assoc (cleft C)).
        eapply sorted_remove. exact Hbst.
      * intros z Hz. apply Hfirst. fold w. apply Hinw. apply in_elems_plug in Hz.
        rewrite Hinsub in Hz. tauto.
    + intros z Hz Hzw Hzl. fold w in Hzw. rewrite Hinw in Hzw.
      destruct (Hfr2 z Hz) as (E1 & E2 & E3); try tauto.
      { rewrite Hinsub. tauto. }
      destruct (Hfr1 z Hz) as (E4 & E5 & E6); try tauto.
      rewrite E1, E2, E3. auto.
    + intros c' Hc' Hne. rewrite Hroots2 by (subst s0; cbn [fst]; clia).
      apply Hroots1. clia.
    + intros z Hz Hne. fold w. destruct (in_dec Z.eq_dec z (elems w)) as [Hin | Hnin].
      * left. apply in_elems_plug. rewrite Hinsub. apply Hinw in Hin.
        destruct Hin as [Hin | [-> | [Hin | Hin]]]; auto. contradiction.
      * right. split; [| exact Hnin]. rewrite Hinw in Hnin.
        destruct (Hfr2 z Hz) as (_ & _ & E3); try tauto.
        { rewrite Hinsub. tauto. }
        destruct (Hfr1 z Hz) as (_ & _ & E6); try tauto.
        fold P. rewrite <- E6, <- E3. exact Hne.
  - intros x (c' & Hc' & Hin). unfold fupd in Hin.
    destruct (Z.eqb_spec c' c) as [-> | Hne].
    + apply in_elems_plug in Hin. rewrite Hinsub in Hin. split.
      * exists c. split; [assumption |]. fold w. apply Hinw. tauto.
      * intros ->. tauto.
    + split; [exists c'; auto |]. intros ->.
      destruct (held_facts _ _ _ _ Hf Hc' Hin) as (_ & E & _). fold c in E. congruence.
  - intros x (c' & Hc' & Hin) Hxp. exists c'. split; [exact Hc' |]. unfold fupd.
    destruct (Z.eqb_spec c' c) as [-> | Hne]; [| exact Hin].
    fold w in Hin. apply Hinw in Hin. apply in_elems_plug. rewrite Hinsub.
    destruct Hin as [Hin | [-> | [Hin | Hin]]]; auto. contradiction.
Qed.

Lemma deleteNode_spec sp fo p :
  forest_ok sp fo -> 0 <= p < n ->
  exists sp' fo',
    deleteNode sp p = Ok sp' /\
    forest_ok sp' fo' /\
    textBuf sp' = textBuf sp /\ matchPosition sp' = matchPosition sp /\
    matchLength sp' = matchLength sp /\
    parent sp' p = NIL /\
    (forall x, held fo' x -> held fo x /\ x <> p).
Proof.
  intros Hf Hp.
  destruct (deleteNode_full sp fo p Hf Hp) as (sp' & fo' & H1 & H2 & H3 & H4 & H5 & H6 & H7 & _).
  exists sp', fo'. repeat (split; [assumption |]). exact H7.
Qed.

(** * The ring buffer and the text *)

Ltac mlia := unfold rpos in *; consts; Z.div_mod_to_equations; lia.

Ltac eqb_cases :=
  repeat match goal with
  | |- context [?a =? ?b] =>
      let E := fresh "E" in destruct (Z.eqb_spec a b) as [E | E]
  end.

Lemma rpos_range t : 0 <= rpos t < n.
Proof. mlia. Qed.

Lemma rpos_succ t : Z.land (rpos t + 1) (n - 1) = rpos (t + 1).
Proof. rewrite land_mask. mlia. Qed.

Lemma rpos_eq a b : rpos a = rpos b -> - n < a - b < n -> a = b.
Proof. mlia. Qed.

Lemma rpos_small t : - (n - f) <= t < f -> rpos t = n - f + t.
Proof. mlia. Qed.

Lemma rpos_f t : rpos (t + f) = t mod n.
Proof. mlia. Qed.

Lemma ring_rpos src m d : 1 <= d <= n -> ring src m (rpos (m - d)) = txt src (m - d).
Proof.
  intros Hd. unfold ring. f_equal. mlia.
Qed.

Lemma ring_succ src m x :
  0 <= x < n -> ring src (m + 1) x = upd (ring src m) (rpos m) (txt src m) x.
Proof.
  intros Hx. unfold upd. destruct (Z.eqb_spec x (rpos m)) as [-> | Hne].
  - replace m with (m + 1 - 1) at 2 3 by lia. apply ring_rpos. clia.
  - unfold ring. f_equal. mlia.
Qed.

Lemma ring_init src x : 0 <= x < n -> ring src 0 x = textBuf initState x.
Proof.
  intros Hx. unfold ring, txt. cbn [textBuf initState].
  destruct (Z.ltb_spec x (n - f)).
  - replace (0 <=? x) with true by (symmetry; apply Z.leb_le; lia). cbn [andb].
    destruct (Z.ltb_spec (0 - 1 - (rpos 0 - 1 - x) mod n) (- (n - f))); [mlia |].
    destruct (Z.ltb_spec (0 - 1 - (rpos 0 - 1 - x) mod n) 0); [reflexivity | mlia].
  - rewrite andb_false_r.
    destruct (Z.ltb_spec (0 - 1 - (rpos 0 - 1 - x) mod n) (- (n - f))); [reflexivity | mlia].
Qed.

Lemma getSrc_ok src i : 0 <= i < srcLen src -> getSrc src i = Ok (txt src i).
Proof.
  unfold srcLen. intros Hi. unfold getSrc. rewrite inb_true by lia.
  unfold txt.
  destruct (Z.ltb_spec i (- (n - f))); [clia |].
  destruct (Z.ltb_spec i 0); [lia |].
  destruct (nth_error src (Z.to_nat i)) eqn:E.
  - f_equal. symmetry. apply nth_error_nth. exact E.
  - apply nth_error_None in E. lia.
Qed.

(** The text buffer read at a raw index [rpos i + k], which may lie in the
    mirror cells past [n]. *)
Lemma text_raw src m T i k :
  text_ok src m T -> - f <= i -> 0 <= k < f -> m - n <= i + k < m ->
  T (rpos i + k) = txt src (i + k).
Proof.
  intros [H1 H2] Hi Hk Hm.
  destruct (Z_lt_le_dec (rpos i + k) n) as [Hlt | Hge].
  - rewrite H1 by mlia.
    replace (rpos i + k) with (rpos (m - (m - (i + k)))) by mlia.
    rewrite ring_rpos by lia. f_equal. lia.
  - replace (rpos i + k) with (n + (rpos i + k - n)) by lia.
    rewrite H2 by mlia. rewrite H1 by mlia.
    replace (rpos i + k - n) with (rpos (m - (m - (i + k)))) by mlia.
    rewrite ring_rpos by lia. f_equal. lia.
Qed.

(** ** The text buffer under the writes of [Compress] *)

Lemma text_ok_write src m T b :
  0 <= m -> text_ok src m T -> b = txt src m ->
  text_ok src (m + 1)
    (if rpos m <? f - 1 then upd (upd T (rpos m) b) (rpos m + n) b
     else upd T (rpos m) b).
Proof.
  intros Hm [H1 H2] ->. pose proof (rpos_range m) as Hr. split.
  - intros x Hx. rewrite ring_succ by assumption.
    destruct (rpos m <? f - 1); unfold upd; eqb_cases;
      solve [reflexivity | clia | apply H1; assumption].
  - intros j Hj Hjm. destruct (Z.eq_dec j (rpos m)) as [-> | Hne].
    + replace (rpos m <? f - 1) with true by (symmetry; apply Z.ltb_lt; lia).
      unfold upd. eqb_cases; solve [reflexivity | clia].
    + assert (f + j < m) by mlia.
      destruct (rpos m <? f - 1); unfold upd; eqb_cases;
        solve [apply H2; assumption | clia].
Qed.

(** ** The forest under a change of the text *)

Lemma bst_ext T T' t :
  (forall x j, In x (elems t) -> 0 <= j < f -> T' (x + j) = T (x + j)) ->
  bst T t -> bst T' t.
Proof.
  intros H Hb. apply bst_sorted. apply (sorted_ext T); [exact H |].
  apply bst_sorted. exact Hb.
Qed.

Lemma forest_ok_text sp sp' fo :
  forest_ok sp fo ->
  lchild sp' = lchild sp -> rchild sp' = rchild sp -> parent sp' = parent sp ->
  (forall x j, held fo x -> 0 <= j < f -> textBuf sp' (x + j) = textBuf sp (x + j)) ->
  forest_ok sp' fo.
Proof.
  intros Hf EL ER EP HT. pose proof Hf as [Ht Hl]. split.
  - intros c Hc. destruct (Ht c Hc) as (Hh & Hb & Hfirst).
    unfold tree_ok. rewrite EL, ER, EP. split; [exact Hh |]. split.
    + apply (bst_ext (textBuf sp)); [| exact Hb].
      intros x j Hx Hj. apply HT; [exists c; auto | assumption].
    + intros x Hx.
      assert (E : textBuf sp' x = textBuf sp x).
      { rewrite <- (Z.add_0_r x). apply HT; [exists c; auto | clia]. }
      rewrite E. apply Hfirst. exact Hx.
  - intros p Hp Hne. rewrite EP in Hne.
    pose proof (live_held _ _ _ Hf Hp Hne) as Hh.
    assert (E : textBuf sp' p = textBuf sp p).
    { rewrite <- (Z.add_0_r p). apply HT; [assumption | clia]. }
    rewrite E. apply Hl; assumption.
Qed.

(** Writing the cell [rpos (t + f)], and its mirror, leaves the keys of
    all positions less than [n - f] behind [rpos t] untouched. *)
Lemma write_keeps_keys (T : array byte) t b x d j :
  0 <= d <= n - f - 1 -> x = rpos (t - d) -> 0 <= j < f ->
  (if rpos (t + f) <? f - 1 then upd (upd T (rpos (t + f)) b) (rpos (t + f) + n) b
   else upd T (rpos (t + f)) b) (x + j) = T (x + j).
Proof.
  intros Hd -> Hj.
  destruct (Z.ltb_spec (rpos (t + f)) (f - 1)); unfold upd; eqb_cases;
    solve [reflexivity | mlia].
Qed.

(** * The coding loop of [Compress] *)

(** ** Insertions and deletions in terms of the held positions *)

Lemma match_ok_weaken T r (P Q : Z -> Prop) sp :
  (forall y, P y -> Q y) -> match_ok T r P sp -> match_ok T r Q sp.
Proof.
  intros HPQ [Hl Hm]. split; [exact Hl |].
  intros Hpos. destruct (Hm Hpos) as [Hp Hj]. split; [apply HPQ; exact Hp | exact Hj].
Qed.

Lemma held_fupd fo c t x :
  held (fupd fo c t) x -> In x (elems t) \/ held fo x.
Proof.
  intros (c' & Hc' & Hin). unfold fupd in Hin.
  destruct (c' =? c); [left; exact Hin | right; exists c'; auto].
Qed.

Lemma insert_held sp fo p :
  forest_ok sp fo -> 0 <= p < n -> ~ held fo p ->
  exists sp' fo',
    insertNode sp p = Ok sp' /\ forest_ok sp' fo' /\
    textBuf sp' = textBuf sp /\
    (forall x, held fo' x -> x = p \/ held fo x) /\
    match_ok (textBuf sp') p (held fo) sp'.
Proof.
  intros Hf Hp Hnh.
  assert (HN : parent sp p = NIL).
  { destruct (Z.eq_dec (parent sp p) NIL) as [E | E]; [exact E |].
    exfalso. apply Hnh. eapply live_held; eassumption. }
  destruct (insertNode_spec sp fo p Hf Hp HN)
    as (sp' & t' & Hrun & Hf' & HT & _ & Hsub & Hm).
  exists sp', (fupd fo (b2z (textBuf sp p)) t').
  split; [exact Hrun |]. split; [exact Hf' |]. split; [exact HT |]. split.
  - intros x Hx. apply held_fupd in Hx. destruct Hx as [Hx | Hx]; [| right; exact Hx].
    destruct (Hsub x Hx) as [-> | Hin]; [left; reflexivity |].
    right. exists (b2z (textBuf sp p)). split; [apply b2z_range | exact Hin].
  - rewrite HT. eapply match_ok_weaken; [| exact Hm].
    intros y Hy. exists (b2z (textBuf sp p)). split; [apply b2z_range | exact Hy].
Qed.

(** ** Moving the window by one position *)

Lemma window_delete fo fo' t :
  window fo t (n - f) ->
  (forall x, held fo' x -> held fo x /\ x <> rpos (t + f)) ->
  window fo' t (n - f - 1).
Proof.
  intros Hw Hsub x Hx. destruct (Hsub x Hx) as [Hh Hne].
  destruct (Hw x Hh) as (d & Hd & Hdt & ->). exists d.
  split; [| auto]. assert (d <> n - f); [| lia].
  intros ->. apply Hne. mlia.
Qed.

Lemma window_shift fo t :
  window fo t (n - f - 1) -> window fo (t + 1) (n - f).
Proof.
  intros Hw x Hx. destruct (Hw x Hx) as (d & Hd & Hdt & ->). exists (d + 1).
  split; [lia |]. split; [lia |]. f_equal. lia.
Qed.

Lemma window_behind fo t y :
  window fo t (n - f - 1) -> held fo y -> behind (t + 1) y.
Proof.
  intros Hw Hy. destruct (Hw y Hy) as (d & Hd & Hdt & ->). exists (d + 1).
  split; [lia |]. split; [lia |]. f_equal. lia.
Qed.

Lemma window_not_next fo t :
  window fo t (n - f - 1) -> ~ held fo (rpos (t + 1)).
Proof.
  intros Hw Hh. destruct (Hw _ Hh) as (d & Hd & Hdt & E). mlia.
Qed.

(** Deleting the oldest position, as both advancing loops do first. *)
Lemma delete_oldest sp fo t :
  forest_ok sp fo -> window fo t (n - f) ->
  exists sp' fo',
    deleteNode sp (rpos (t + f)) = Ok sp' /\
    forest_ok sp' fo' /\ window fo' t (n - f - 1) /\
    textBuf sp' = textBuf sp /\ matchPosition sp' = matchPosition sp /\
    matchLength sp' = matchLength sp.
Proof.
  intros Hf Hw.
  destruct (deleteNode_spec sp fo (rpos (t + f)) Hf (rpos_range _))
    as (sp' & fo' & Hrun & Hf' & HT & Hmp & Hml & _ & Hsub).
  exists sp', fo'. split; [exact Hrun |]. split; [exact Hf' |].
  split; [eapply window_delete; eassumption |]. auto.
Qed.

(** Inserting the next position. *)
Lemma insert_next sp fo t :
  0 <= t -> forest_ok sp fo -> window fo t (n - f - 1) ->
  exists sp',
    insertNode sp (rpos (t + 1)) = Ok sp' /\
    (exists fo', forest_ok sp' fo' /\ window fo' (t + 1) (n - f)) /\
    textBuf sp' = textBuf sp /\
    match_ok (textBuf sp') (rpos (t + 1)) (behind (t + 1)) sp'.
Proof.
  intros Ht Hf Hw.
  destruct (insert_held sp fo (rpos (t + 1)) Hf (rpos_range _) (window_not_next _ _ Hw))
    as (sp' & fo' & Hrun & Hf' & HT & Hsub & Hm).
  exists sp'. split; [exact Hrun |]. split; [| split; [exact HT |]].
  - exists fo'. split; [exact Hf' |].
    intros x Hx. destruct (Hsub x Hx) as [-> | Hh].
    + exists 0. split; [clia |]. split; [clia | f_equal; lia].
    + apply window_shift in Hw. apply Hw. exact Hh.
  - eapply match_ok_weaken; [| exact Hm].
    intros y Hy. eapply window_behind; eassumption.
Qed.

(** ** One iteration of the reading loop *)

Lemma write_run {A : Type} sp s b (K : encodeState -> result A) :
  0 <= s < n ->
  (sp' <- setT sp s b ;;
   sp'' <- (if s <? f - 1 then setT sp' (s + n) b else Ok sp') ;;
   K sp'') =
  K (mkState (lchild sp) (rchild sp) (parent sp)
       (if s <? f - 1 then upd (upd (textBuf sp) s b) (s + n) b
        else upd (textBuf sp) s b)
       (matchPosition sp) (matchLength sp)).
Proof.
  intros Hs. rewrite setT_ok by clia. cbn [bind].
  destruct (Z.ltb_spec s (f - 1)).
  - rewrite setT_ok by (cbn [textBuf]; clia). reflexivity.
  - reflexivity.
Qed.

Lemma read_step {A : Type} src st t (K : encodeState -> result A) :
  enc_core src t st -> c_srcPos st < srcLen src ->
  exists sp',
    (sp <- deleteNode (c_sp st) (c_s st) ;;
     b <- getSrc src (c_srcPos st) ;;
     sp <- setT sp (c_s st) (z2b (b2z b)) ;;
     sp <- (if c_s st <? f - 1 then setT sp (c_s st + n) (z2b (b2z b)) else Ok sp) ;;
     sp <- insertNode sp (Z.land (c_r st + 1) (n - 1)) ;;
     K sp) = K sp' /\
    let st' := mkComp sp' (c_dst st) (c_codeBuf st) (c_codeBufPtr st) (c_mask st)
                 (Z.land (c_r st + 1) (n - 1)) (Z.land (c_s st + 1) (n - 1))
                 (c_dataLen st) (c_srcPos st + 1) in
    enc_core src (t + 1) st' /\ match_part (t + 1) st'.
Proof.
  intros (Ht & Hr & Hs & Hd & Hp & (fo & Hf & Hw) & Htx) Hlt.
  assert (Hdl : c_dataLen st = f) by lia.
  destruct (delete_oldest _ _ _ Hf Hw) as (sp1 & fo1 & Hdel & Hf1 & Hw1 & HT1 & _ & _).
  rewrite Hs, Hdel. cbn [bind]. rewrite getSrc_ok by clia. cbn [bind].
  rewrite z2b_b2z. rewrite write_run by apply rpos_range.
  set (sp2 := mkState _ _ _ _ _ _).
  assert (Hf2 : forest_ok sp2 fo1).
  { apply (forest_ok_text sp1); [exact Hf1 | reflexivity | reflexivity | reflexivity |].
    intros x j Hx Hj. destruct (Hw1 x Hx) as (d & Hd1 & _ & Hxd).
    cbn [sp2 textBuf]. eapply write_keeps_keys; eassumption. }
  destruct (insert_next sp2 fo1 t (proj1 Ht) Hf2 Hw1) as (sp3 & Hins & Hfo3 & HT3 & Hm3).
  rewrite Hr, !rpos_succ, Hins. cbn [bind].
  exists sp3. split; [reflexivity |]. cbn zeta. split.
  - unfold enc_core.
    cbn [c_sp c_r c_s c_dataLen c_srcPos].
    split; [clia |]. split; [reflexivity |]. split; [f_equal; lia |].
    split; [clia |]. split; [clia |]. split; [exact Hfo3 |].
    rewrite HT3. cbn [sp2 textBuf]. rewrite HT1.
    replace (rpos (t + f)) with (rpos (c_srcPos st)) by (f_equal; lia).
    apply text_ok_write; [clia | exact Htx | reflexivity].
  - intros _. cbn [c_sp c_r]. exact Hm3.
Qed.

(** ** One iteration of the draining loop *)

Lemma drain_step {A : Type} src st t (K : encodeState -> result A) :
  enc_core src t st -> srcLen src <= c_srcPos st -> 0 < c_dataLen st ->
  exists sp',
    (sp <- deleteNode (c_sp st) (c_s st) ;;
     sp <- (if c_dataLen st - 1 >? 0
            then insertNode sp (Z.land (c_r st + 1) (n - 1)) else Ok sp) ;;
     K sp) = K sp' /\
    let st' := mkComp sp' (c_dst st) (c_codeBuf st) (c_codeBufPtr st) (c_mask st)
                 (Z.land (c_r st + 1) (n - 1)) (Z.land (c_s st + 1) (n - 1))
                 (c_dataLen st - 1) (c_srcPos st) in
    enc_core src (t + 1) st' /\ match_part (t + 1) st'.
Proof.
  intros (Ht & Hr & Hs & Hd & Hp & (fo & Hf & Hw) & Htx) Hge Hpos.
  destruct (delete_oldest _ _ _ Hf Hw) as (sp1 & fo1 & Hdel & Hf1 & Hw1 & HT1 & _ & _).
  rewrite Hs, Hdel. cbn [bind]. rewrite Hr, !rpos_succ.
  destruct (Z.gtb_spec (c_dataLen st - 1) 0) as [Hgt | Hle].
  - destruct (insert_next sp1 fo1 t (proj1 Ht) Hf1 Hw1) as (sp3 & Hins & Hfo3 & HT3 & Hm3).
    rewrite Hins. cbn [bind]. exists sp3. split; [reflexivity |]. cbn zeta. split.
    + unfold enc_core. cbn [c_sp c_r c_s c_dataLen c_srcPos].
      split; [clia |]. split; [reflexivity |]. split; [f_equal; lia |].
      split; [clia |]. split; [clia |]. split; [exact Hfo3 |].
      rewrite HT3, HT1. exact Htx.
    + intros _. cbn [c_sp c_r]. exact Hm3.
  - cbn [bind]. exists sp1. split; [reflexivity |]. cbn zeta. split.
    + unfold enc_core. cbn [c_sp c_r c_s c_dataLen c_srcPos].
      split; [clia |]. split; [reflexivity |]. split; [f_equal; lia |].
      split; [clia |]. split; [clia |]. split.
      * exists fo1. split; [exact Hf1 | apply window_shift; exact Hw1].
      * rewrite HT1. exact Htx.
    + unfold match_part. cbn [c_dataLen]. lia.
Qed.

(** ** The advancing loops *)

Lemma out_same_refl st : out_same st st.
Proof. repeat split. Qed.

Lemma advanceRead_spec src L : forall fuel i st t (P : Prop),
  enc_core src t st -> (P -> match_part t st) ->
  (Z.to_nat (L - i) < fuel)%nat ->
  exists st' i',
    advanceRead fuel src L i st = Ok (st', i') /\
    i <= i' /\ (i' <= L \/ i' = i) /\
    enc_core src (t + (i' - i)) st' /\
    (P \/ i < i' -> match_part (t + (i' - i)) st') /\
    (i' < L -> srcLen src <= c_srcPos st') /\
    out_same st st'.
Proof.
  induction fuel as [| fuel IH]; intros i st t P Hc Hm Hfuel; [lia |].
  cbn [advanceRead].
  destruct ((i <? L) && (c_srcPos st <? Z.of_nat (length src))) eqn:Hcond.
  - apply andb_true_iff in Hcond. destruct Hcond as [HiL Hsrc].
    apply Z.ltb_lt in HiL. apply Z.ltb_lt in Hsrc.
    destruct (read_step src st t
                (fun sp => advanceRead fuel src L (i + 1)
                   (mkComp sp (c_dst st) (c_codeBuf st) (c_codeBufPtr st) (c_mask st)
                      (Z.land (c_r st + 1) (n - 1)) (Z.land (c_s st + 1) (n - 1))
                      (c_dataLen st) (c_srcPos st + 1))) Hc Hsrc)
      as (sp' & Erun & Hc1 & Hm1).
    cbn zeta in Hc1, Hm1.
    destruct (IH (i + 1) _ (t + 1) True Hc1 (fun _ => Hm1))
      as (st' & i' & Hrun & Hle & Hup & Hc' & Hm' & Hsp & Hout); [lia |].
    exists st', i'. split; [exact (eq_trans Erun Hrun) |].
    split; [lia |]. split; [lia |].
    replace (t + (i' - i)) with (t + 1 + (i' - (i + 1))) by lia.
    split; [exact Hc' |]. split; [intros _; apply Hm'; left; exact I |].
    split; [exact Hsp |].
    destruct Hout as (H1 & H2 & H3 & H4).
    cbn [c_dst c_codeBuf c_codeBufPtr c_mask] in *. repeat split; assumption.
  - exists st, i. split; [reflexivity |]. split; [lia |]. split; [right; reflexivity |].
    replace (t + (i - i)) with t by lia. split; [exact Hc |].
    split; [intros [H | H]; [apply Hm; exact H | lia] |].
    split; [| apply out_same_refl].
    intros HiL. apply andb_false_iff in Hcond. destruct Hcond as [H | H].
    + apply Z.ltb_ge in H. lia.
    + apply Z.ltb_ge in H. exact H.
Qed.

Lemma advanceDrain_spec src L : forall fuel i st t (P : Prop),
  enc_core src t st -> (P -> match_part t st) ->
  (i < L -> srcLen src <= c_srcPos st /\ L - i <= c_dataLen st) ->
  (Z.to_nat (L - i) < fuel)%nat ->
  exists st',
    advanceDrain fuel L i st = Ok st' /\
    enc_core src (t + Z.max 0 (L - i)) st' /\
    (P \/ i < L -> match_part (t + Z.max 0 (L - i)) st') /\
    out_same st st'.
Proof.
  induction fuel as [| fuel IH]; intros i st t P Hc Hm Hpre Hfuel; [lia |].
  cbn [advanceDrain].
  destruct (Z.ltb_spec i L) as [HiL | HiL].
  - destruct (Hpre HiL) as [Hsrc Hdl].
    destruct (drain_step src st t
                (fun sp => advanceDrain fuel L (i + 1)
                   (mkComp sp (c_dst st) (c_codeBuf st) (c_codeBufPtr st) (c_mask st)
                      (Z.land (c_r st + 1) (n - 1)) (Z.land (c_s st + 1) (n - 1))
                      (c_dataLen st - 1) (c_srcPos st))) Hc Hsrc)
      as (sp' & Erun & Hc1 & Hm1); [lia |].
    cbn zeta in Hc1, Hm1.
    destruct (IH (i + 1) _ (t + 1) True Hc1 (fun _ => Hm1))
      as (st' & Hrun & Hc' & Hm' & Hout).
    { cbn [c_srcPos c_dataLen]. lia. }
    { lia. }
    exists st'. split; [exact (eq_trans Erun Hrun) |].
    replace (t + Z.max 0 (L - i)) with (t + 1 + Z.max 0 (L - (i + 1))) by lia.
    split; [exact Hc' |]. split.
    + intros _. apply Hm'. left. exact I.
    + destruct Hout as (H1 & H2 & H3 & H4).
      cbn [c_dst c_codeBuf c_codeBufPtr c_mask] in *. repeat split; assumption.
  - exists st. split; [reflexivity |].
    replace (t + Z.max 0 (L - i)) with t by lia. split; [exact Hc |].
    split; [| apply out_same_refl].
    intros [H | H]; [apply Hm; exact H | lia].
Qed.

(** * Tokens, groups and the code buffer *)

(** ** Control bytes *)

Lemma lor_pow2 a k : 0 <= k -> 0 <= a < 2 ^ k -> Z.lor a (2 ^ k) = a + 2 ^ k.
Proof.
  intros Hk Ha.
  assert (H0 : Z.land a (2 ^ k) = 0); [| rewrite <- Z.lxor_lor, Z.add_nocarry_lxor; auto].
  apply Z.bits_inj'. intros i Hi. rewrite Z.land_spec, Z.bits_0.
  rewrite Z.pow2_bits_eqb by assumption.
  destruct (Z.eqb_spec k i) as [<- | Hne]; [| apply andb_false_r].
  rewrite andb_true_r. destruct (Z.eq_dec a 0) as [-> | Hnz]; [apply Z.bits_0 |].
  apply Z.bits_above_log2; [lia |]. apply Z.log2_lt_pow2; lia.
Qed.

Lemma ctrl_range g : 0 <= ctrl g < 2 ^ Z.of_nat (length g).
Proof.
  induction g as [| k g IH]; cbn [ctrl length]; [cbn; lia |].
  rewrite Nat2Z.inj_succ, Z.pow_succ_r by lia.
  destruct (is_lit k); lia.
Qed.

Lemma ctrl_snoc g k :
  ctrl (g ++ [k]) = ctrl g + (if is_lit k then 1 else 0) * 2 ^ Z.of_nat (length g).
Proof.
  induction g as [| k' g IH]; cbn [ctrl app length].
  - cbn. destruct (is_lit k); reflexivity.
  - rewrite IH, Nat2Z.inj_succ, Z.pow_succ_r by lia. ring.
Qed.

Lemma ctrl_byte g : (length g <= 8)%nat -> b2z (z2b (ctrl g)) = ctrl g.
Proof.
  intros Hg. apply b2z_z2b_small. pose proof (ctrl_range g) as H.
  assert (2 ^ Z.of_nat (length g) <= 2 ^ 8) by (apply Z.pow_le_mono_r; lia).
  change (2 ^ 8) with 256 in *. lia.
Qed.

(** ** Groups *)

Lemma groups_fuel : forall fuel1 fuel2 toks,
  (length toks <= fuel1)%nat -> (length toks <= fuel2)%nat ->
  groups fuel1 toks = groups fuel2 toks.
Proof.
  induction fuel1 as [| fuel1 IH]; intros fuel2 toks H1 H2.
  - destruct toks; [| cbn in H1; lia]. destruct fuel2; reflexivity.
  - destruct fuel2 as [| fuel2].
    + destruct toks; [reflexivity | cbn in H2; lia].
    + cbn [groups]. destruct toks as [| k toks]; [reflexivity |].
      f_equal. apply IH.
      * rewrite length_skipn. cbn [length] in *. lia.
      * rewrite length_skipn. cbn [length] in *. lia.
Qed.

Lemma pack_nil : pack [] = [].
Proof. reflexivity. Qed.

Lemma groups_S fuel toks :
  toks <> [] -> groups (S fuel) toks = firstn 8 toks :: groups fuel (skipn 8 toks).
Proof. destruct toks; [contradiction | reflexivity]. Qed.

Lemma pack_cons8 g rest :
  length g = 8%nat -> pack (g ++ rest) = group_bytes g ++ pack rest.
Proof.
  intros Hg. unfold pack. rewrite length_app, Hg.
  replace (8 + length rest)%nat with (S (7 + length rest)) by lia.
  rewrite groups_S by (destruct g; discriminate).
  rewrite firstn_app, skipn_app, Hg, Nat.sub_diag, firstn_O, skipn_O, app_nil_r.
  rewrite firstn_all2, skipn_all2 by lia. rewrite app_nil_l.
  cbn [flat_map]. f_equal. f_equal. apply groups_fuel; lia.
Qed.

Lemma pack_small g :
  (0 < length g <= 8)%nat -> pack g = group_bytes g.
Proof.
  intros Hg. unfold pack. destruct (length g) as [| m] eqn:E; [lia |].
  rewrite groups_S by (destruct g; [discriminate E | discriminate]).
  rewrite firstn_all2, skipn_all2 by lia.
  destruct m; cbn [groups flat_map]; apply app_nil_r.
Qed.

Lemma pack_app_full : forall q full rest,
  length full = (8 * q)%nat -> pack (full ++ rest) = pack full ++ pack rest.
Proof.
  induction q as [| q IH]; intros full rest Hlen.
  - destruct full; [reflexivity | cbn in Hlen; lia].
  - assert (Hg : length (firstn 8 full) = 8%nat) by (rewrite length_firstn; lia).
    rewrite <- (firstn_skipn 8 full) at 1 2.
    rewrite <- app_assoc.
    rewrite (pack_cons8 _ (skipn 8 full ++ rest) Hg), (pack_cons8 _ (skipn 8 full) Hg).
    rewrite IH by (rewrite length_skipn; lia).
    apply app_assoc.
Qed.

(** ** The code buffer *)

Lemma holds_snoc cb l b :
  holds cb l -> holds (upd cb (Z.of_nat (length l)) b) (l ++ [b]).
Proof.
  intros H i Hi. rewrite length_app in Hi. cbn [length] in Hi. unfold upd.
  destruct (Z.eqb_spec (Z.of_nat i) (Z.of_nat (length l))) as [E | E].
  - apply Nat2Z.inj in E. subst i. rewrite nth_middle. reflexivity.
  - rewrite app_nth1 by lia. apply H. lia.
Qed.

Lemma holds_head cb x y l :
  holds cb (x :: l) -> holds (upd cb 0 y) (y :: l).
Proof.
  intros H i Hi. unfold upd. destruct i as [| i].
  - reflexivity.
  - destruct (Z.eqb_spec (Z.of_nat (S i)) 0); [lia |]. apply (H (S i)). exact Hi.
Qed.

Lemma flush_from : forall l fuel cb a dst,
  (forall i, (i < length l)%nat -> cb (a + Z.of_nat i) = nth i l x00) ->
  0 <= a -> a + Z.of_nat (length l) <= 17 -> (length l < fuel)%nat ->
  flush fuel cb (a + Z.of_nat (length l)) a dst = Ok (dst ++ l).
Proof.
  induction l as [| b l IH]; intros fuel cb a dst H Ha Hle Hfuel.
  - destruct fuel; [cbn in Hfuel; lia |]. cbn [flush length].
    rewrite Z.add_0_r, Z.ltb_irrefl, app_nil_r. reflexivity.
  - destruct fuel; [lia |]. cbn [length] in *. cbn [flush].
    replace (a <? a + Z.of_nat (S (length l))) with true by (symmetry; apply Z.ltb_lt; lia).
    rewrite aget_ok by lia. cbn [bind].
    replace (a + Z.of_nat (S (length l))) with (a + 1 + Z.of_nat (length l)) by lia.
    rewrite IH.
    + rewrite <- app_assoc. do 2 f_equal. cbn [app].
      f_equal. rewrite <- (Z.add_0_r a). apply (H O). lia.
    + intros i Hi. replace (a + 1 + Z.of_nat i) with (a + Z.of_nat (S i)) by lia.
      apply (H (S i)). lia.
    + lia.
    + lia.
    + lia.
Qed.

Lemma flush_holds cb l dst :
  holds cb l -> (length l <= 17)%nat ->
  flush 18 cb (Z.of_nat (length l)) 0 dst = Ok (dst ++ l).
Proof.
  intros H Hl. apply (flush_from l 18 cb 0 dst); [exact H | lia | lia | lia].
Qed.

(** ** Token lists *)

Lemma span_app a b : span (a ++ b) = span a + span b.
Proof.
  unfold span. induction a as [| k a IH]; cbn [app fold_right]; [reflexivity |].
  rewrite IH. ring.
Qed.

Lemma toks_ok_app src : forall a t b,
  toks_ok src t (a ++ b) <-> toks_ok src t a /\ toks_ok src (t + span a) b.
Proof.
  induction a as [| k a IH]; intros t b; cbn [app toks_ok].
  - unfold span. cbn [fold_right]. rewrite Z.add_0_r. tauto.
  - rewrite IH. unfold span. cbn [fold_right]. fold (span a).
    rewrite Z.add_assoc. tauto.
Qed.

Lemma tok_len_pos src t k : tok_ok src t k -> 1 <= tok_len k.
Proof.
  destruct k as [b | p l]; cbn [tok_ok tok_len]; [lia |].
  intros (Hl & _). clia.
Qed.

Lemma tok_bytes_length k : (1 <= length (tok_bytes k) <= 2)%nat.
Proof. destruct k; cbn; lia. Qed.

Lemma flat_bytes_length g :
  (length (flat_map tok_bytes g) <= 2 * length g)%nat.
Proof.
  induction g as [| k g IH]; cbn [flat_map length]; [lia |].
  rewrite length_app. pose proof (tok_bytes_length k). lia.
Qed.

(** * Emitting a token *)

Lemma mask_shift j :
  (j < 8)%nat ->
  (Z.shiftl (2 ^ Z.of_nat j) 1) mod 256 =
    if (j =? 7)%nat then 0 else 2 ^ Z.of_nat (S j).
Proof.
  intros Hj. do 8 (destruct j as [| j]; [reflexivity |]). lia.
Qed.

Lemma pow2_nonzero j : 2 ^ Z.of_nat j <> 0.
Proof. apply Z.pow_nonzero; lia. Qed.

Lemma group_bytes_snoc cur k :
  group_bytes (cur ++ [k]) =
  z2b (ctrl (cur ++ [k])) :: flat_map tok_bytes cur ++ tok_bytes k.
Proof.
  unfold group_bytes. rewrite flat_map_app. cbn [flat_map]. rewrite app_nil_r.
  reflexivity.
Qed.

Lemma group_bytes_length g :
  (1 <= length (group_bytes g) <= 1 + 2 * length g)%nat.
Proof.
  unfold group_bytes. cbn [length]. pose proof (flat_bytes_length g). lia.
Qed.

Lemma enc_core_transfer src t st st' :
  enc_core src t st ->
  c_r st' = c_r st -> c_s st' = c_s st -> c_dataLen st' = c_dataLen st ->
  c_srcPos st' = c_srcPos st ->
  lchild (c_sp st') = lchild (c_sp st) -> rchild (c_sp st') = rchild (c_sp st) ->
  parent (c_sp st') = parent (c_sp st) -> textBuf (c_sp st') = textBuf (c_sp st) ->
  enc_core src t st'.
Proof.
  intros (Ht & Hr & Hs & Hd & Hp & (fo & Hf & Hw) & Htx) Er Es Ed Ep EL ER EP ET.
  unfold enc_core. rewrite Er, Es, Ed, Ep, ET.
  split; [exact Ht |]. split; [exact Hr |]. split; [exact Hs |].
  split; [exact Hd |]. split; [exact Hp |]. split; [| exact Htx].
  exists fo. split; [| exact Hw].
  apply (forest_ok_text (c_sp st)); try assumption.
  intros x j _ _. rewrite ET. reflexivity.
Qed.

(** The end of [emitToken]: the mask is shifted and a full group flushed. *)
Lemma emit_tail st sp cb full cur k :
  (exists q, length full = (8 * q)%nat) -> (length cur < 8)%nat ->
  c_dst st = pack full -> c_mask st = 2 ^ Z.of_nat (length cur) ->
  holds cb (group_bytes (cur ++ [k])) ->
  exists st',
    (let codeBufPtr := Z.of_nat (length (group_bytes (cur ++ [k]))) in
     let mask := (Z.shiftl (c_mask st) 1) mod 256 in
     if mask =? 0 then
       dst <- flush 18 cb codeBufPtr 0 (c_dst st) ;;
       codeBuf <- aset 17 cb 0 x00 ;;
       Ok (mkComp sp dst codeBuf 1 1 (c_r st) (c_s st) (c_dataLen st) (c_srcPos st))
     else
       Ok (mkComp sp (c_dst st) cb codeBufPtr mask (c_r st) (c_s st)
                  (c_dataLen st) (c_srcPos st))) = Ok st' /\
    out_inv ((full ++ cur) ++ [k]) st' /\
    c_sp st' = sp /\ c_r st' = c_r st /\ c_s st' = c_s st /\
    c_dataLen st' = c_dataLen st /\ c_srcPos st' = c_srcPos st.
Proof.
  intros [q Hq] Hcur Hdst Hmask Hh. cbn zeta.
  rewrite Hmask, mask_shift by exact Hcur.
  assert (Hlen : length (cur ++ [k]) = S (length cur)).
  { rewrite length_app. cbn [length]. lia. }
  pose proof (group_bytes_length (cur ++ [k])) as Hgl.
  destruct (Nat.eqb_spec (length cur) 7) as [E7 | N7].
  - cbn [Z.eqb]. rewrite flush_holds by (exact Hh || lia). cbn [bind].
    rewrite aset_ok by lia. cbn [bind]. eexists. split; [reflexivity |].
    split; [| cbn [c_sp c_r c_s c_dataLen c_srcPos]; auto].
    exists (full ++ cur ++ [k]), []. cbn [c_dst c_mask c_codeBufPtr c_codeBuf].
    split; [rewrite app_nil_r, app_assoc; reflexivity |].
    split; [exists (S q); rewrite !length_app; cbn [length]; lia |].
    split; [cbn; lia |].
    split; [rewrite Hdst, (pack_app_full q) by exact Hq; f_equal;
            symmetry; apply pack_small; lia |].
    split; [reflexivity |]. split; [reflexivity |].
    intros i Hi. cbn in Hi. assert (i = O) by lia. subst i. reflexivity.
  - destruct (Z.eqb_spec (2 ^ Z.of_nat (S (length cur))) 0) as [E0 | _];
      [exfalso; exact (pow2_nonzero _ E0) |].
    eexists. split; [reflexivity |].
    split; [| cbn [c_sp c_r c_s c_dataLen c_srcPos]; auto].
    exists full, (cur ++ [k]). cbn [c_dst c_mask c_codeBufPtr c_codeBuf].
    split; [symmetry; apply app_assoc |].
    split; [exists q; exact Hq |].
    split; [lia |]. split; [exact Hdst |].
    split; [rewrite Hlen; reflexivity |]. split; [reflexivity | exact Hh].
Qed.

Lemma emitted_ok src t st :
  enc_core src t st -> match_part t st -> 0 < c_dataLen st ->
  tok_ok src t (emitted st) /\ 1 <= tok_len (emitted st) <= c_dataLen st.
Proof.
  intros (Ht & Hr & Hs & Hd & Hp & Hfo & Htx) Hm Hpos.
  destruct (Hm Hpos) as [Hml Hmatch]. unfold emitted. cbn zeta.
  destruct (Z.leb_spec (Z.min (matchLength (c_sp st)) (c_dataLen st)) threshold) as [Hle | Hgt].
  - cbn [tok_ok tok_len]. split; [| lia]. split; [lia |].
    rewrite Hr. rewrite <- (Z.add_0_r (rpos t)) at 1.
    rewrite (text_raw src _ _ t 0 Htx) by clia. f_equal. lia.
  - cbn [tok_ok tok_len]. split; [| clia].
    destruct Hmatch as [(d & Hd1 & Hd2 & Hmp) Hag]; [clia |].
    split; [clia |]. split; [lia |].
    exists d. split; [exact Hd1 |]. split; [exact Hd2 |]. split; [exact Hmp |].
    intros k Hk.
    rewrite <- (text_raw src _ _ (t - d) k Htx) by clia.
    rewrite <- (text_raw src _ _ t k Htx) by clia.
    rewrite <- Hmp, <- Hr. apply Hag. lia.
Qed.

Lemma emitToken_run st toks :
  out_inv toks st -> 0 <= c_r st < n ->
  exists st',
    emitToken st = Ok st' /\
    out_inv (toks ++ [emitted st]) st' /\
    matchLength (c_sp st') = tok_len (emitted st) /\
    c_r st' = c_r st /\ c_s st' = c_s st /\
    c_dataLen st' = c_dataLen st /\ c_srcPos st' = c_srcPos st /\
    lchild (c_sp st') = lchild (c_sp st) /\ rchild (c_sp st') = rchild (c_sp st) /\
    parent (c_sp st') = parent (c_sp st) /\ textBuf (c_sp st') = textBuf (c_sp st).
Proof.
  intros (full & cur & -> & Hq & Hcur & Hdst & Hmask & Hptr & Hh) Hr.
  unfold emitToken. cbv zeta.
  set (sp1 := if matchLength (c_sp st) >? c_dataLen st then _ else _).
  assert (Hsp1 : matchLength sp1 = Z.min (matchLength (c_sp st)) (c_dataLen st) /\
                 matchPosition sp1 = matchPosition (c_sp st) /\
                 lchild sp1 = lchild (c_sp st) /\ rchild sp1 = rchild (c_sp st) /\
                 parent sp1 = parent (c_sp st) /\ textBuf sp1 = textBuf (c_sp st)).
  { unfold sp1. destruct (Z.gtb_spec (matchLength (c_sp st)) (c_dataLen st));
      cbn [setMatch matchLength matchPosition lchild rchild parent textBuf];
      repeat split; lia. }
  destruct Hsp1 as (Hml1 & Hmp1 & HL1 & HR1 & HP1 & HT1).
  pose proof (group_bytes_length cur) as Hgl.
  unfold emitted. cbn zeta. rewrite <- Hml1.
  destruct (Z.leb_spec (matchLength sp1) threshold) as [Hle | Hgt].
  - rewrite aget_ok by lia. cbn [bind]. rewrite aset_ok by lia. cbn [bind].
    unfold getT. cbn [setMatch textBuf]. rewrite aget_ok by clia. cbn [bind].
    rewrite aset_ok by lia. cbn [bind].
    rewrite HT1. set (k := Lit (textBuf (c_sp st) (c_r st))).
    set (cb := upd (upd _ _ _) _ _).
    assert (Hh' : holds cb (group_bytes (cur ++ [k]))).
    { rewrite group_bytes_snoc. unfold cb. rewrite Hptr.
      change (z2b (ctrl (cur ++ [k])) :: flat_map tok_bytes cur ++ tok_bytes k)
        with ((z2b (ctrl (cur ++ [k])) :: flat_map tok_bytes cur) ++ [textBuf (c_sp st) (c_r st)]).
      replace (length (group_bytes cur))
        with (length (z2b (ctrl (cur ++ [k])) :: flat_map tok_bytes cur)) by reflexivity.
      apply holds_snoc.
      replace (z2b (Z.lor (b2z (c_codeBuf st 0)) (c_mask st)))
        with (z2b (ctrl (cur ++ [k]))).
      - eapply holds_head. exact Hh.
      - f_equal. change 0 with (Z.of_nat 0) at 1. rewrite (Hh O) by lia.
        cbn [group_bytes nth].
        rewrite ctrl_byte by lia. rewrite Hmask, lor_pow2 by (lia || apply ctrl_range).
        rewrite ctrl_snoc. cbn [k is_lit]. lia. }
    replace (c_codeBufPtr st + 1) with (Z.of_nat (length (group_bytes (cur ++ [k])))).
    2:{ rewrite group_bytes_snoc, Hptr. unfold group_bytes. cbn [length k tok_bytes].
        rewrite length_app. cbn [length]. lia. }
    destruct (emit_tail st (setMatch sp1 (matchPosition sp1) 1) cb full cur k
                Hq Hcur Hdst Hmask Hh')
      as (st' & Erun & Hout & Esp & Er & Es & Ed & Ep).
    exists st'. split; [exact Erun |]. split; [exact Hout |].
    rewrite Esp. cbn [setMatch matchLength lchild rchild parent textBuf tok_len k].
    repeat split; assumption.
  - rewrite aset_ok by lia. cbn [bind]. rewrite aset_ok by lia. cbn [bind].
    rewrite Hmp1. set (k := Ref (matchPosition (c_sp st)) (matchLength sp1)).
    set (cb := upd (upd _ _ _) _ _).
    assert (Hh' : holds cb (group_bytes (cur ++ [k]))).
    { rewrite group_bytes_snoc. unfold cb. rewrite Hptr.
      replace (ctrl (cur ++ [k])) with (ctrl cur)
        by (rewrite ctrl_snoc; cbn [k is_lit]; lia).
      replace (z2b (ctrl cur) :: flat_map tok_bytes cur ++ tok_bytes k)
        with ((group_bytes cur ++ [z2b (matchPosition (c_sp st))]) ++
              [z2b (Z.lor (Z.land (Z.shiftr (matchPosition (c_sp st)) 4) 240)
                      (matchLength sp1 - (threshold + 1)))])
        by (unfold group_bytes; cbn [k tok_bytes app]; rewrite <- app_assoc; reflexivity).
      replace (Z.of_nat (length (group_bytes cur)) + 1)
        with (Z.of_nat (length (group_bytes cur ++ [z2b (matchPosition (c_sp st))])))
        by (rewrite length_app; cbn [length]; lia).
      apply holds_snoc. apply holds_snoc. exact Hh. }
    replace (c_codeBufPtr st + 1 + 1) with (Z.of_nat (length (group_bytes (cur ++ [k])))).
    2:{ rewrite group_bytes_snoc, Hptr. unfold group_bytes. cbn [length k tok_bytes].
        rewrite length_app. cbn [length]. lia. }
    destruct (emit_tail st sp1 cb full cur k Hq Hcur Hdst Hmask Hh')
      as (st' & Erun & Hout & Esp & Er & Es & Ed & Ep).
    exists st'. split; [exact Erun |]. split; [exact Hout |].
    rewrite Esp. cbn [tok_len k].
    repeat split; assumption.
Qed.

(** * The run of [Compress] *)

(** ** The initial state *)

Lemma forest_ok_init : forest_ok initState (fun _ => Leaf).
Proof.
  split.
  - intros c Hc. split; [| split].
    + split; [| exact I]. unfold ptr. cbn [fst snd rchild initState root_of].
      replace (n + 1 <=? n + 1 + c) with true by (symmetry; apply Z.leb_le; lia).
      replace (n + 1 + c <=? n + 256) with true by (symmetry; apply Z.leb_le; lia).
      reflexivity.
    + exact I.
    + intros x [].
  - intros p Hp Hne. exfalso. apply Hne. cbn [parent initState].
    replace (0 <=? p) with true by (symmetry; apply Z.leb_le; lia).
    replace (p <? n) with true by (symmetry; apply Z.ltb_lt; lia).
    reflexivity.
Qed.

Lemma not_held_init x : ~ held (fun _ => Leaf) x.
Proof. intros (c & _ & []). Qed.

Lemma text_ok_init src : text_ok src 0 (textBuf initState).
Proof.
  split.
  - intros x Hx. symmetry. apply ring_init. exact Hx.
  - intros j Hj Hm. clia.
Qed.

Lemma readAhead_spec src : forall fuel sp dl,
  text_ok src dl (textBuf sp) -> 0 <= dl <= f -> dl <= srcLen src ->
  (Z.to_nat (f - dl) < fuel)%nat ->
  exists sp',
    readAhead fuel src sp (n - f) dl dl =
      Ok (sp', Z.min f (srcLen src), Z.min f (srcLen src)) /\
    lchild sp' = lchild sp /\ rchild sp' = rchild sp /\ parent sp' = parent sp /\
    text_ok src (Z.min f (srcLen src)) (textBuf sp').
Proof.
  induction fuel as [| fuel IH]; intros sp dl Htx Hdl Hlen Hfuel; [lia |].
  cbn [readAhead]. fold (srcLen src).
  destruct ((dl <? f) && (dl <? srcLen src)) eqn:Hcond.
  - apply andb_true_iff in Hcond. destruct Hcond as [H1 H2].
    apply Z.ltb_lt in H1. apply Z.ltb_lt in H2.
    rewrite getSrc_ok by lia. cbn [bind]. rewrite setT_ok by clia. cbn [bind].
    destruct (IH (mkState (lchild sp) (rchild sp) (parent sp)
                    (upd (textBuf sp) (n - f + dl) (txt src dl))
                    (matchPosition sp) (matchLength sp)) (dl + 1))
      as (sp' & Hrun & HL & HR & HP & Htx'); [| lia | lia | lia |].
    + cbn [textBuf].
      pose proof (text_ok_write src dl (textBuf sp) (txt src dl) (proj1 Hdl) Htx eq_refl) as Hw.
      rewrite rpos_small in Hw by clia.
      replace (n - f + dl <? f - 1) with false in Hw by (symmetry; apply Z.ltb_ge; clia).
      exact Hw.
    + exists sp'. split; [exact Hrun |]. auto.
  - exists sp. apply andb_false_iff in Hcond.
    assert (E : dl = Z.min f (srcLen src)).
    { destruct Hcond as [H | H]; apply Z.ltb_ge in H; lia. }
    rewrite <- E. auto.
Qed.

Lemma insertSpaces_spec : forall fuel i sp fo,
  forest_ok sp fo -> 1 <= i <= f + 1 ->
  (forall x, held fo x -> exists d, 1 <= d < i /\ x = rpos (- d)) ->
  (Z.to_nat (f + 1 - i) < fuel)%nat ->
  exists sp' fo',
    insertSpaces fuel sp (n - f) i = Ok sp' /\ forest_ok sp' fo' /\
    textBuf sp' = textBuf sp /\
    (forall x, held fo' x -> exists d, 1 <= d <= f /\ x = rpos (- d)).
Proof.
  induction fuel as [| fuel IH]; intros i sp fo Hf Hi Hh Hfuel; [lia |].
  cbn [insertSpaces]. destruct (Z.leb_spec i f) as [Hle | Hgt].
  - replace (n - f - i) with (rpos (- i)) by (rewrite rpos_small; clia).
    destruct (insert_held sp fo (rpos (- i)) Hf (rpos_range _))
      as (sp1 & fo1 & Hrun & Hf1 & HT1 & Hsub & _).
    { intros Hx. destruct (Hh _ Hx) as (d & Hd & E). apply rpos_eq in E; clia. }
    rewrite Hrun. cbn [bind].
    destruct (IH (i + 1) sp1 fo1 Hf1) as (sp' & fo' & Hrun' & Hf' & HT' & Hh'); [lia | | lia |].
    + intros x Hx. destruct (Hsub x Hx) as [-> | Hold].
      * exists i. split; [lia | reflexivity].
      * destruct (Hh x Hold) as (d & Hd & E). exists d. split; [lia | exact E].
    + exists sp', fo'. split; [exact Hrun' |]. split; [exact Hf' |].
      split; [congruence | exact Hh'].
  - exists sp, fo. split; [reflexivity |]. split; [exact Hf |]. split; [reflexivity |].
    intros x Hx. destruct (Hh x Hx) as (d & Hd & E). exists d. split; [lia | exact E].
Qed.

Lemma out_inv_init st :
  c_dst st = [] -> c_codeBuf st = upd (fun _ => x00) 0 x00 ->
  c_codeBufPtr st = 1 -> c_mask st = 1 -> out_inv [] st.
Proof.
  intros Hd Hc Hp Hm. exists [], []. split; [reflexivity |].
  split; [exists O; reflexivity |]. split; [cbn; lia |].
  split; [exact Hd |]. split; [exact Hm |]. split; [exact Hp |].
  intros i Hi. cbn in Hi. assert (i = O) by lia. subst i. rewrite Hc. reflexivity.
Qed.

Lemma compressInit_spec src :
  0 < srcLen src ->
  exists st, compressInit src = Ok (Some st) /\ head_inv src [] st.
Proof.
  intros Hlen. unfold compressInit. cbv zeta.
  destruct (readAhead_spec src (Z.to_nat (f + 1)) initState 0 (text_ok_init src))
    as (sp1 & Hrun1 & HL1 & HR1 & HP1 & Htx1); [clia | lia | clia |].
  rewrite Hrun1. cbn [bind].
  destruct (Z.eqb_spec (Z.min f (srcLen src)) 0) as [E | _]; [clia |].
  assert (Hf1 : forest_ok sp1 (fun _ => Leaf)).
  { apply (forest_ok_text initState); [apply forest_ok_init | assumption..|].
    intros x j Hx. destruct (not_held_init _ Hx). }
  destruct (insertSpaces_spec (Z.to_nat (f + 1)) 1 sp1 _ Hf1)
    as (sp2 & fo2 & Hrun2 & Hf2 & HT2 & Hh2); [clia | | clia |].
  { intros x Hx. destruct (not_held_init _ Hx). }
  rewrite Hrun2. cbn [bind].
  assert (E0 : rpos 0 = n - f) by (rewrite rpos_small; clia).
  destruct (insert_held sp2 fo2 (rpos 0) Hf2 (rpos_range _))
    as (sp3 & fo3 & Hrun3 & Hf3 & HT3 & Hsub3 & Hm3).
  { intros Hx. destruct (Hh2 _ Hx) as (d & Hd & E). apply rpos_eq in E; clia. }
  rewrite E0 in Hrun3. rewrite Hrun3. cbn [bind]. eexists. split; [reflexivity |].
  unfold head_inv. change (span []) with 0.
  split; [| split; [| split; [| split]]].
  - unfold enc_core. cbn [c_sp c_r c_s c_dataLen c_srcPos].
    split; [lia |]. split; [symmetry; exact E0 |].
    split; [rewrite rpos_f; reflexivity |]. split; [f_equal; lia |]. split; [lia |].
    split.
    + exists fo3. split; [exact Hf3 |]. intros x Hx.
      destruct (Hsub3 x Hx) as [-> | Hold].
      * exists 0. split; [clia |]. split; [clia | reflexivity].
      * destruct (Hh2 x Hold) as (d & Hd & E). exists d.
        split; [clia |]. split; [clia | exact E].
    + rewrite HT3, HT2. exact Htx1.
  - intros _. cbn [c_sp c_r]. rewrite <- E0.
    eapply match_ok_weaken; [| exact Hm3].
    intros y Hy. destruct (Hh2 y Hy) as (d & Hd & E). exists d.
    split; [clia |]. split; [clia | exact E].
  - apply out_inv_init; reflexivity.
  - exact I.
  - cbn [c_dataLen]. clia.
Qed.

(** ** The main loop *)

Lemma out_inv_same toks st st' : out_same st st' -> out_inv toks st -> out_inv toks st'.
Proof.
  intros (E1 & E2 & E3 & E4) (full & cur & H). exists full, cur.
  rewrite E1, E2, E3, E4. exact H.
Qed.

Lemma span_snoc toks k : span (toks ++ [k]) = span toks + tok_len k.
Proof. rewrite span_app. unfold span at 2. cbn [fold_right]. lia. Qed.

(** [j] steps of the advancing loops. *)
Lemma advance_spec src t st j :
  enc_core src t st -> 0 <= j <= c_dataLen st ->
  exists st',
    advance src j st = Ok st' /\
    enc_core src (t + j) st' /\
    (0 < j -> match_part (t + j) st') /\
    out_same st st'.
Proof.
  intros Hc Hj. pose proof Hc as (Ht & _ & _ & Hd & _).
  unfold advance.
  destruct (advanceRead_spec src j (Z.to_nat (f + 1)) 0 st t False Hc)
    as (st2 & i' & Hrun2 & Hi0 & HiL & Hc2 & Hm2 & Hsrc2 & Hsame2);
    [tauto | clia |].
  rewrite Hrun2. cbn [bind].
  pose proof Hc2 as (_ & _ & _ & Hd2 & _).
  destruct (advanceDrain_spec src j (Z.to_nat (f + 1)) i' st2 _ (0 < i') Hc2)
    as (st3 & Hrun3 & Hc3 & Hm3 & Hsame3).
  { intros H. apply Hm2. right. lia. }
  { intros H. split; [apply Hsrc2; exact H | lia]. }
  { clia. }
  exists st3. split; [exact Hrun3 |].
  replace (t + (i' - 0) + Z.max 0 (j - i')) with (t + j) in * by lia.
  split; [exact Hc3 |]. split; [intros Hpos; apply Hm3; lia |].
  destruct Hsame2 as (A1 & A2 & A3 & A4). destruct Hsame3 as (B1 & B2 & B3 & B4).
  unfold out_same. rewrite B1, B2, B3, B4. auto.
Qed.

Lemma encodeStep_spec src toks st :
  head_inv src toks st ->
  exists st',
    encodeStep src st = Ok st' /\
    enc_core src (span (toks ++ [emitted st])) st' /\
    match_part (span (toks ++ [emitted st])) st' /\
    out_inv (toks ++ [emitted st]) st' /\
    toks_ok src 0 (toks ++ [emitted st]) /\
    span toks < span (toks ++ [emitted st]).
Proof.
  intros (Hc & Hm & Hout & Htoks & Hpos).
  pose proof Hc as (Ht & Hr & Hs & Hd & Hp & _ & _).
  destruct (emitted_ok src _ st Hc Hm Hpos) as [Hk HL].
  destruct (emitToken_run st toks Hout) as
    (st1 & Hrun1 & Hout1 & HL1 & Er & Es & Ed & Ep & EL & ER & EP & ET).
  { rewrite Hr. apply rpos_range. }
  assert (Hc1 : enc_core src (span toks) st1) by (eapply enc_core_transfer; eassumption).
  unfold encodeStep. rewrite Hrun1. cbn [bind]. cbv zeta. rewrite HL1.
  destruct (advance_spec src (span toks) st1 (tok_len (emitted st)) Hc1)
    as (st3 & Hrun3 & Hc3 & Hm3 & Hsame3); [lia |].
  rewrite Hrun3. exists st3. split; [reflexivity |].
  rewrite span_snoc.
  split; [exact Hc3 |]. split; [apply Hm3; lia |].
  split; [eapply out_inv_same; eassumption |].
  split; [| lia].
  apply toks_ok_app. split; [exact Htoks |]. cbn [toks_ok]. rewrite Z.add_0_l.
  split; [exact Hk | exact I].
Qed.

Lemma encodeStep_head src toks st :
  head_inv src toks st ->
  exists st' toks',
    encodeStep src st = Ok st' /\ span toks < span toks' /\
    enc_core src (span toks') st' /\ out_inv toks' st' /\ toks_ok src 0 toks' /\
    (0 < c_dataLen st' -> head_inv src toks' st').
Proof.
  intros H. destruct (encodeStep_spec src toks st H) as (st' & Hrun & Hc & Hm & Ho & Ht & Hs).
  exists st', (toks ++ [emitted st]).
  split; [exact Hrun |]. split; [exact Hs |]. split; [exact Hc |].
  split; [exact Ho |]. split; [exact Ht |].
  intros Hpos. exact (conj Hc (conj Hm (conj Ho (conj Ht Hpos)))).
Qed.

Lemma encodeLoop_spec src : forall fuel toks st,
  head_inv src toks st -> (Z.to_nat (srcLen src - span toks) <= fuel)%nat ->
  exists st' toks',
    encodeLoop fuel src st = Ok st' /\
    out_inv toks' st' /\ toks_ok src 0 toks' /\ span toks' = srcLen src.
Proof.
  induction fuel as [| fuel IH]; intros toks st Hh Hfuel.
  - destruct Hh as ((Ht & _ & _ & Hd & _) & _ & _ & _ & Hpos). lia.
  - cbn [encodeLoop].
    destruct (encodeStep_head src toks st Hh)
      as (st' & toks' & Hrun & Hs & Hc & Ho & Ht & Hnext).
    rewrite Hrun. cbn [bind].
    destruct (Z.leb_spec (c_dataLen st') 0) as [Hle | Hgt].
    + exists st', toks'. split; [reflexivity |]. split; [exact Ho |].
      split; [exact Ht |]. destruct Hc as (Ht' & _ & _ & Hd & _). clia.
    + apply (IH toks' st' (Hnext Hgt)). lia.
Qed.

Lemma headState_spec src : forall k toks st st',
  head_inv src toks st -> headState k src st = Ok (Some st') ->
  exists toks', head_inv src toks' st'.
Proof.
  induction k as [| k IH]; intros toks st st' Hh Hrun.
  - cbn [headState] in Hrun. injection Hrun as <-. exists toks. exact Hh.
  - cbn [headState] in Hrun.
    destruct (encodeStep_head src toks st Hh)
      as (st1 & toks1 & Hrun1 & _ & _ & _ & _ & Hnext).
    rewrite Hrun1 in Hrun. cbn [bind] in Hrun.
    destruct (Z.leb_spec (c_dataLen st1) 0) as [Hle | Hgt]; [discriminate |].
    exact (IH toks1 st1 st' (Hnext Hgt) Hrun).
Qed.

(** ** The whole of [Compress] *)

Lemma srcLen_nil src : srcLen src = 0 -> src = [].
Proof. unfold srcLen. destruct src; [reflexivity | cbn [length]; lia]. Qed.

Lemma Compress_tokens src :
  exists toks,
    Compress src = Ok (pack toks) /\ toks_ok src 0 toks /\ span toks = srcLen src.
Proof.
  unfold Compress. fold (srcLen src).
  destruct (Z.eqb_spec (srcLen src) 0) as [E | Hne].
  - exists []. split; [reflexivity |]. split; [exact I | symmetry; exact E].
  - assert (Hlen : 0 < srcLen src) by (unfold srcLen in *; lia).
    destruct (compressInit_spec src Hlen) as (st0 & Hinit & Hh0).
    rewrite Hinit. cbn [bind].
    destruct (encodeLoop_spec src (length src) [] st0 Hh0)
      as (st' & toks & Hrun & Hout & Htoks & Hspan).
    { change (span []) with 0. unfold srcLen. lia. }
    rewrite Hrun. cbn [bind]. exists toks.
    split; [| split; assumption].
    destruct Hout as (full & cur & -> & [q Hq] & Hcur & Hdst & Hmask & Hptr & Hh).
    rewrite Hptr, Hdst. pose proof (group_bytes_length cur) as Hgl.
    destruct cur as [| k cur].
    + cbn [group_bytes flat_map length]. cbn. rewrite app_nil_r. reflexivity.
    + replace (Z.of_nat (length (group_bytes (k :: cur))) >? 1) with true.
      * rewrite flush_holds by (exact Hh || cbn [length] in *; lia).
        rewrite (pack_app_full q) by exact Hq.
        rewrite (pack_small (k :: cur)) by (cbn [length] in *; lia). reflexivity.
      * symmetry. apply Z.gtb_lt. unfold group_bytes. cbn [flat_map length].
        rewrite length_app. pose proof (tok_bytes_length k). lia.
Qed.

(** * Decoding the tokens of a source *)

Lemma firstn_succ_txt src t :
  0 <= t < srcLen src ->
  firstn (Z.to_nat (t + 1)) src = firstn (Z.to_nat t) src ++ [txt src t].
Proof.
  unfold srcLen. intros Ht.
  replace (Z.to_nat (t + 1)) with (S (Z.to_nat t)) by lia.
  unfold txt.
  destruct (Z.ltb_spec t (- (n - f))); [clia |].
  destruct (Z.ltb_spec t 0); [lia |].
  assert (Hlt : (Z.to_nat t < length src)%nat) by lia.
  revert Hlt. generalize (Z.to_nat t). clear. intros k. revert src.
  induction k as [| k IH]; intros src Hk.
  - destruct src; [cbn in Hk; lia | reflexivity].
  - destruct src as [| b src]; [cbn in Hk; lia |].
    cbn [length] in Hk. change (firstn (S (S k)) (b :: src)) with (b :: firstn (S k) src).
    rewrite IH by lia. reflexivity.
Qed.

Lemma dinv_start src : dinv src 0 dec_start.
Proof.
  unfold dinv, dec_start. cbn [d_textBuf d_r d_dst decodeInit].
  split; [unfold srcLen; lia |]. split; [| split].
  - intros x Hx. rewrite ring_init by exact Hx. reflexivity.
  - rewrite rpos_small; clia.
  - reflexivity.
Qed.

(** Decoding one byte. *)
Lemma dinv_push src t rg r out :
  dinv src t (rg, r, out) -> t < srcLen src ->
  dinv src (t + 1) (upd rg r (txt src t), (r + 1) mod n, out ++ [txt src t]).
Proof.
  intros (Ht & Hrg & -> & ->) Hlt. split; [lia |]. split; [| split].
  - intros x Hx. rewrite ring_succ by exact Hx. unfold upd.
    destruct (x =? rpos t); [reflexivity | apply Hrg; exact Hx].
  - mlia.
  - symmetry. apply firstn_succ_txt. lia.
Qed.

Lemma copy_spec src d : forall fuel t rg r p out,
  dinv src t (rg, r, out) -> 1 <= d <= n ->
  p mod n = rpos (t - d) ->
  t + Z.of_nat fuel <= srcLen src ->
  (forall k, 0 <= k < Z.of_nat fuel -> txt src (t - d + k) = txt src (t + k)) ->
  dinv src (t + Z.of_nat fuel) (copy fuel rg r p out).
Proof.
  induction fuel as [| fuel IH]; intros t rg r p out Hinv Hd Hp Hlen Hag.
  - cbn [copy]. rewrite Z.add_0_r. exact Hinv.
  - cbn [copy].
    assert (Hc : rg (p mod n) = txt src t).
    { destruct Hinv as (_ & Hrg & _ & _). rewrite Hrg by (apply Z.mod_pos_bound; clia).
      rewrite Hp, ring_rpos by exact Hd.
      replace (t - d) with (t - d + 0) by lia. rewrite (Hag 0) by lia.
      f_equal. lia. }
    rewrite Hc.
    replace (t + Z.of_nat (S fuel)) with (t + 1 + Z.of_nat fuel) by lia.
    apply IH.
    + apply dinv_push; [exact Hinv | lia].
    + exact Hd.
    + mlia.
    + lia.
    + intros k Hk. replace (t + 1 - d + k) with (t - d + (k + 1)) by lia.
      replace (t + 1 + k) with (t + (k + 1)) by lia. apply Hag. lia.
Qed.

Lemma dec_tok_ok src t s k :
  dinv src t s -> tok_ok src t k -> dinv src (t + tok_len k) (dec_tok s k).
Proof.
  destruct s as [[rg r] out]. intros Hinv Hk. destruct k as [b | p l].
  - destruct Hk as [Hlt ->]. cbn [dec_tok tok_len]. apply dinv_push; assumption.
  - destruct Hk as (Hl & Hlen & d & Hd & Hdt & -> & Hag). cbn [dec_tok tok_len].
    replace l with (Z.of_nat (Z.to_nat l)) at 1 by clia.
    apply (copy_spec src d); [exact Hinv | clia | | |].
    + apply Z.mod_small. apply rpos_range.
    + clia.
    + intros k Hk. apply Hag. lia.
Qed.

Lemma dec_toks_ok src : forall toks t s,
  dinv src t s -> toks_ok src t toks -> dinv src (t + span toks) (dec_toks toks s).
Proof.
  induction toks as [| k toks IH]; intros t s Hinv Hok.
  - unfold span. cbn [fold_right dec_toks fold_left]. rewrite Z.add_0_r. exact Hinv.
  - destruct Hok as [Hk Hrest]. unfold dec_toks. cbn [fold_left].
    unfold span. cbn [fold_right]. fold (span toks). rewrite Z.add_assoc.
    apply IH; [apply dec_tok_ok; assumption | exact Hrest].
Qed.

(** The tokens of a source decode to it. *)
Lemma dec_out_src src toks :
  toks_ok src 0 toks -> span toks = srcLen src -> dec_out toks = src.
Proof.
  intros Hok Hspan. pose proof (dec_toks_ok src toks 0 dec_start (dinv_start src) Hok) as H.
  unfold dec_out. destruct (dec_toks toks dec_start) as [[rg r] out].
  destruct H as (_ & _ & _ & ->). cbn [snd]. rewrite Z.add_0_l, Hspan.
  unfold srcLen. rewrite Nat2Z.id. apply firstn_all.
Qed.

Lemma tok_ok_wf src t k : 0 <= t -> tok_ok src t k -> tok_wf k.
Proof.
  intros Ht. destruct k as [b | p l]; cbn [tok_ok tok_wf]; [auto |].
  intros (Hl & _ & d & _ & _ & -> & _). split; [apply rpos_range | exact Hl].
Qed.

Lemma toks_ok_wf src : forall toks t,
  0 <= t -> toks_ok src t toks -> Forall tok_wf toks.
Proof.
  induction toks as [| k toks IH]; intros t Ht Hok; [constructor |].
  destruct Hok as [Hk Hrest]. constructor; [eapply tok_ok_wf; eassumption |].
  apply (IH (t + tok_len k)); [| exact Hrest].
  pose proof (tok_len_pos _ _ _ Hk). lia.
Qed.

(** * [Decompress] on a packed token list *)

(** ** Exhaustive checks *)

Lemma zrange_all_spec P m x :
  zrange_all P m = true -> 0 <= x < Z.of_nat m -> P x = true.
Proof.
  unfold zrange_all. intros H Hx. rewrite forallb_forall in H.
  replace x with (Z.of_nat (Z.to_nat x)) by lia. apply H. apply in_seq. lia.
Qed.

Lemma ref_roundtrip_all p l :
  0 <= p < n -> threshold < l <= f -> ref_roundtrip p l = true.
Proof.
  intros Hp Hl.
  assert (H : zrange_all (fun p => zrange_all (fun l' => ref_roundtrip p (l' + 3)) 16) 4096 = true)
    by (vm_compute; reflexivity).
  pose proof (zrange_all_spec _ _ p H ltac:(clia)) as H1. cbv beta in H1.
  pose proof (zrange_all_spec _ _ (l - 3) H1 ltac:(clia)) as H2. cbv beta in H2.
  replace (l - 3 + 3) with l in H2 by lia. exact H2.
Qed.

Lemma lor_flags c : 0 <= c < 256 -> Z.lor c 65280 = c + 65280.
Proof.
  intros Hc.
  assert (H : zrange_all (fun c => Z.lor c 65280 =? c + 65280) 256 = true)
    by (vm_compute; reflexivity).
  apply Z.eqb_eq. apply (zrange_all_spec _ _ c H). lia.
Qed.

Lemma land_256 x : Z.land x 256 = if Z.testbit x 8 then 256 else 0.
Proof.
  apply Z.bits_inj'. intros i Hi. rewrite Z.land_spec.
  change 256 with (2 ^ 8). rewrite Z.pow2_bits_eqb by lia.
  destruct (Z.eqb_spec 8 i) as [<- | Hne].
  - rewrite andb_true_r. destruct (Z.testbit x 8); [| rewrite Z.bits_0; reflexivity].
    symmetry. apply Z.pow2_bits_true. lia.
  - rewrite andb_false_r. destruct (Z.testbit x 8); [| rewrite Z.bits_0; reflexivity].
    symmetry. apply Z.pow2_bits_false. exact Hne.
Qed.

Lemma land_256_div x : (Z.land x 256 =? 0) = ((x / 256) mod 2 =? 0).
Proof.
  rewrite land_256. destruct (Z.testbit x 8) eqn:E.
  - apply Z.testbit_true in E; [| lia]. change (2 ^ 8) with 256 in E. rewrite E. reflexivity.
  - apply Z.testbit_false in E; [| lia]. change (2 ^ 8) with 256 in E. rewrite E. reflexivity.
Qed.

Lemma land_1 x : Z.land x 1 = x mod 2.
Proof. change 1 with (Z.ones 1). rewrite Z.land_ones by lia. reflexivity. Qed.

(** ** Reading the input *)

Lemma geb_false a b : a < b -> (a >=? b) = false.
Proof. intros H. rewrite Z.geb_leb. apply Z.leb_gt. exact H. Qed.

Lemma geb_true a b : b <= a -> (a >=? b) = true.
Proof. intros H. rewrite Z.geb_leb. apply Z.leb_le. exact H. Qed.

Lemma skipn_cons_nth {A : Type} : forall k (l : list A) b tl,
  skipn k l = b :: tl ->
  nth_error l k = Some b /\ (k < length l)%nat /\ skipn (S k) l = tl.
Proof.
  induction k as [| k IH]; intros l b tl H.
  - cbn [skipn] in H. subst l. cbn. repeat split. lia.
  - destruct l as [| a l]; [discriminate |]. cbn [skipn] in H.
    destruct (IH l b tl H) as (H1 & H2 & H3). cbn [nth_error length].
    split; [exact H1 |]. split; [lia | exact H3].
Qed.

Lemma getSrc_skipn src p b tl :
  0 <= p -> skipn (Z.to_nat p) src = b :: tl ->
  getSrc src p = Ok b /\ p < Z.of_nat (length src) /\
  skipn (Z.to_nat (p + 1)) src = tl.
Proof.
  intros Hp H. destruct (skipn_cons_nth _ _ _ _ H) as (H1 & H2 & H3).
  unfold getSrc. rewrite inb_true by lia. rewrite H1.
  split; [reflexivity |]. split; [lia |].
  replace (Z.to_nat (p + 1)) with (S (Z.to_nat p)) by lia. exact H3.
Qed.

Lemma skipn_nil_len {A : Type} (l : list A) p :
  0 <= p -> skipn (Z.to_nat p) l = [] -> Z.of_nat (length l) <= p.
Proof.
  intros Hp H. apply (f_equal (@length A)) in H. rewrite length_skipn in H.
  cbn [length] in H. lia.
Qed.

(** ** Copying a match *)

Lemma copyLoop_copy : forall m fuel i k st,
  0 <= d_r st < n -> (m < fuel)%nat ->
  exists st',
    copyLoop fuel i (k + Z.of_nat m - 1) k st = Ok st' /\
    (d_textBuf st', d_r st', d_dst st') =
      copy m (d_textBuf st) (d_r st) (i + k) (d_dst st) /\
    d_srcPos st' = d_srcPos st /\ d_flags st' = d_flags st /\
    0 <= d_r st' < n.
Proof.
  induction m as [| m IH]; intros fuel i k st Hr Hfuel.
  - destruct fuel as [| fuel]; [lia |]. cbn [copyLoop copy].
    replace (k <=? k + Z.of_nat 0 - 1) with false by (symmetry; apply Z.leb_gt; lia).
    exists st. auto.
  - destruct fuel as [| fuel]; [lia |]. cbn [copyLoop copy].
    replace (k <=? k + Z.of_nat (S m) - 1) with true by (symmetry; apply Z.leb_le; lia).
    rewrite land_mask.
    rewrite aget_ok by (pose proof (Z.mod_pos_bound (i + k) n); clia).
    cbn [bind]. rewrite z2b_b2z. rewrite aset_ok by clia. cbn [bind].
    replace (k + Z.of_nat (S m) - 1) with (k + 1 + Z.of_nat m - 1) by lia.
    rewrite land_mask.
    destruct (IH fuel i (k + 1)
                (mkDec (upd (d_textBuf st) (d_r st) (d_textBuf st ((i + k) mod n)))
                       (d_dst st ++ [d_textBuf st ((i + k) mod n)])
                       ((d_r st + 1) mod n) (d_srcPos st) (d_flags st)))
      as (st' & Hrun & Hcopy & Hsp & Hfl & Hr').
    { cbn [d_r]. apply Z.mod_pos_bound. clia. }
    { lia. }
    exists st'. split; [exact Hrun |]. cbn [d_textBuf d_r d_dst d_srcPos d_flags] in *.
    split; [| auto]. rewrite Hcopy. f_equal. lia.
Qed.

(** ** Decoding one token *)

Lemma decodeToken_tok src st F sp k tail :
  skipn (Z.to_nat sp) src = tok_bytes k ++ tail -> 0 <= sp ->
  tok_wf k -> 0 <= d_r st < n ->
  Z.land F 1 = (if is_lit k then 1 else 0) ->
  exists st',
    decodeToken src st F sp = Ok (inl st') /\
    (d_textBuf st', d_r st', d_dst st') = dec_tok (d_textBuf st, d_r st, d_dst st) k /\
    d_flags st' = F /\ 0 <= d_srcPos st' /\
    skipn (Z.to_nat (d_srcPos st')) src = tail /\ 0 <= d_r st' < n.
Proof.
  intros Hsk Hsp Hwf Hr HF. unfold decodeToken. cbv zeta. rewrite HF.
  destruct k as [b | p l]; cbn [is_lit tok_bytes app] in *.
  - destruct (getSrc_skipn _ _ _ _ Hsp Hsk) as (Hget & Hlt & Hsk').
    cbn [Z.eqb Pos.eqb].
    rewrite (geb_false sp) by lia.
    rewrite Hget. cbn [bind]. rewrite z2b_b2z, aset_ok by clia. cbn [bind].
    eexists. split; [reflexivity |]. cbn [d_textBuf d_r d_dst d_flags d_srcPos dec_tok].
    rewrite land_mask. split; [reflexivity |]. split; [reflexivity |].
    split; [lia |]. split; [exact Hsk' |]. apply Z.mod_pos_bound. clia.
  - destruct Hwf as [Hp Hl].
    destruct (getSrc_skipn _ _ _ _ Hsp Hsk) as (Hget & Hlt & Hsk').
    assert (Hsp1 : 0 <= sp + 1) by lia.
    destruct (getSrc_skipn _ _ _ _ Hsp1 Hsk') as (Hget2 & Hlt2 & Hsk2).
    cbn [Z.eqb].
    rewrite (geb_false sp) by lia.
    rewrite Hget. cbn [bind].
    rewrite (geb_false (sp + 1)) by lia.
    rewrite Hget2. cbn [bind].
    pose proof (ref_roundtrip_all p l Hp Hl) as Hrt. unfold ref_roundtrip in Hrt. cbv zeta in Hrt.
    apply andb_true_iff in Hrt. destruct Hrt as [Hrt _].
    apply andb_true_iff in Hrt. destruct Hrt as [Hrt _].
    apply andb_true_iff in Hrt. destruct Hrt as [Hrt _].
    apply andb_true_iff in Hrt. destruct Hrt as [Hi Hj].
    apply Z.eqb_eq in Hi. apply Z.eqb_eq in Hj. rewrite Hi, Hj.
    destruct (copyLoop_copy (Z.to_nat l) (Z.to_nat (f + 1)) p 0
                (mkDec (d_textBuf st) (d_dst st) (d_r st) (sp + 1 + 1) F))
      as (st' & Hrun & Hcopy & Hsp' & Hfl & Hr'); [exact Hr | clia |].
    replace (0 + Z.of_nat (Z.to_nat l) - 1) with (l - 1) in Hrun by clia.
    rewrite Hrun. cbn [bind]. exists st'. split; [reflexivity |].
    cbn [d_textBuf d_r d_dst d_flags d_srcPos dec_tok] in *.
    rewrite Z.add_0_r in Hcopy.
    split; [exact Hcopy |]. split; [exact Hfl |]. rewrite Hsp'.
    split; [lia |]. split; [| exact Hr'].
    exact Hsk2.
Qed.

Lemma decodeToken_end src st F sp :
  skipn (Z.to_nat sp) src = [] -> 0 <= sp ->
  decodeToken src st F sp = Ok (inr (d_dst st)).
Proof.
  intros Hsk Hsp. pose proof (skipn_nil_len _ _ Hsp Hsk) as Hlen.
  unfold decodeToken. cbv zeta.
  rewrite (geb_true sp) by lia.
  destruct (Z.land F 1 =? 1); reflexivity.
Qed.

(** ** The decoding loop *)

Lemma pack_first rest :
  rest <> [] -> pack rest = group_bytes (firstn 8 rest) ++ pack (skipn 8 rest).
Proof.
  intros Hne. unfold pack at 1. destruct (length rest) as [| m] eqn:E.
  - destruct rest; [contradiction | discriminate].
  - rewrite groups_S by exact Hne. cbn [flat_map]. f_equal.
    unfold pack. f_equal. apply groups_fuel; rewrite length_skipn; lia.
Qed.

Lemma counting_bit c j :
  1 <= j <= 7 -> 0 <= c < 2 ^ (8 - j) ->
  ((c + 255 * 2 ^ (8 - j)) / 256) mod 2 = 1.
Proof.
  intros Hj.
  assert (Hc : j = 1 \/ j = 2 \/ j = 3 \/ j = 4 \/ j = 5 \/ j = 6 \/ j = 7) by lia.
  destruct Hc as [-> | [-> | [-> | [-> | [-> | [-> | ->]]]]]];
    cbn; intros Hc; Z.div_mod_to_equations; lia.
Qed.

Lemma pow2_even j : 1 <= j <= 7 -> 2 ^ (8 - j) = 2 * 2 ^ (7 - j).
Proof.
  intros Hj. replace (8 - j) with (Z.succ (7 - j)) by lia.
  apply Z.pow_succ_r. lia.
Qed.

Lemma shiftr_1 x : Z.shiftr x 1 = x / 2.
Proof. rewrite Z.shiftr_div_pow2 by lia. reflexivity. Qed.

Lemma dec_toks_cons k toks s : dec_toks (k :: toks) s = dec_toks toks (dec_tok s k).
Proof. reflexivity. Qed.

Lemma decode_pack src : forall fuel gr rest st,
  skipn (Z.to_nat (d_srcPos st)) src = flat_map tok_bytes gr ++ pack rest ->
  0 <= d_srcPos st -> 0 <= d_r st < n ->
  flags_ok (d_flags st) gr rest ->
  Forall tok_wf gr -> Forall tok_wf rest ->
  (length gr + length rest < fuel)%nat ->
  decodeLoop fuel src st =
    Ok (snd (dec_toks (gr ++ rest) (d_textBuf st, d_r st, d_dst st))).
Proof.
  induction fuel as [| fuel IH]; intros gr rest st Hsk Hsp Hr Hfl Hwg Hwr Hfuel; [lia |].
  cbn [decodeLoop]. unfold decodeStep. cbv zeta.
  destruct Hfl as [[-> HA] | (j & Hj & Hlen & HF & Hlast)].
  - (* the flags are used up *)
    rewrite HA. cbn [Z.eqb andb flat_map app] in *.
    destruct rest as [| k0 rest0].
    + rewrite pack_nil in Hsk. rewrite (geb_true (d_srcPos st)) by (apply skipn_nil_len; assumption).
      reflexivity.
    + set (rest := k0 :: rest0) in *.
      assert (Hne : rest <> []) by discriminate.
      rewrite (pack_first rest Hne) in Hsk.
      assert (Hg : (0 < length (firstn 8 rest) <= 8)%nat).
      { rewrite length_firstn. cbn [rest length]. lia. }
      destruct (firstn 8 rest) as [| k g'] eqn:Eg; [cbn in Hg; lia |].
      unfold group_bytes in Hsk. cbn [flat_map app] in Hsk. rewrite <- app_assoc in Hsk.
      destruct (getSrc_skipn _ _ _ _ Hsp Hsk) as (Hget & Hlt & Hsk').
      rewrite (geb_false (d_srcPos st)) by lia. rewrite Hget. cbn [bind].
      rewrite ctrl_byte by lia.
      rewrite lor_flags
        by (pose proof (ctrl_range (k :: g'));
            assert (2 ^ Z.of_nat (length (k :: g')) <= 2 ^ 8) by (apply Z.pow_le_mono_r; lia);
            change (2 ^ 8) with 256 in *; lia).
      assert (Hwf : Forall tok_wf (k :: g') /\ Forall tok_wf (skipn 8 rest)).
      { rewrite <- (firstn_skipn 8 rest), Eg in Hwr. apply Forall_app in Hwr. exact Hwr. }
      destruct Hwf as [Hwkg Hwr']. inversion Hwkg as [| ? ? Hwk Hwg']. subst.
      destruct (decodeToken_tok src st (ctrl (k :: g') + 65280) (d_srcPos st + 1) k
                  (flat_map tok_bytes g' ++ pack (skipn 8 rest)))
        as (st' & Hrun & Hdec & HF' & Hsp' & Hsk2 & Hr'); [exact Hsk' | lia | exact Hwk | exact Hr | |].
      { rewrite land_1. cbn [ctrl]. destruct (is_lit k); Z.div_mod_to_equations; lia. }
      rewrite Hrun. cbn [bind].
      rewrite (IH g' (skipn 8 rest) st' Hsk2 Hsp' Hr').
      * rewrite Hdec, <- dec_toks_cons. do 3 f_equal. cbn [app].
        rewrite app_comm_cons, <- Eg. apply firstn_skipn.
      * right. exists 1. split; [lia |]. cbn [length] in Hg.
        split; [lia |]. split.
        -- rewrite HF', shiftr_1. cbn [ctrl]. change (2 ^ (8 - 1)) with 128.
           destruct (is_lit k); Z.div_mod_to_equations; lia.
        -- intros Hshort. apply skipn_all2.
           assert (length (firstn 8 rest) < 8)%nat by (rewrite Eg; cbn [length]; lia).
           rewrite length_firstn in H. lia.
      * exact Hwg'.
      * exact Hwr'.
      * assert (length rest = length (k :: g') + length (skipn 8 rest))%nat
          by (rewrite <- Eg, <- length_app, firstn_skipn; reflexivity).
        cbn [length] in *. lia.
  - (* within a group *)
    pose proof (ctrl_range gr) as Hcr.
    assert (Hcb : 0 <= ctrl gr < 2 ^ (8 - j)).
    { split; [lia |]. apply Z.lt_le_trans with (2 ^ Z.of_nat (length gr)); [lia |].
      apply Z.pow_le_mono_r; lia. }
    rewrite HF. rewrite land_256_div, counting_bit by assumption.
    cbn [Z.eqb andb bind].
    destruct gr as [| k gr'].
    + rewrite Hlast in * by (cbn [length]; lia). cbn [flat_map app] in *.
      rewrite pack_nil in Hsk. rewrite decodeToken_end by assumption. reflexivity.
    + cbn [flat_map] in Hsk. rewrite <- app_assoc in Hsk.
      inversion Hwg as [| ? ? Hwk Hwg']. subst.
      destruct (decodeToken_tok src st (ctrl (k :: gr') + 255 * 2 ^ (8 - j)) (d_srcPos st) k
                  (flat_map tok_bytes gr' ++ pack rest))
        as (st' & Hrun & Hdec & HF' & Hsp' & Hsk2 & Hr'); [exact Hsk | lia | exact Hwk | exact Hr | |].
      { rewrite land_1, pow2_even by exact Hj. cbn [ctrl].
        destruct (is_lit k); Z.div_mod_to_equations; lia. }
      rewrite Hrun. cbn [bind]. cbn [length] in Hlen, Hlast, Hfuel.
      rewrite (IH gr' rest st' Hsk2 Hsp' Hr').
      * rewrite Hdec. reflexivity.
      * destruct (Z.eq_dec j 7) as [-> | Hj7].
        -- assert (gr' = []) by (destruct gr'; [reflexivity | cbn [length] in Hlen; lia]).
           subst gr'. left. split; [reflexivity |].
           rewrite HF', shiftr_1. cbn [ctrl]. destruct (is_lit k); reflexivity.
        -- right. exists (j + 1). split; [lia |]. split; [lia |]. split.
           ++ rewrite HF', shiftr_1, pow2_even by exact Hj. cbn [ctrl].
              replace (8 - (j + 1)) with (7 - j) by lia.
              destruct (is_lit k); Z.div_mod_to_equations; lia.
           ++ intros Hshort. apply Hlast. lia.
      * exact Hwg'.
      * exact Hwr.
      * lia.
Qed.

(** * Sizes, and [Decompress] on arbitrary input *)

(** ** The size of a packed token list *)

Lemma pack_ind8 (P : list token -> Prop) :
  P [] -> (forall toks, toks <> [] -> P (skipn 8 toks) -> P toks) ->
  forall toks, P toks.
Proof.
  intros Hnil Hstep.
  assert (H : forall m toks, (length toks <= m)%nat -> P toks).
  { induction m as [| m IH]; intros toks Hlen.
    - destruct toks; [exact Hnil | cbn in Hlen; lia].
    - destruct toks as [| k toks]; [exact Hnil |].
      apply Hstep; [discriminate |]. apply IH.
      rewrite length_skipn. cbn [length] in *. lia. }
  intros toks. apply (H (length toks)). lia.
Qed.

Lemma pack_length toks :
  (8 * length (pack toks) <= 8 * length (flat_map tok_bytes toks) + length toks + 7)%nat /\
  (length toks <= length (pack toks))%nat.
Proof.
  induction toks as [| toks Hne IH] using pack_ind8; [cbn; lia |].
  rewrite (pack_first toks Hne). rewrite length_app. unfold group_bytes. cbn [length].
  assert (Hl : length toks = (length (firstn 8 toks) + length (skipn 8 toks))%nat)
    by (rewrite <- length_app, firstn_skipn; reflexivity).
  assert (Hf : length (flat_map tok_bytes toks) =
               (length (flat_map tok_bytes (firstn 8 toks)) +
                length (flat_map tok_bytes (skipn 8 toks)))%nat)
    by (rewrite <- length_app, <- flat_map_app, firstn_skipn; reflexivity).
  assert (Hg1 : (1 <= length (firstn 8 toks) <= 8)%nat).
  { rewrite length_firstn. destruct toks; [contradiction | cbn [length]; lia]. }
  assert (Hgb : (length (firstn 8 toks) <= length (flat_map tok_bytes (firstn 8 toks)))%nat).
  { generalize (firstn 8 toks). intros g. induction g as [| k g IHg]; [cbn; lia |].
    cbn [flat_map length]. rewrite length_app. pose proof (tok_bytes_length k). lia. }
  destruct (Nat.eq_dec (length (firstn 8 toks)) 8) as [E8 | N8].
  - lia.
  - assert (Hs : skipn 8 toks = []).
    { apply skipn_all2. rewrite length_firstn in N8. lia. }
    rewrite Hs in *. cbn [pack flat_map length groups] in *. lia.
Qed.

Lemma flat_bytes_span src : forall toks t,
  toks_ok src t toks ->
  Z.of_nat (length (flat_map tok_bytes toks)) <= span toks /\
  Z.of_nat (length toks) <= span toks.
Proof.
  induction toks as [| k toks IH]; intros t Hok.
  - unfold span. cbn. lia.
  - destruct Hok as [Hk Hrest]. destruct (IH _ Hrest) as [H1 H2].
    unfold span. cbn [fold_right flat_map length]. fold (span toks).
    rewrite length_app.
    assert (Z.of_nat (length (tok_bytes k)) <= tok_len k /\ 1 <= tok_len k).
    { destruct k as [b | p l]; cbn [tok_bytes tok_len length]; [lia |].
      destruct Hk as (Hl & _). clia. }
    lia.
Qed.

(** ** [Decompress] on a packed token list *)

Lemma Decompress_pack toks :
  Forall tok_wf toks -> Decompress (pack toks) = Ok (dec_out toks).
Proof.
  intros Hwf. unfold Decompress, dec_out, dec_start.
  apply (decode_pack (pack toks) _ [] toks decodeInit).
  - reflexivity.
  - cbn. lia.
  - cbn [d_r decodeInit]. clia.
  - left. split; reflexivity.
  - constructor.
  - exact Hwf.
  - cbn [length]. pose proof (pack_length toks). lia.
Qed.

(** ** [Decompress] on any input *)

Lemma land_15 x : 0 <= Z.land x 15 < 16.
Proof.
  change 15 with (Z.ones 4). rewrite Z.land_ones by lia.
  apply Z.mod_pos_bound. reflexivity.
Qed.

Lemma decodeToken_total src st F sp :
  0 <= sp <= srcLen src -> 0 <= d_r st < n ->
  (exists out, decodeToken src st F sp = Ok (inr out)) \/
  (exists st', decodeToken src st F sp = Ok (inl st') /\
     sp < d_srcPos st' <= srcLen src /\ 0 <= d_r st' < n).
Proof.
  unfold srcLen. intros Hsp Hr. unfold decodeToken. cbv zeta.
  destruct (Z_lt_le_dec sp (Z.of_nat (length src))) as [Hlt | Hge].
  2:{ left. rewrite (geb_true sp) by lia. destruct (Z.land F 1 =? 1); eexists; reflexivity. }
  rewrite (geb_false sp) by lia. rewrite getSrc_ok by (unfold srcLen; lia).
  cbn [bind]. destruct (Z.land F 1 =? 1).
  - right. rewrite aset_ok by clia. cbn [bind]. eexists. split; [reflexivity |].
    cbn [d_srcPos d_r]. split; [lia |]. rewrite land_mask. apply Z.mod_pos_bound. clia.
  - destruct (Z_lt_le_dec (sp + 1) (Z.of_nat (length src))) as [Hlt2 | Hge2].
    2:{ left. rewrite (geb_true (sp + 1)) by lia. eexists; reflexivity. }
    rewrite (geb_false (sp + 1)) by lia. rewrite getSrc_ok by (unfold srcLen; lia).
    cbn [bind]. right.
    set (i := Z.lor _ _). set (j := Z.land _ 15).
    pose proof (land_15 (b2z (txt src (sp + 1)))) as Hj. fold j in Hj.
    destruct (copyLoop_copy (Z.to_nat (j + threshold + 1)) (Z.to_nat (f + 1)) i 0
                (mkDec (d_textBuf st) (d_dst st) (d_r st) (sp + 1 + 1) F))
      as (st' & Hrun & _ & Hsp' & _ & Hr'); [exact Hr | clia |].
    replace (0 + Z.of_nat (Z.to_nat (j + threshold + 1)) - 1) with (j + threshold) in Hrun by clia.
    rewrite Hrun. cbn [bind]. exists st'. split; [reflexivity |].
    rewrite Hsp'. cbn [d_srcPos]. split; [lia | exact Hr'].
Qed.

Lemma decodeStep_total src st :
  0 <= d_srcPos st <= srcLen src -> 0 <= d_r st < n ->
  (exists out, decodeStep src st = Ok (inr out)) \/
  (exists st', decodeStep src st = Ok (inl st') /\
     d_srcPos st < d_srcPos st' <= srcLen src /\ 0 <= d_r st' < n).
Proof.
  intros Hsp Hr. unfold decodeStep. cbv zeta.
  destruct (Z.land (Z.shiftr (d_flags st) 1) 256 =? 0).
  - destruct (Z_lt_le_dec (d_srcPos st) (srcLen src)) as [Hlt | Hge].
    + unfold srcLen in Hlt. rewrite (geb_false (d_srcPos st)) by lia. cbn [andb].
      rewrite getSrc_ok by (unfold srcLen; lia). cbn [bind].
      destruct (decodeToken_total src st (Z.lor (b2z (txt src (d_srcPos st))) 65280)
                  (d_srcPos st + 1)) as [Hout | (st' & Hrun & Hsp' & Hr')];
        [unfold srcLen in *; lia | exact Hr | left; exact Hout |].
      right. exists st'. split; [exact Hrun |]. split; [lia | exact Hr'].
    + unfold srcLen in Hge. rewrite (geb_true (d_srcPos st)) by lia. cbn [andb].
      left. eexists. reflexivity.
  - cbn [andb bind].
    destruct (decodeToken_total src st (Z.shiftr (d_flags st) 1) (d_srcPos st) Hsp Hr)
      as [Hout | Hnext]; [left | right]; assumption.
Qed.

Lemma decodeLoop_total src : forall fuel st,
  0 <= d_srcPos st <= srcLen src -> 0 <= d_r st < n ->
  (Z.to_nat (srcLen src - d_srcPos st) < fuel)%nat ->
  exists out, decodeLoop fuel src st = Ok out.
Proof.
  induction fuel as [| fuel IH]; intros st Hsp Hr Hfuel; [lia |].
  cbn [decodeLoop].
  destruct (decodeStep_total src st Hsp Hr) as [[out Hrun] | (st' & Hrun & Hsp' & Hr')].
  - rewrite Hrun. cbn [bind]. exists out. reflexivity.
  - rewrite Hrun. cbn [bind]. apply IH; [lia | exact Hr' | lia].
Qed.

Lemma Decompress_total src : exists out, Decompress src = Ok out.
Proof.
  unfold Decompress. apply decodeLoop_total.
  - cbn [d_srcPos decodeInit]. unfold srcLen. lia.
  - cbn [d_r decodeInit]. clia.
  - cbn [d_srcPos decodeInit]. unfold srcLen. lia.
Qed.

(** * The layout of the output and the meaning of the invariant *)

(** ** Groups and control bits *)

Lemma groups_first toks :
  toks <> [] ->
  groups (length toks) toks =
    firstn 8 toks :: groups (length (skipn 8 toks)) (skipn 8 toks).
Proof.
  intros Hne. destruct (length toks) as [| m] eqn:E.
  - destruct toks; [contradiction | discriminate].
  - rewrite groups_S by exact Hne. f_equal.
    apply groups_fuel; rewrite length_skipn; lia.
Qed.

Lemma groups_facts toks :
  concat (groups (length toks) toks) = toks /\
  Forall (fun g => (1 <= length g <= 8)%nat) (groups (length toks) toks) /\
  full_but_last (groups (length toks) toks).
Proof.
  induction toks as [| toks Hne (IH1 & IH2 & IH3)] using pack_ind8.
  - cbn. repeat split. constructor.
  - rewrite (groups_first toks Hne). cbn [concat full_but_last].
    split; [rewrite IH1; apply firstn_skipn |]. split.
    + constructor; [| exact IH2]. rewrite length_firstn.
      destruct toks; [contradiction | cbn [length]; lia].
    + split; [| exact IH3].
      destruct (skipn 8 toks) as [| k rest] eqn:Es; [exact I |].
      cbn [length groups].
      assert (length (skipn 8 toks) = S (length rest)) by (rewrite Es; reflexivity).
      rewrite length_skipn in H. rewrite length_firstn. lia.
Qed.

Lemma ctrl_testbit : forall g i d,
  (i < length g)%nat -> Z.testbit (ctrl g) (Z.of_nat i) = is_lit (nth i g d).
Proof.
  induction g as [| k g IH]; intros i d Hi; [cbn in Hi; lia |].
  cbn [ctrl]. replace ((if is_lit k then 1 else 0) + 2 * ctrl g)
    with (2 * ctrl g + Z.b2z (is_lit k)) by (destruct (is_lit k); cbn [Z.b2z]; lia).
  destruct i as [| i].
  - cbn [nth Z.of_nat]. apply Z.testbit_0_r.
  - rewrite Nat2Z.inj_succ, Z.testbit_succ_r by lia. cbn [nth length] in *.
    apply IH. lia.
Qed.

Lemma ctrl_high_bits g i :
  Z.of_nat (length g) <= i -> Z.testbit (ctrl g) i = false.
Proof.
  intros Hi. pose proof (ctrl_range g) as Hr.
  destruct (Z.eq_dec (ctrl g) 0) as [-> | Hnz]; [apply Z.bits_0 |].
  apply Z.bits_above_log2; [lia |].
  apply Z.lt_le_trans with (Z.of_nat (length g)); [| exact Hi].
  apply Z.log2_lt_pow2; lia.
Qed.

(** ** Reference tokens *)

Lemma tok_ok_format src t k : tok_ok src t k -> ref_format k.
Proof.
  destruct k as [b | p l]; cbn [tok_ok ref_format]; [auto |].
  intros (Hl & _ & d & _ & _ & -> & _).
  pose proof (rpos_range (t - d)) as Hp.
  split; [exact Hp |]. split; [clia |].
  pose proof (ref_roundtrip_all _ l Hp Hl) as Hrt. unfold ref_roundtrip in Hrt.
  cbv zeta in Hrt.
  apply andb_true_iff in Hrt. destruct Hrt as [Hrt H5].
  apply andb_true_iff in Hrt. destruct Hrt as [Hrt H4].
  apply andb_true_iff in Hrt. destruct Hrt as [Hrt H3].
  apply andb_true_iff in Hrt. destruct Hrt as [H1 H2].
  apply Z.eqb_eq in H1, H2, H3, H4, H5.
  eexists _, _. split; [reflexivity |].
  split; [exact H3 |]. split; [exact H4 |]. split; [exact H5 |].
  split; [exact H1 | lia].
Qed.

Lemma toks_ok_format src : forall toks t,
  toks_ok src t toks -> Forall ref_format toks.
Proof.
  induction toks as [| k toks IH]; intros t Hok; [constructor |].
  destruct Hok as [Hk Hrest]. constructor; [eapply tok_ok_format; exact Hk |].
  eapply IH. exact Hrest.
Qed.

Lemma toks_ok_established src : forall toks t,
  0 <= t -> toks_ok src t toks -> refs_established t toks.
Proof.
  induction toks as [| k toks IH]; intros t Ht Hok; [exact I |].
  destruct Hok as [Hk Hrest]. cbn [refs_established]. split.
  - destruct k as [b | p l]; [exact I |].
    destruct Hk as (Hl & _ & d & Hd & Hdt & -> & _). intros j Hj.
    destruct (Z_lt_le_dec (t - d + j) 0) as [Hneg | Hpos].
    + left. replace ((rpos (t - d) + j) mod n) with (n - f + (t - d + j)) by mlia. clia.
    + right. exists (t - d + j). split; [lia | mlia].
  - apply IH; [| exact Hrest]. pose proof (tok_len_pos _ _ _ Hk). lia.
Qed.

(** ** What the forest invariant says *)

Lemma forest_ok_meaning sp fo :
  forest_ok sp fo ->
  (forall c, 0 <= c < 256 ->
     bst (textBuf sp) (fo c) /\ NoDup (elems (fo c)) /\
     forall x, In x (elems (fo c)) -> 0 <= x < n /\ b2z (textBuf sp x) = c) /\
  (forall c c' x, 0 <= c < 256 -> 0 <= c' < 256 ->
     In x (elems (fo c)) -> In x (elems (fo c')) -> c = c') /\
  (forall p, 0 <= p < n -> (parent sp p = NIL <-> ~ held fo p)).
Proof.
  intros Hf. pose proof Hf as [Ht Hl]. split; [| split].
  - intros c Hc. destruct (Ht c Hc) as (Hh & Hb & Hfirst).
    split; [exact Hb |]. split; [eapply tree_ok_NoDup; apply Ht; exact Hc |].
    intros x Hx. destruct (held_facts _ _ _ _ Hf Hc Hx) as (H1 & H2 & _). auto.
  - intros c c' x Hc Hc' Hx Hx'.
    destruct (held_facts _ _ _ _ Hf Hc Hx) as (_ & H1 & _).
    destruct (held_facts _ _ _ _ Hf Hc' Hx') as (_ & H2 & _). congruence.
  - intros p Hp. split.
    + intros HN (c & Hc & Hin).
      destruct (held_facts _ _ _ _ Hf Hc Hin) as (_ & _ & Hne). contradiction.
    + intros Hnh. destruct (Z.eq_dec (parent sp p) NIL) as [E | E]; [exact E |].
      exfalso. apply Hnh. eapply live_held; eassumption.
Qed.

(** The position inserted next is free. *)
Lemma core_next_free src t st :
  enc_core src t st ->
  exists fo, forest_ok (c_sp st) fo /\
    parent (c_sp st) (Z.land (c_r st + 1) (n - 1)) = NIL.
Proof.
  intros (Ht & Hr & _ & _ & _ & (fo & Hf & Hw) & _).
  exists fo. split; [exact Hf |].
  rewrite Hr, rpos_succ.
  apply (proj2 (proj2 (forest_ok_meaning _ _ Hf)) _ (rpos_range _)).
  intros Hh. destruct (Hw _ Hh) as (d & Hd & _ & E). apply rpos_eq in E; clia.
Qed.

(** The states of the main loop: at its head, and after any number of
    advancing steps of an iteration. *)
Lemma run_states src k st0 st :
  compressInit src = Ok (Some st0) -> headState k src st0 = Ok (Some st) ->
  (exists t, enc_core src t st) /\
  forall st1 j st2,
    emitToken st = Ok st1 -> 0 <= j <= matchLength (c_sp st1) ->
    advance src j st1 = Ok st2 ->
    exists t, enc_core src t st2.
Proof.
  intros Hinit Hhead.
  assert (Hlen : 0 < srcLen src).
  { destruct src as [| b src]; [| unfold srcLen; cbn [length]; lia].
    vm_compute in Hinit. discriminate. }
  destruct (compressInit_spec src Hlen) as (st0' & Hinit' & Hh0).
  rewrite Hinit in Hinit'. injection Hinit' as <-.
  destruct (headState_spec src k [] st0 st Hh0 Hhead) as (toks & Hh).
  pose proof Hh as (Hc & Hm & Hout & Htoks & Hpos).
  split; [exists (span toks); exact Hc |].
  intros st1 j st2 Hemit Hj Hadv.
  pose proof Hc as (Ht & Hr & _).
  destruct (emitted_ok src _ st Hc Hm Hpos) as [Hk HL].
  destruct (emitToken_run st toks Hout) as
    (st1' & Hrun1 & Hout1 & HL1 & Er & Es & Ed & Ep & EL & ER & EP & ET).
  { rewrite Hr. apply rpos_range. }
  rewrite Hemit in Hrun1. injection Hrun1 as <-.
  assert (Hc1 : enc_core src (span toks) st1) by (eapply enc_core_transfer; eassumption).
  destruct (advance_spec src (span toks) st1 j Hc1) as (st3 & Hrun3 & Hc3 & _); [lia |].
  rewrite Hadv in Hrun3. injection Hrun3 as <-.
  exists (span toks + j). exact Hc3.
Qed.

(** * The properties of [Compress] and [Decompress] *)

(** C1. Round trip: for every byte sequence [x], [Compress x] returns a
    byte sequence [c], and [Decompress c] returns exactly [x]. This covers
    the empty sequence, one-byte sequences and sequences of arbitrary byte
    values. *)
Theorem round_trip :
  forall x : list byte, exists c, Compress x = Ok c /\ Decompress c = Ok x.
Proof.
  intros x. destruct (Compress_tokens x) as (toks & Hc & Hok & Hspan).
  exists (pack toks). split; [exact Hc |].
  rewrite Decompress_pack by (apply (toks_ok_wf x toks 0); [lia | exact Hok]).
  f_equal. apply dec_out_src; assumption.
Qed.

(** C2. Totality: on every byte sequence, [Compress] returns a result and
    [Decompress] returns a result: neither runs into an index out of
    range ([Panic]) nor fails to terminate ([OutOfFuel]), whatever the
    input, well-formed token stream or not. *)
Theorem compress_decompress_total :
  forall x : list byte,
    (exists c, Compress x = Ok c) /\ (exists out, Decompress x = Ok out).
Proof.
  intros x. split.
  - destruct (Compress_tokens x) as (toks & Hc & _). exists (pack toks). exact Hc.
  - apply Decompress_total.
Qed.

(** C3. Reference tokens: the output of [Compress x] is the packing of a
    token list that describes [x], and for each of its reference tokens
    [Ref p l] the position [p] is a 12-bit number, the length [l] lies in
    [3, 18], and the token is laid out in exactly two bytes [b0], [b1] with
    [b0] the low 8 bits of [p], the high nibble of [b1] the top 4 bits of
    [p] and the low nibble of [b1] equal to [l - 3]; the expressions
    [b0 | ((b1 & 0xF0) << 4)] and [(b1 & 0x0F) + 3] of [Decompress] give
    back [p] and [l], and [Decompress] decodes the packing token by token,
    copying [l] bytes from position [p] on for [Ref p l]. *)
Theorem reference_token_format :
  forall x : list byte, exists toks,
    Compress x = Ok (pack toks) /\
    toks_ok x 0 toks /\
    Forall ref_format toks /\
    Decompress (pack toks) = Ok (dec_out toks).
Proof.
  intros x. destruct (Compress_tokens x) as (toks & Hc & Hok & Hspan).
  exists toks. split; [exact Hc |]. split; [exact Hok |].
  split; [eapply toks_ok_format; exact Hok |].
  apply Decompress_pack. apply (toks_ok_wf x toks 0); [lia | exact Hok].
Qed.

(** C4. Groups: the output of [Compress x] consists of the tokens that
    describe [x] cut, in order, into groups of at most eight tokens, all
    groups but the last holding exactly eight; each group is written as one
    control byte followed by the bytes of its tokens, and bit [i] of the
    control byte, counted from the least significant bit, is set exactly
    when token [i] of the group is a literal; the bits past the last token
    are clear. *)
Theorem token_groups :
  forall x : list byte, exists toks,
    let gs := groups (length toks) toks in
    Compress x = Ok (flat_map group_bytes gs) /\
    toks_ok x 0 toks /\ span toks = srcLen x /\
    concat gs = toks /\
    Forall (fun g => (1 <= length g <= 8)%nat) gs /\
    full_but_last gs /\
    forall g, In g gs ->
      group_bytes g = z2b (ctrl g) :: flat_map tok_bytes g /\
      b2z (z2b (ctrl g)) = ctrl g /\
      (forall i d, (i < length g)%nat ->
         Z.testbit (ctrl g) (Z.of_nat i) = is_lit (nth i g d)) /\
      (forall i, Z.of_nat (length g) <= i -> Z.testbit (ctrl g) i = false).
Proof.
  intros x. destruct (Compress_tokens x) as (toks & Hc & Hok & Hspan).
  exists toks. cbv zeta. destruct (groups_facts toks) as (H1 & H2 & H3).
  split; [exact Hc |]. split; [exact Hok |]. split; [exact Hspan |].
  split; [exact H1 |]. split; [exact H2 |]. split; [exact H3 |].
  intros g Hg. rewrite Forall_forall in H2. specialize (H2 g Hg).
  split; [reflexivity |]. split; [apply ctrl_byte; lia |].
  split; [intros i d Hi; apply ctrl_testbit; exact Hi |].
  intros i Hi. apply ctrl_high_bits. exact Hi.
Qed.

(** C5. Match lengths: (1) every reference token in the output of
    [Compress x] has a length between [threshold + 1 = 3] and [f = 18];
    (2) [emitToken] writes, as the next token of the output, a literal
    whenever the match length, clamped to the bytes at hand, is at most
    [threshold], and sets [matchLength] to 1 then, and writes a reference
    of the clamped length otherwise; (3) [insertNode], run on a state that
    satisfies the invariant of the trees, reports a match length of at most
    [f]. *)
Theorem match_length_bounds :
  (forall x : list byte, exists toks,
     Compress x = Ok (pack toks) /\ toks_ok x 0 toks /\
     Forall (fun k => is_lit k = false -> threshold + 1 <= tok_len k <= f) toks) /\
  (forall st toks,
     out_inv toks st -> 0 <= c_r st < n ->
     exists st',
       emitToken st = Ok st' /\ out_inv (toks ++ [emitted st]) st' /\
       (Z.min (matchLength (c_sp st)) (c_dataLen st) <= threshold ->
          emitted st = Lit (textBuf (c_sp st) (c_r st)) /\
          matchLength (c_sp st') = 1) /\
       (threshold < Z.min (matchLength (c_sp st)) (c_dataLen st) ->
          emitted st = Ref (matchPosition (c_sp st))
                         (Z.min (matchLength (c_sp st)) (c_dataLen st)))) /\
  (forall sp fo r,
     forest_ok sp fo -> 0 <= r < n -> parent sp r = NIL ->
     exists sp', insertNode sp r = Ok sp' /\ 0 <= matchLength sp' <= f).
Proof.
  split; [| split].
  - intros x. destruct (Compress_tokens x) as (toks & Hc & Hok & Hspan).
    exists toks. split; [exact Hc |]. split; [exact Hok |].
    clear Hc Hspan. revert Hok. generalize 0.
    induction toks as [| k toks IH]; intros t Hok; [constructor |].
    destruct Hok as [Hk Hrest]. constructor; [| eapply IH; exact Hrest].
    destruct k as [b | p l]; cbn [is_lit tok_len]; [discriminate |].
    intros _. destruct Hk as (Hl & _). lia.
  - intros st toks Hout Hr.
    destruct (emitToken_run st toks Hout Hr) as (st' & Hrun & Hout' & Hml & _).
    exists st'. split; [exact Hrun |]. split; [exact Hout' |].
    rewrite Hml. unfold emitted. cbv zeta. split.
    + intros Hle.
      replace (Z.min (matchLength (c_sp st)) (c_dataLen st) <=? threshold) with true
        by (symmetry; apply Z.leb_le; exact Hle).
      split; reflexivity.
    + intros Hgt.
      replace (Z.min (matchLength (c_sp st)) (c_dataLen st) <=? threshold) with false
        by (symmetry; apply Z.leb_gt; exact Hgt).
      reflexivity.
  - intros sp fo r Hf Hr HN.
    destruct (insertNode_spec sp fo r Hf Hr HN) as (sp' & t' & Hrun & _ & _ & _ & _ & Hm).
    exists sp'. split; [exact Hrun | exact (proj1 Hm)].
Qed.

(** C6. Empty input: [Compress] of the empty byte sequence is the empty
    byte sequence, and so is [Decompress] of the empty byte sequence. *)
Theorem empty_in_empty_out :
  Compress [] = Ok [] /\ Decompress [] = Ok [].
Proof. split; reflexivity. Qed.

(** C7. Size: for every [x], the output [c] of [Compress x] satisfies
    [8 * length c <= 9 * length x + 7], that is, its length is at most 9/8
    of the length of [x], rounded up. *)
Theorem compressed_size_bound :
  forall x : list byte, exists c,
    Compress x = Ok c /\
    8 * Z.of_nat (length c) <= 9 * Z.of_nat (length x) + 7.
Proof.
  intros x. destruct (Compress_tokens x) as (toks & Hc & Hok & Hspan).
  exists (pack toks). split; [exact Hc |].
  destruct (pack_length toks) as [Hp _].
  destruct (flat_bytes_span x toks 0 Hok) as [Hb Hn].
  unfold srcLen in Hspan. lia.
Qed.

(** C8. No forward references: the output of [Compress x] is the packing
    of a token list that describes [x], which [Decompress] decodes token by
    token, and every ring position that a reference token of this list
    makes the decoder read is established at the time it is read: it lies
    in the initial run of spaces, or it was written by a byte decoded
    before. The initial run of spaces is the same in the text buffers of
    the coder and of the decoder. *)
Theorem no_forward_references :
  forall x : list byte, exists toks,
    Compress x = Ok (pack toks) /\
    toks_ok x 0 toks /\
    refs_established 0 toks /\
    Decompress (pack toks) = Ok (dec_out toks) /\
    forall p, 0 <= p < n - f ->
      textBuf initState p = " "%byte /\ d_textBuf decodeInit p = " "%byte.
Proof.
  intros x. destruct (Compress_tokens x) as (toks & Hc & Hok & Hspan).
  exists toks. split; [exact Hc |]. split; [exact Hok |].
  split; [apply (toks_ok_established x); [lia | exact Hok] |].
  split; [apply Decompress_pack; apply (toks_ok_wf x toks 0); [lia | exact Hok] |].
  intros p Hp. cbn [textBuf initState d_textBuf decodeInit].
  replace (0 <=? p) with true by (symmetry; apply Z.leb_le; lia).
  replace (p <? n - f) with true by (symmetry; apply Z.ltb_lt; lia).
  split; reflexivity.
Qed.

(** C9. The invariant of the match index. [forest_ok sp fo] says that the
    arrays of [sp] realise the 256 trees [fo c], that each tree is a binary
    search tree in the lexicographic order of the [f]-byte keys and holds
    only positions whose key starts with [c], and that a position with a
    parent is in a tree. (1) It holds of the initial state with empty
    trees. (2) [insertNode] of a free position preserves it and does not
    fail. (3) [deleteNode] preserves it, does not fail and frees the
    position. (4) In every run of [Compress] it holds at the head of the
    main loop in every iteration, and (5) after any number of the
    advancing steps of an iteration, each of which deletes the oldest
    position, writes the byte read, and inserts the next position; in all
    these states the position inserted next is free. (6) It implies that
    every tree is a search tree without repetitions, that no position is
    in two trees, and that [parent[p]] is [NIL] exactly when [p] is in no
    tree. *)
Theorem match_index_invariant :
  forest_ok initState (fun _ => Leaf) /\
  (forall sp fo r,
     forest_ok sp fo -> 0 <= r < n -> parent sp r = NIL ->
     exists sp' fo', insertNode sp r = Ok sp' /\ forest_ok sp' fo') /\
  (forall sp fo p,
     forest_ok sp fo -> 0 <= p < n ->
     exists sp' fo',
       deleteNode sp p = Ok sp' /\ forest_ok sp' fo' /\ parent sp' p = NIL) /\
  (forall (x : list byte) k st0 st,
     compressInit x = Ok (Some st0) -> headState k x st0 = Ok (Some st) ->
     exists fo, forest_ok (c_sp st) fo /\
       parent (c_sp st) (Z.land (c_r st + 1) (n - 1)) = NIL) /\
  (forall (x : list byte) k st0 st st1 j st2,
     compressInit x = Ok (Some st0) -> headState k x st0 = Ok (Some st) ->
     emitToken st = Ok st1 -> 0 <= j <= matchLength (c_sp st1) ->
     advance x j st1 = Ok st2 ->
     exists fo, forest_ok (c_sp st2) fo /\
       parent (c_sp st2) (Z.land (c_r st2 + 1) (n - 1)) = NIL) /\
  (forall sp fo,
     forest_ok sp fo ->
     (forall c, 0 <= c < 256 ->
        bst (textBuf sp) (fo c) /\ NoDup (elems (fo c)) /\
        forall x, In x (elems (fo c)) -> 0 <= x < n /\ b2z (textBuf sp x) = c) /\
     (forall c c' x, 0 <= c < 256 -> 0 <= c' < 256 ->
        In x (elems (fo c)) -> In x (elems (fo c')) -> c = c') /\
     (forall p, 0 <= p < n -> (parent sp p = NIL <-> ~ held fo p))).
Proof.
  split; [exact forest_ok_init |]. split; [| split; [| split; [| split]]].
  - intros sp fo r Hf Hr HN.
    destruct (insertNode_spec sp fo r Hf Hr HN) as (sp' & t' & Hrun & Hf' & _).
    exists sp', (fupd fo (b2z (textBuf sp r)) t'). split; assumption.
  - intros sp fo p Hf Hp.
    destruct (deleteNode_spec sp fo p Hf Hp) as (sp' & fo' & Hrun & Hf' & _ & _ & _ & HN & _).
    exists sp', fo'. split; [exact Hrun |]. split; [exact Hf' | exact HN].
  - intros x k st0 st Hinit Hhead.
    destruct (run_states x k st0 st Hinit Hhead) as [[t Hc] _].
    eapply core_next_free. exact Hc.
  - intros x k st0 st st1 j st2 Hinit Hhead Hemit Hj Hadv.
    destruct (run_states x k st0 st Hinit Hhead) as [_ H].
    destruct (H st1 j st2 Hemit Hj Hadv) as [t Hc].
    eapply core_next_free. exact Hc.
  - exact forest_ok_meaning.
Qed.

(** C10. One-byte input: [Decompress] of any one-byte sequence is the
    empty byte sequence. *)
Theorem decompress_one_byte :
  forall b : byte, Decompress [b] = Ok [].
Proof. intros b. destruct b; reflexivity. Qed.

(** An instance of C5 (3): inserting position 0 into the initial state. *)
Lemma match_length_bounds_witness :
  exists sp', insertNode initState 0 = Ok sp' /\ 0 <= matchLength sp' <= f.
Proof.
  exact (proj2 (proj2 match_length_bounds) initState (fun _ => Leaf) 0
           forest_ok_init (conj (Z.le_refl 0) eq_refl) eq_refl).
Defined.

(** An instance of C9 (2): inserting position 0 into the initial state. *)
Lemma match_index_invariant_witness :
  exists sp' fo', insertNode initState 0 = Ok sp' /\ forest_ok sp' fo'.
Proof.
  exact (proj1 (proj2 match_index_invariant) initState (fun _ => Leaf) 0
           forest_ok_init (conj (Z.le_refl 0) eq_refl) eq_refl).
Defined.

(** * More on [Decompress] *)

(** ** What one iteration does to the output and the input position *)

Lemma getSrc_inv src i b :
  getSrc src i = Ok b ->
  0 <= i < Z.of_nat (length src) /\ nth_error src (Z.to_nat i) = Some b.
Proof.
  unfold getSrc, inb. intros H.
  destruct (Z.leb_spec 0 i); [| discriminate].
  destruct (Z.ltb_spec i (Z.of_nat (length src))); [| discriminate].
  cbn [andb] in H. destruct (nth_error src (Z.to_nat i)) eqn:E; [| discriminate].
  injection H as <-. auto.
Qed.

Lemma getSrc_app src ext i b :
  getSrc src i = Ok b -> getSrc (src ++ ext) i = Ok b.
Proof.
  intros H. destruct (getSrc_inv _ _ _ H) as [Hi Hn].
  unfold getSrc. rewrite inb_true by (rewrite length_app; lia).
  rewrite nth_error_app1 by lia. rewrite Hn. reflexivity.
Qed.

Lemma copyLoop_facts (Q : byte -> Prop) : forall fuel i j k st st',
  copyLoop fuel i j k st = Ok st' ->
  d_srcPos st' = d_srcPos st /\ d_flags st' = d_flags st /\
  exists ext,
    d_dst st' = d_dst st ++ ext /\
    Z.of_nat (length ext) = Z.max 0 (j - k + 1) /\
    ((forall x, Q (d_textBuf st x)) ->
       (forall x, Q (d_textBuf st' x)) /\ Forall Q ext).
Proof.
  induction fuel as [| fuel IH]; intros i j k st st' H; [discriminate |].
  cbn [copyLoop] in H. destruct (Z.leb_spec k j) as [Hle | Hgt].
  - destruct (aget (n + f - 1) (d_textBuf st) (Z.land (i + k) (n - 1))) as [b | |] eqn:Eg;
      cbn [bind] in H; try discriminate.
    rewrite z2b_b2z in H.
    destruct (aset (n + f - 1) (d_textBuf st) (d_r st) b) as [tb | |] eqn:Es;
      cbn [bind] in H; try discriminate.
    destruct (IH _ _ _ _ _ H) as (E1 & E2 & ext & E3 & E4 & HQ).
    cbn [d_srcPos d_flags d_dst d_textBuf] in *.
    split; [exact E1 |]. split; [exact E2 |].
    exists (b :: ext). split; [rewrite E3, <- app_assoc; reflexivity |].
    split; [cbn [length]; lia |].
    intros HT.
    assert (Hb : Q b).
    { unfold aget in Eg. destruct (inb _ _); [| discriminate]. injection Eg as <-. apply HT. }
    assert (Htb : forall x, Q (tb x)).
    { unfold aset in Es. destruct (inb _ _); [| discriminate]. injection Es as <-.
      intros x. unfold upd. destruct (x =? d_r st); [exact Hb | apply HT]. }
    destruct (HQ Htb) as [H1 H2]. split; [exact H1 | constructor; assumption].
  - injection H as <-. split; [reflexivity |]. split; [reflexivity |].
    exists []. split; [symmetry; apply app_nil_r |]. split; [cbn [length]; lia |].
    intros HT. split; [exact HT | constructor].
Qed.

Lemma in_nth_error {A : Type} (l : list A) k b : nth_error l k = Some b -> In b l.
Proof. apply nth_error_In. Qed.

(** A token that is decoded: the input position moves on, and the output
    grows by at most nine bytes per input byte, all of them known. *)
Lemma decodeToken_inl src st F sp st' :
  decodeToken src st F sp = Ok (inl st') -> 0 <= sp ->
  sp < d_srcPos st' <= Z.of_nat (length src) /\
  exists ext,
    d_dst st' = d_dst st ++ ext /\
    Z.of_nat (length ext) <= 9 * (d_srcPos st' - sp) /\
    ((forall x, known src (d_textBuf st x)) ->
       (forall x, known src (d_textBuf st' x)) /\ Forall (known src) ext).
Proof.
  unfold decodeToken. cbv zeta. intros H Hsp.
  destruct (Z.land F 1 =? 1).
  - destruct (Z_lt_le_dec sp (Z.of_nat (length src))) as [Hlt | Hge];
      [rewrite (geb_false sp) in H by lia | rewrite (geb_true sp) in H by lia; discriminate].
    destruct (getSrc src sp) as [b | |] eqn:Eg; cbn [bind] in H; try discriminate.
    rewrite z2b_b2z in H.
    destruct (aset (n + f - 1) (d_textBuf st) (d_r st) b) as [tb | |] eqn:Es;
      cbn [bind] in H; try discriminate.
    injection H as <-. cbn [d_srcPos d_dst d_textBuf]. split; [lia |].
    exists [b]. split; [reflexivity |]. split; [cbn [length]; lia |].
    intros HT.
    assert (Hb : known src b).
    { right. right. destruct (getSrc_inv _ _ _ Eg) as [_ Hn]. eapply in_nth_error. exact Hn. }
    split; [| constructor; [exact Hb | constructor]].
    unfold aset in Es. destruct (inb _ _); [| discriminate]. injection Es as <-.
    intros x. unfold upd. destruct (x =? d_r st); [exact Hb | apply HT].
  - destruct (Z_lt_le_dec sp (Z.of_nat (length src))) as [Hlt | Hge];
      [rewrite (geb_false sp) in H by lia | rewrite (geb_true sp) in H by lia; discriminate].
    destruct (getSrc src sp) as [bi | |] eqn:Eg; cbn [bind] in H; try discriminate.
    destruct (Z_lt_le_dec (sp + 1) (Z.of_nat (length src))) as [Hlt2 | Hge2];
      [rewrite (geb_false (sp + 1)) in H by lia
      | rewrite (geb_true (sp + 1)) in H by lia; discriminate].
    destruct (getSrc src (sp + 1)) as [bj | |] eqn:Eg2; cbn [bind] in H; try discriminate.
    match type of H with
    | (st0 <- copyLoop ?fu ?i ?j ?k ?s ;; _) = _ =>
        destruct (copyLoop fu i j k s) as [st2 | |] eqn:Ec; cbn [bind] in H; try discriminate
    end.
    injection H as <-.
    destruct (copyLoop_facts (known src) _ _ _ _ _ _ Ec) as (E1 & _ & ext & E3 & E4 & HQ).
    cbn [d_srcPos d_dst d_textBuf] in *. rewrite E1. split; [lia |].
    exists ext. split; [exact E3 |]. split; [| exact HQ].
    pose proof (land_15 (b2z bj)). clia.
Qed.

Lemma decodeToken_inr src st F sp out :
  decodeToken src st F sp = Ok (inr out) -> out = d_dst st.
Proof.
  unfold decodeToken. cbv zeta. intros H.
  destruct (Z.land F 1 =? 1).
  - destruct (sp >=? Z.of_nat (length src)); [injection H as <-; reflexivity |].
    destruct (getSrc src sp); cbn [bind] in H; try discriminate.
    destruct (aset _ _ _ _); cbn [bind] in H; discriminate.
  - destruct (sp >=? Z.of_nat (length src)); [injection H as <-; reflexivity |].
    destruct (getSrc src sp); cbn [bind] in H; try discriminate.
    destruct (sp + 1 >=? Z.of_nat (length src)); [injection H as <-; reflexivity |].
    destruct (getSrc src (sp + 1)); cbn [bind] in H; try discriminate.
    destruct (copyLoop _ _ _ _ _); cbn [bind] in H; discriminate.
Qed.

Lemma decodeStep_inl src st st' :
  decodeStep src st = Ok (inl st') -> 0 <= d_srcPos st ->
  d_srcPos st < d_srcPos st' <= Z.of_nat (length src) /\
  exists ext,
    d_dst st' = d_dst st ++ ext /\
    Z.of_nat (length ext) <= 9 * (d_srcPos st' - d_srcPos st) /\
    ((forall x, known src (d_textBuf st x)) ->
       (forall x, known src (d_textBuf st' x)) /\ Forall (known src) ext).
Proof.
  unfold decodeStep. cbv zeta. intros H Hsp.
  destruct (Z.land (Z.shiftr (d_flags st) 1) 256 =? 0).
  - destruct (d_srcPos st >=? Z.of_nat (length src)); cbn [andb] in H; [discriminate |].
    destruct (getSrc src (d_srcPos st)) as [b | |]; cbn [bind] in H; try discriminate.
    destruct (decodeToken_inl _ _ _ _ _ H) as (Hp & ext & E1 & E2 & HQ); [lia |].
    split; [lia |]. exists ext. split; [exact E1 |]. split; [lia | exact HQ].
  - cbn [andb bind] in H. exact (decodeToken_inl _ _ _ _ _ H Hsp).
Qed.

Lemma decodeStep_inr src st out :
  decodeStep src st = Ok (inr out) -> out = d_dst st.
Proof.
  unfold decodeStep. cbv zeta. intros H.
  destruct (Z.land (Z.shiftr (d_flags st) 1) 256 =? 0).
  - destruct (d_srcPos st >=? Z.of_nat (length src)); cbn [andb] in H;
      [injection H as <-; reflexivity |].
    destruct (getSrc src (d_srcPos st)); cbn [bind] in H; try discriminate.
    eapply decodeToken_inr. exact H.
  - cbn [andb bind] in H. eapply decodeToken_inr. exact H.
Qed.

(** The decoding loop from a state on. *)
Lemma decodeLoop_facts src : forall fuel st out,
  decodeLoop fuel src st = Ok out -> 0 <= d_srcPos st <= Z.of_nat (length src) ->
  exists ext,
    out = d_dst st ++ ext /\
    Z.of_nat (length ext) <= 9 * (Z.of_nat (length src) - d_srcPos st) /\
    ((forall x, known src (d_textBuf st x)) -> Forall (known src) ext).
Proof.
  induction fuel as [| fuel IH]; intros st out H Hsp; [discriminate |].
  cbn [decodeLoop] in H.
  destruct (decodeStep src st) as [[st' | o] | |] eqn:Es; cbn [bind] in H; try discriminate.
  - destruct (decodeStep_inl _ _ _ Es (proj1 Hsp)) as (Hp & ext1 & E1 & E2 & HQ1).
    destruct (IH _ _ H) as (ext2 & E3 & E4 & HQ2); [lia |].
    exists (ext1 ++ ext2). split; [rewrite E3, E1, app_assoc; reflexivity |].
    split; [rewrite length_app; lia |].
    intros HT. destruct (HQ1 HT) as [HT' Hx1]. apply Forall_app. auto.
  - injection H as <-. apply decodeStep_inr in Es. subst o.
    exists []. split; [symmetry; apply app_nil_r |].
    split; [cbn [length]; lia | constructor].
Qed.

(** ** Longer input *)

Lemma decodeToken_app src ext st F sp st' :
  decodeToken src st F sp = Ok (inl st') ->
  decodeToken (src ++ ext) st F sp = Ok (inl st').
Proof.
  unfold decodeToken. cbv zeta. intros H. rewrite length_app, Nat2Z.inj_add.
  destruct (Z.land F 1 =? 1).
  - destruct (Z_lt_le_dec sp (Z.of_nat (length src))) as [Hlt | Hge];
      [rewrite (geb_false sp) in H by lia | rewrite (geb_true sp) in H by lia; discriminate].
    rewrite (geb_false sp) by lia.
    destruct (getSrc src sp) as [b | |] eqn:Eg; cbn [bind] in H; try discriminate.
    rewrite (getSrc_app _ _ _ _ Eg). exact H.
  - destruct (Z_lt_le_dec sp (Z.of_nat (length src))) as [Hlt | Hge];
      [rewrite (geb_false sp) in H by lia | rewrite (geb_true sp) in H by lia; discriminate].
    rewrite (geb_false sp) by lia.
    destruct (getSrc src sp) as [bi | |] eqn:Eg; cbn [bind] in H; try discriminate.
    rewrite (getSrc_app _ _ _ _ Eg). cbn [bind].
    destruct (Z_lt_le_dec (sp + 1) (Z.of_nat (length src))) as [Hlt2 | Hge2];
      [rewrite (geb_false (sp + 1)) in H by lia
      | rewrite (geb_true (sp + 1)) in H by lia; discriminate].
    rewrite (geb_false (sp + 1)) by lia.
    destruct (getSrc src (sp + 1)) as [bj | |] eqn:Eg2; cbn [bind] in H; try discriminate.
    rewrite (getSrc_app _ _ _ _ Eg2). exact H.
Qed.

Lemma decodeStep_app src ext st st' :
  decodeStep src st = Ok (inl st') -> decodeStep (src ++ ext) st = Ok (inl st').
Proof.
  unfold decodeStep. cbv zeta. intros H.
  destruct (Z.land (Z.shiftr (d_flags st) 1) 256 =? 0).
  - destruct (Z_lt_le_dec (d_srcPos st) (Z.of_nat (length src))) as [Hlt | Hge];
      [rewrite (geb_false (d_srcPos st)) in H by lia
      | rewrite (geb_true (d_srcPos st)) in H by lia; discriminate].
    rewrite (geb_false (d_srcPos st)) by (rewrite length_app; lia).
    cbn [andb] in *.
    destruct (getSrc src (d_srcPos st)) as [b | |] eqn:Eg; cbn [bind] in H; try discriminate.
    rewrite (getSrc_app _ _ _ _ Eg). cbn [bind]. apply decodeToken_app. exact H.
  - cbn [andb bind] in *. apply decodeToken_app. exact H.
Qed.

Lemma decodeLoop_prefix src ext : forall fuel1 fuel2 st o1 o2,
  decodeLoop fuel1 src st = Ok o1 -> decodeLoop fuel2 (src ++ ext) st = Ok o2 ->
  0 <= d_srcPos st <= Z.of_nat (length src) ->
  is_prefix o1 o2.
Proof.
  induction fuel1 as [| fuel1 IH]; intros fuel2 st o1 o2 H1 H2 Hsp; [discriminate |].
  cbn [decodeLoop] in H1.
  destruct (decodeStep src st) as [[st' | o] | |] eqn:Es; cbn [bind] in H1; try discriminate.
  - destruct fuel2 as [| fuel2]; [discriminate |]. cbn [decodeLoop] in H2.
    rewrite (decodeStep_app _ ext _ _ Es) in H2. cbn [bind] in H2.
    destruct (decodeStep_inl _ _ _ Es (proj1 Hsp)) as (Hp & _).
    apply (IH fuel2 st'); [assumption | assumption | lia].
  - injection H1 as <-. apply decodeStep_inr in Es. subst o.
    destruct (decodeLoop_facts _ _ _ _ H2) as (e & E & _);
      [rewrite length_app; lia |].
    exists e. exact E.
Qed.

(** * More on [Compress] *)

Lemma Compress_Decompress x c : Compress x = Ok c -> Decompress c = Ok x.
Proof.
  intros H. destruct (Compress_tokens x) as (toks & Hc & Hok & Hspan).
  rewrite Hc in H. injection H as <-.
  rewrite Decompress_pack by (apply (toks_ok_wf x toks 0); [lia | exact Hok]).
  f_equal. apply dec_out_src; assumption.
Qed.

(** ** A lower bound on the size of the output *)

Lemma pack_length_low toks :
  (8 * length (flat_map tok_bytes toks) + length toks <= 8 * length (pack toks))%nat.
Proof.
  induction toks as [| toks Hne IH] using pack_ind8; [cbn; lia |].
  rewrite (pack_first toks Hne). rewrite length_app. unfold group_bytes. cbn [length].
  assert (Hl : length toks = (length (firstn 8 toks) + length (skipn 8 toks))%nat)
    by (rewrite <- length_app, firstn_skipn; reflexivity).
  assert (Hf : length (flat_map tok_bytes toks) =
               (length (flat_map tok_bytes (firstn 8 toks)) +
                length (flat_map tok_bytes (skipn 8 toks)))%nat)
    by (rewrite <- length_app, <- flat_map_app, firstn_skipn; reflexivity).
  assert (Hg : (length (firstn 8 toks) <= 8)%nat) by (rewrite length_firstn; lia).
  lia.
Qed.

Lemma span_le_bytes src : forall toks t,
  toks_ok src t toks ->
  span toks <= 9 * Z.of_nat (length (flat_map tok_bytes toks)) /\
  span toks <= 18 * Z.of_nat (length toks).
Proof.
  induction toks as [| k toks IH]; intros t Hok.
  - unfold span. cbn. lia.
  - destruct Hok as [Hk Hrest]. destruct (IH _ Hrest) as [H1 H2].
    unfold span. cbn [fold_right flat_map length]. fold (span toks).
    rewrite length_app.
    assert (tok_len k <= 9 * Z.of_nat (length (tok_bytes k)) /\ tok_len k <= 18).
    { destruct k as [b | p l]; cbn [tok_bytes tok_len length]; [lia |].
      destruct Hk as (Hl & _). clia. }
    lia.
Qed.

(** ** Sources without a repetition *)

Lemma skipn_txt src t :
  0 <= t < srcLen src ->
  skipn (Z.to_nat t) src = txt src t :: skipn (Z.to_nat (t + 1)) src.
Proof.
  unfold srcLen. intros Ht.
  replace (Z.to_nat (t + 1)) with (S (Z.to_nat t)) by lia.
  unfold txt.
  destruct (Z.ltb_spec t (- (n - f))); [clia |].
  destruct (Z.ltb_spec t 0); [lia |].
  assert (Hlt : (Z.to_nat t < length src)%nat) by lia.
  revert Hlt. generalize (Z.to_nat t). clear. intros k. revert src.
  induction k as [| k IH]; intros src Hk.
  - destruct src; [cbn in Hk; lia | reflexivity].
  - destruct src as [| b src]; [cbn in Hk; lia |].
    cbn [length] in Hk. cbn [skipn nth]. apply IH. lia.
Qed.

Lemma toks_all_literal src : forall toks t,
  (forall t d, ~ repeat_at src t d) ->
  toks_ok src t toks -> 0 <= t -> t + span toks = srcLen src ->
  toks = map Lit (skipn (Z.to_nat t) src).
Proof.
  intros toks t Hno. revert t.
  induction toks as [| k toks IH]; intros t Hok Ht Hspan.
  - unfold span in Hspan. cbn [fold_right] in Hspan.
    rewrite skipn_all2 by (unfold srcLen in Hspan; lia). reflexivity.
  - destruct Hok as [Hk Hrest]. unfold span in Hspan. cbn [fold_right] in Hspan.
    fold (span toks) in Hspan.
    destruct k as [b | p l].
    + destruct Hk as [Hlt ->]. cbn [tok_len] in *.
      rewrite skipn_txt by lia. cbn [map]. f_equal.
      apply IH; [exact Hrest | lia | lia].
    + exfalso. destruct Hk as (Hl & Hlen & d & Hd & Hdt & _ & Hag).
      apply (Hno t d). split; [exact Ht |]. split; [clia |].
      split; [exact Hd |]. split; [exact Hdt |].
      intros j Hj. apply Hag. clia.
Qed.

(** * The growth of the output of [Decompress] *)

Lemma pending_step_all F : 0 <= F < 65536 -> pending_step F = true.
Proof.
  intros HF.
  assert (H : zrange_all (fun h => zrange_all (fun l => pending_step (256 * h + l)) 256) 256 = true)
    by (vm_compute; reflexivity).
  pose proof (zrange_all_spec _ _ (F / 256) H
                ltac:(split; [apply Z.div_pos; lia | apply Z.div_lt_upper_bound; lia])) as H1.
  cbv beta in H1.
  pose proof (zrange_all_spec _ _ (F mod 256) H1 ltac:(apply Z.mod_pos_bound; lia)) as H2.
  cbv beta in H2. rewrite <- Z.div_mod in H2 by lia. exact H2.
Qed.

Lemma pending_reload c : 0 <= c < 256 ->
  0 <= Z.lor c 65280 < 65536 /\ pending (Z.lor c 65280) = 7.
Proof.
  intros Hc.
  assert (H : zrange_all (fun c => (Z.lor c 65280 <? 65536) && (pending (Z.lor c 65280) =? 7)) 256
              = true) by (vm_compute; reflexivity).
  pose proof (zrange_all_spec _ _ c H ltac:(lia)) as H1. cbv beta in H1.
  apply andb_true_iff in H1. destruct H1 as [H1 H2].
  apply Z.ltb_lt in H1. apply Z.eqb_eq in H2.
  rewrite lor_flags in * by exact Hc. split; [lia | exact H2].
Qed.

Lemma decodeToken_moves src st F sp st' :
  decodeToken src st F sp = Ok (inl st') ->
  d_flags st' = F /\ d_srcPos st' <= sp + 2.
Proof.
  unfold decodeToken. cbv zeta. intros H.
  destruct (Z.land F 1 =? 1).
  - destruct (sp >=? Z.of_nat (length src)); [discriminate |].
    destruct (getSrc src sp); cbn [bind] in H; try discriminate.
    destruct (aset _ _ _ _); cbn [bind] in H; try discriminate.
    injection H as <-. cbn [d_flags d_srcPos]. split; [reflexivity | lia].
  - destruct (sp >=? Z.of_nat (length src)); [discriminate |].
    destruct (getSrc src sp); cbn [bind] in H; try discriminate.
    destruct (sp + 1 >=? Z.of_nat (length src)); [discriminate |].
    destruct (getSrc src (sp + 1)); cbn [bind] in H; try discriminate.
    match type of H with
    | (st0 <- copyLoop ?fu ?i ?j ?k ?s ;; _) = _ =>
        destruct (copyLoop fu i j k s) as [st2 | |] eqn:Ec; cbn [bind] in H; try discriminate
    end.
    injection H as <-.
    destruct (copyLoop_facts (fun _ => True) _ _ _ _ _ _ Ec) as (E1 & E2 & _).
    cbn [d_srcPos d_flags] in *. rewrite E1, E2. split; [reflexivity | lia].
Qed.

(** One iteration keeps [17 * output + 18 * pending <= 144 * input read]:
    a control byte pays for eight tokens, and a token gives at most 18
    bytes for two. *)
Lemma decodeStep_tight src st st' :
  decodeStep src st = Ok (inl st') ->
  0 <= d_srcPos st -> 0 <= d_flags st < 65536 ->
  17 * Z.of_nat (length (d_dst st)) + 18 * pending (d_flags st) <= 144 * d_srcPos st ->
  d_srcPos st < d_srcPos st' <= Z.of_nat (length src) /\
  0 <= d_flags st' < 65536 /\
  17 * Z.of_nat (length (d_dst st')) + 18 * pending (d_flags st') <= 144 * d_srcPos st'.
Proof.
  unfold decodeStep. cbv zeta. intros H Hsp HF Hinv.
  pose proof (pending_step_all _ HF) as Hp. unfold pending_step in Hp. cbv zeta in Hp.
  apply andb_true_iff in Hp. destruct Hp as [Hr Hp].
  apply andb_true_iff in Hr. destruct Hr as [Hr1 Hr2].
  apply Z.leb_le in Hr1. apply Z.ltb_lt in Hr2.
  destruct (Z.land (Z.shiftr (d_flags st) 1) 256 =? 0).
  - apply Z.eqb_eq in Hp.
    destruct (d_srcPos st >=? Z.of_nat (length src)); cbn [andb] in H; [discriminate |].
    destruct (getSrc src (d_srcPos st)) as [b | |]; cbn [bind] in H; try discriminate.
    destruct (decodeToken_inl _ _ _ _ _ H) as (Hq & ext & E1 & E2 & _); [lia |].
    destruct (decodeToken_moves _ _ _ _ _ H) as (EF & Hm).
    destruct (pending_reload (b2z b) (b2z_range b)) as [HF' Hpe].
    rewrite EF, Hpe, E1, length_app. split; [lia |]. split; [exact HF' | lia].
  - apply andb_true_iff in Hp. destruct Hp as [Hp1 Hp2].
    apply Z.eqb_eq in Hp1. apply Z.leb_le in Hp2.
    cbn [andb bind] in H.
    destruct (decodeToken_inl _ _ _ _ _ H Hsp) as (Hq & ext & E1 & E2 & _).
    destruct (decodeToken_moves _ _ _ _ _ H) as (EF & Hm).
    rewrite EF, Hp1, E1, length_app. split; [lia |]. split; lia.
Qed.

Lemma decodeLoop_tight src : forall fuel st out,
  decodeLoop fuel src st = Ok out ->
  0 <= d_srcPos st <= Z.of_nat (length src) -> 0 <= d_flags st < 65536 ->
  17 * Z.of_nat (length (d_dst st)) + 18 * pending (d_flags st) <= 144 * d_srcPos st ->
  17 * Z.of_nat (length out) <= 144 * Z.of_nat (length src).
Proof.
  induction fuel as [| fuel IH]; intros st out H Hsp HF Hinv; [discriminate |].
  cbn [decodeLoop] in H.
  destruct (decodeStep src st) as [[st' | o] | |] eqn:Es; cbn [bind] in H; try discriminate.
  - destruct (decodeStep_tight _ _ _ Es (proj1 Hsp) HF Hinv) as (Hq & HF' & Hinv').
    apply (IH _ _ H); [lia | exact HF' | exact Hinv'].
  - injection H as <-. apply decodeStep_inr in Es. subst o.
    assert (0 <= pending (d_flags st)).
    { pose proof (pending_step_all _ HF) as Hp. unfold pending_step in Hp. cbv zeta in Hp.
      apply andb_true_iff in Hp. destruct Hp as [_ Hp].
      destruct (Z.land (Z.shiftr (d_flags st) 1) 256 =? 0).
      - apply Z.eqb_eq in Hp. lia.
      - apply andb_true_iff in Hp. destruct Hp as [_ Hp2]. apply Z.leb_le in Hp2. lia. }
    lia.
Qed.

(** * The positions held by the Match Index *)

Lemma held_fupd_iff fo c t x :
  0 <= c < 256 ->
  (held (fupd fo c t) x <->
   In x (elems t) \/ exists c', 0 <= c' < 256 /\ c' <> c /\ In x (elems (fo c'))).
Proof.
  intros Hc. unfold held, fupd. split.
  - intros (c' & Hc' & Hin). destruct (Z.eqb_spec c' c) as [E | E]; [left; exact Hin |].
    right. exists c'. auto.
  - intros [Hin | (c' & Hc' & Hne & Hin)].
    + exists c. rewrite Z.eqb_refl. auto.
    + exists c'. destruct (Z.eqb_spec c' c) as [E | E]; [contradiction | auto].
Qed.

(** [insertNode] in terms of the positions held. *)
Lemma insertNode_held sp fo r :
  forest_ok sp fo -> 0 <= r < n -> parent sp r = NIL ->
  exists sp' fo',
    insertNode sp r = Ok sp' /\ forest_ok sp' fo' /\ textBuf sp' = textBuf sp /\
    held fo' r /\
    (forall x, held fo' x -> x = r \/ held fo x) /\
    (forall x, held fo x -> held fo' x \/ (matchLength sp' = f /\ x = matchPosition sp')) /\
    (matchLength sp' = f -> held fo (matchPosition sp') /\ ~ held fo' (matchPosition sp')) /\
    match_ok (textBuf sp) r (held fo) sp' /\
    best (textBuf sp) r (held fo) (matchLength sp').
Proof.
  intros Hf Hr HN.
  destruct (insertNode_full sp fo r Hf Hr HN)
    as (sp' & t' & Hrun & Hf' & HT & Hrt & Hsub & Hm & Hbest & Hsup & Hdup).
  set (c := b2z (textBuf sp r)) in *.
  pose proof (b2z_range (textBuf sp r)) as Hc. fold c in Hc.
  exists sp', (fupd fo c t'). split; [exact Hrun |]. split; [exact Hf' |].
  split; [exact HT |]. split; [| split; [| split; [| split; [| split]]]].
  - apply held_fupd_iff; auto.
  - intros x Hx. apply held_fupd_iff in Hx; [| exact Hc].
    destruct Hx as [Hx | (c' & Hc' & _ & Hx)].
    + destruct (Hsub x Hx) as [E | Hin]; [left; exact E | right; exists c; auto].
    + right. exists c'. auto.
  - intros x (c' & Hc' & Hx). destruct (Z.eq_dec c' c) as [-> | Hne].
    + destruct (Hsup x Hx) as [Hin | Hd]; [left | right; exact Hd].
      apply held_fupd_iff; auto.
    + left. apply held_fupd_iff; [exact Hc |]. right. exists c'. auto.
  - intros E. destruct Hm as [_ Hm]. destruct Hm as [Hin _]; [clia |].
    split; [exists c; auto |]. intros Hh. apply held_fupd_iff in Hh; [| exact Hc].
    destruct Hh as [Hh | (c' & Hc' & Hne & Hh)]; [exact (Hdup E Hh) |].
    destruct (held_facts _ _ _ _ Hf Hc Hin) as (_ & E1 & _).
    destruct (held_facts _ _ _ _ Hf Hc' Hh) as (_ & E2 & _). congruence.
  - destruct Hm as [Hm1 Hm2]. split; [exact Hm1 |]. intros Hpos.
    destruct (Hm2 Hpos) as [Hin Heq]. split; [exists c; auto | exact Heq].
  - intros y m (c' & Hc' & Hy) Hm0 Ha. destruct (Z.eq_dec c' c) as [-> | Hne].
    + exact (Hbest y m Hy Hm0 Ha).
    + destruct (Z_le_gt_dec m 0) as [H0 | H0]; [destruct Hm as [Hm1 _]; lia |].
      exfalso. apply Hne.
      destruct (held_facts _ _ _ _ Hf Hc' Hy) as (_ & E & _).
      specialize (Ha 0 ltac:(lia)). rewrite !Z.add_0_r in Ha.
      rewrite <- E, Ha. reflexivity.
Qed.

(** ** The token-level decoder: the length of its output *)

Lemma copy_length : forall fuel rg r p out,
  length (snd (copy fuel rg r p out)) = (length out + fuel)%nat.
Proof.
  induction fuel as [| fuel IH]; intros rg r p out; cbn [copy snd]; [lia |].
  rewrite IH, length_app. cbn [length]. lia.
Qed.

Lemma dec_toks_length : forall toks s,
  Forall tok_wf toks ->
  Z.of_nat (length (snd (dec_toks toks s))) = Z.of_nat (length (snd s)) + span toks.
Proof.
  induction toks as [| k toks IH]; intros s Hwf.
  - unfold span. cbn. lia.
  - inversion Hwf as [| k' toks' Hk Hrest]; subst.
    rewrite dec_toks_cons, IH by exact Hrest.
    unfold span. cbn [fold_right]. fold (span toks).
    destruct s as [[rg r] out]. destruct k as [b | p l]; cbn [dec_tok tok_len snd].
    + rewrite length_app. cbn [length]. lia.
    + rewrite copy_length. destruct Hk as [_ Hl]. clia.
Qed.

(** ** A source without repetitions *)

Lemma abc_no_repeat : forall t d, ~ repeat_at ["a"; "b"; "c"]%byte t d.
Proof.
  intros t d (Ht & Hlen & Hd & Hdt & Hk). unfold srcLen in Hlen. cbn [length] in Hlen.
  assert (t = 0) by clia. subst t.
  specialize (Hk 0 ltac:(clia)). unfold txt in Hk.
  destruct (Z.ltb_spec (0 - d + 0) (- (n - f))) as [H1 | H1]; [clia |].
  destruct (Z.ltb_spec (0 - d + 0) 0) as [H2 | H2]; [| lia].
  cbn in Hk. discriminate.
Qed.

(** * Further properties of the coder, the decoder and the Match Index *)

(** X1. [Decompress] is monotone in its input: for all byte sequences [a]
    and [e], the output of [Decompress a] is an initial segment of the
    output of [Decompress (a ++ e)]. Bytes appended to a stream never
    change what was decoded from the stream before them. *)
Theorem decompress_prefix_monotone :
  forall a e : list byte, exists o1 o2,
    Decompress a = Ok o1 /\ Decompress (a ++ e) = Ok o2 /\ is_prefix o1 o2.
Proof.
  intros a e.
  destruct (Decompress_total a) as [o1 H1].
  destruct (Decompress_total (a ++ e)) as [o2 H2].
  exists o1, o2. split; [exact H1 |]. split; [exact H2 |].
  unfold Decompress in H1, H2.
  apply (decodeLoop_prefix a e _ _ decodeInit o1 o2 H1 H2).
  cbn [d_srcPos decodeInit]. lia.
Qed.

(** X2. Trailing bytes: for every [x] and every byte sequence [pad],
    [Decompress] of the output of [Compress x] followed by [pad] returns a
    byte sequence that starts with [x]. A padded stream still gives the
    data back, followed by whatever the padding decodes to. *)
Theorem trailing_bytes_keep_data :
  forall x pad : list byte, exists c out,
    Compress x = Ok c /\ Decompress (c ++ pad) = Ok out /\ is_prefix x out.
Proof.
  intros x pad. destruct (Compress_tokens x) as (toks & Hc & _).
  pose proof (Compress_Decompress x _ Hc) as H1.
  destruct (Decompress_total (pack toks ++ pad)) as [out H2].
  exists (pack toks), out. split; [exact Hc |]. split; [exact H2 |].
  unfold Decompress in H1, H2.
  apply (decodeLoop_prefix (pack toks) pad _ _ decodeInit x out H1 H2).
  cbn [d_srcPos decodeInit]. lia.
Qed.

(** X3. Growth: for every byte sequence [s], the output of [Decompress s]
    has at most [144 / 17] times the length of [s]: a control byte and
    eight two-byte references, 17 bytes, give at most 8 * 18 = 144 bytes. *)
Theorem decompress_expansion_bound :
  forall s : list byte, exists out,
    Decompress s = Ok out /\
    17 * Z.of_nat (length out) <= 144 * Z.of_nat (length s).
Proof.
  intros s. destruct (Decompress_total s) as [out H]. exists out. split; [exact H |].
  unfold Decompress in H.
  apply (decodeLoop_tight s _ decodeInit out H); cbn [d_srcPos d_flags d_dst decodeInit length].
  - lia.
  - lia.
  - change (pending 0) with 0. lia.
Qed.

(** X4. [Decompress] makes up no data: every byte of its output is a byte
    of its input, a space or a zero byte, the latter two being what the
    ring buffer holds before the first byte is decoded. *)
Theorem decompress_invents_no_bytes :
  forall s : list byte, exists out,
    Decompress s = Ok out /\ Forall (known s) out.
Proof.
  intros s. destruct (Decompress_total s) as [out H]. exists out. split; [exact H |].
  unfold Decompress in H.
  destruct (decodeLoop_facts s _ decodeInit out H) as (ext & E & _ & HQ).
  { cbn [d_srcPos decodeInit]. lia. }
  cbn [d_dst decodeInit app] in E. subst ext. apply HQ.
  intros x. cbn [d_textBuf decodeInit]. unfold known.
  destruct ((0 <=? x) && (x <? n - f)); auto.
Qed.

(** X5. [Decompress] reads every packed list of well-formed tokens, not
    only those that [Compress] writes: for tokens with a 12-bit position
    and a length in [3, 18], [Decompress (pack toks)] is the output of the
    token-level decoder, which appends the byte of a literal and, for a
    reference, copies its length in bytes out of the ring buffer; the
    output has as many bytes as the tokens stand for. *)
Theorem decompress_any_token_stream :
  forall toks : list token,
    Forall tok_wf toks ->
    Decompress (pack toks) = Ok (dec_out toks) /\
    Z.of_nat (length (dec_out toks)) = span toks.
Proof.
  intros toks Hwf. split; [apply Decompress_pack; exact Hwf |].
  unfold dec_out. rewrite dec_toks_length by exact Hwf. reflexivity.
Qed.

(** X6. A floor on the size: for every [x], the output [c] of [Compress x]
    satisfies [17 * length x <= 144 * length c]. No input is compressed
    to less than 17/144 of its length. *)
Theorem compressed_size_floor :
  forall x : list byte, exists c,
    Compress x = Ok c /\
    17 * Z.of_nat (length x) <= 144 * Z.of_nat (length c).
Proof.
  intros x. destruct (Compress_tokens x) as (toks & Hc & Hok & Hspan).
  exists (pack toks). split; [exact Hc |].
  pose proof (pack_length_low toks) as Hp.
  destruct (span_le_bytes x toks 0 Hok) as [Hb Hn].
  unfold srcLen in Hspan. lia.
Qed.

(** X7. [Compress] is injective: two different inputs never have the same
    output. *)
Theorem compress_injective :
  forall x y : list byte, x <> y -> Compress x <> Compress y.
Proof.
  intros x y Hne E. apply Hne.
  destruct (Compress_tokens x) as (toks & Hc & _).
  pose proof (Compress_Decompress x _ Hc) as H1.
  rewrite E in Hc. pose proof (Compress_Decompress y _ Hc) as H2.
  rewrite H1 in H2. injection H2 as H2. exact H2.
Qed.

(** X8. A source without repetition is stored as literals: when at no
    index the next three bytes also stand one to [n - f] places before it
    (the text before the source being the initial content of the ring
    buffer), the output of [Compress x] is the packing of one literal
    token per byte of [x], and it is longer than [x] by one control byte
    for every eight bytes: [9 * length x <= 8 * length c]. *)
Theorem no_repetition_all_literals :
  forall x : list byte,
    (forall t d, ~ repeat_at x t d) ->
    Compress x = Ok (pack (map Lit x)) /\
    9 * Z.of_nat (length x) <= 8 * Z.of_nat (length (pack (map Lit x))).
Proof.
  intros x Hno. destruct (Compress_tokens x) as (toks & Hc & Hok & Hspan).
  split.
  - rewrite Hc. do 2 f_equal. apply (toks_all_literal x toks 0 Hno Hok); lia.
  - pose proof (pack_length_low (map Lit x)) as Hp.
    rewrite length_map in Hp.
    replace (flat_map tok_bytes (map Lit x)) with x in Hp; [lia |].
    clear. induction x as [| b x IH]; [reflexivity |]. cbn. f_equal. exact IH.
Qed.


(** X10. What [insertNode] does to the index. [parent[x] = NIL] marks the
    positions that are in no tree. After [insertNode] of a free position
    [r] into a Match Index that satisfies its invariant, [r] is in a tree;
    when the match is of full length [f], the matched position is taken
    out of its tree; every other position is in a tree after the call
    exactly when it was before. The text buffer is not changed. *)
Theorem insert_updates_index :
  forall sp fo r,
    forest_ok sp fo -> 0 <= r < n -> parent sp r = NIL ->
    exists sp',
      insertNode sp r = Ok sp' /\
      textBuf sp' = textBuf sp /\
      parent sp' r <> NIL /\
      (matchLength sp' = f ->
         0 <= matchPosition sp' < n /\ matchPosition sp' <> r /\
         parent sp (matchPosition sp') <> NIL /\
         parent sp' (matchPosition sp') = NIL) /\
      (forall x, 0 <= x < n -> x <> r ->
         ~ (matchLength sp' = f /\ x = matchPosition sp') ->
         (parent sp' x = NIL <-> parent sp x = NIL)).
Proof.
  intros sp fo r Hf Hr HN.
  destruct (insertNode_held sp fo r Hf Hr HN)
    as (sp' & fo' & Hrun & Hf' & HT & Hhr & Hsub & Hsup & Hdup & _).
  destruct (forest_ok_meaning _ _ Hf) as (_ & _ & Hold).
  destruct (forest_ok_meaning _ _ Hf') as (_ & _ & Hnew).
  exists sp'. split; [exact Hrun |]. split; [exact HT |]. split; [| split].
  - intros E. apply (proj1 (Hnew r Hr)) in E. contradiction.
  - intros E. destruct (Hdup E) as [Hh Hnh].
    destruct Hh as (c & Hc & Hin).
    destruct (held_facts _ _ _ _ Hf Hc Hin) as (Hrange & _ & Hlive).
    split; [exact Hrange |]. split; [congruence |]. split; [exact Hlive |].
    apply (proj2 (Hnew _ Hrange)). exact Hnh.
  - intros x Hx Hxr Hnd. split.
    + intros E. apply (proj2 (Hold x Hx)). intros Hh.
      destruct (Hsup x Hh) as [Hh' | Hd]; [| contradiction].
      exact (proj1 (Hnew x Hx) E Hh').
    + intros E. apply (proj2 (Hnew x Hx)). intros Hh.
      destruct (Hsub x Hh) as [Hh' | Hh']; [contradiction |].
      exact (proj1 (Hold x Hx) E Hh').
Qed.

(** X11. What [deleteNode] does to the index. After [deleteNode] of a
    position [p] from a Match Index that satisfies its invariant, [p] is in
    no tree, and every other position is in a tree exactly when it was
    before; the text buffer and the match fields are not changed, and
    deleting [p] once more changes nothing. *)
Theorem delete_updates_index :
  forall sp fo p,
    forest_ok sp fo -> 0 <= p < n ->
    exists sp',
      deleteNode sp p = Ok sp' /\
      textBuf sp' = textBuf sp /\
      matchPosition sp' = matchPosition sp /\ matchLength sp' = matchLength sp /\
      parent sp' p = NIL /\
      (forall x, 0 <= x < n -> x <> p ->
         (parent sp' x = NIL <-> parent sp x = NIL)) /\
      deleteNode sp' p = Ok sp'.
Proof.
  intros sp fo p Hf Hp.
  destruct (deleteNode_full sp fo p Hf Hp)
    as (sp' & fo' & Hrun & Hf' & HT & Hmp & Hml & HN & Hsub & Hsup).
  destruct (forest_ok_meaning _ _ Hf) as (_ & _ & Hold).
  destruct (forest_ok_meaning _ _ Hf') as (_ & _ & Hnew).
  exists sp'. split; [exact Hrun |]. split; [exact HT |]. split; [exact Hmp |].
  split; [exact Hml |]. split; [exact HN |]. split.
  - intros x Hx Hxp. split.
    + intros E. apply (proj2 (Hold x Hx)). intros Hh.
      exact (proj1 (Hnew x Hx) E (Hsup x Hh Hxp)).
    + intros E. apply (proj2 (Hnew x Hx)). intros Hh.
      exact (proj1 (Hold x Hx) E (proj1 (Hsub x Hh))).
  - unfold deleteNode. rewrite getP_ok by lia. cbn [bind]. rewrite HN.
    rewrite Z.eqb_refl. reflexivity.
Qed.

(** An instance of X5: a literal and a reference that overlaps its own
    output. *)
Lemma decompress_any_token_stream_witness :
  Decompress (pack [Lit "a"%byte; Ref 4078 3]) = Ok (dec_out [Lit "a"%byte; Ref 4078 3]) /\
  Z.of_nat (length (dec_out [Lit "a"%byte; Ref 4078 3])) = span [Lit "a"%byte; Ref 4078 3].
Proof.
  apply decompress_any_token_stream.
  constructor; [exact I |]. constructor; [| constructor].
  cbn [tok_wf]. unfold n, f, threshold. lia.
Defined.

(** An instance of X7: the empty input and a one-byte input. *)
Lemma compress_injective_witness : Compress [] <> Compress ["a"%byte].
Proof. apply compress_injective. discriminate. Defined.

(** An instance of X8: three different bytes. *)
Lemma no_repetition_all_literals_witness :
  Compress ["a"; "b"; "c"]%byte = Ok (pack (map Lit ["a"; "b"; "c"]%byte)) /\
  9 * Z.of_nat (length ["a"; "b"; "c"]%byte)
    <= 8 * Z.of_nat (length (pack (map Lit ["a"; "b"; "c"]%byte))).
Proof. apply no_repetition_all_literals. exact abc_no_repeat. Defined.


(** An instance of X10: inserting position 0 into the initial state. *)
Lemma insert_updates_index_witness :
  exists sp',
    insertNode initState 0 = Ok sp' /\
    textBuf sp' = textBuf initState /\
    parent sp' 0 <> NIL /\
    (matchLength sp' = f ->
       0 <= matchPosition sp' < n /\ matchPosition sp' <> 0 /\
       parent initState (matchPosition sp') <> NIL /\
       parent sp' (matchPosition sp') = NIL) /\
    (forall x, 0 <= x < n -> x <> 0 ->
       ~ (matchLength sp' = f /\ x = matchPosition sp') ->
       (parent sp' x = NIL <-> parent initState x = NIL)).
Proof.
  exact (insert_updates_index initState (fun _ => Leaf) 0
           forest_ok_init (conj (Z.le_refl 0) eq_refl) eq_refl).
Defined.

(** An instance of X11: deleting position 0 after it was inserted into
    the initial state. *)
Lemma delete_updates_index_witness :
  exists sp1 sp2,
    insertNode initState 0 = Ok sp1 /\ parent sp1 0 <> NIL /\
    deleteNode sp1 0 = Ok sp2 /\ parent sp2 0 = NIL /\
    textBuf sp2 = textBuf sp1 /\
    (forall x, 0 <= x < n -> x <> 0 -> (parent sp2 x = NIL <-> parent sp1 x = NIL)).
Proof.
  destruct (insertNode_held initState (fun _ => Leaf) 0
              forest_ok_init (conj (Z.le_refl 0) eq_refl) eq_refl)
    as (sp1 & fo1 & Hrun & Hf1 & _ & (c & Hc & Hin) & _).
  destruct (delete_updates_index sp1 fo1 0 Hf1 (conj (Z.le_refl 0) eq_refl))
    as (sp2 & Hdel & HT & _ & _ & HN & Hrest & _).
  exists sp1, sp2. split; [exact Hrun |].
  split; [exact (proj2 (proj2 (held_facts _ _ _ _ Hf1 Hc Hin))) |].
  split; [exact Hdel |]. split; [exact HN |]. split; [exact HT | exact Hrest].
Defined.
